(** * Checkpoint quantization utilities

    A shallow embedding of
    [paddlenlp/quantization/checkpoint_quantization_utils.py]:
    the 4-bit packing codec ([merge_int4], [split_int8]), the channel
    statistics ([cal_abs_max_channel], [cal_abs_min_max_channel]), the
    channel-wise codecs ([qdq_weight], [asymmetry_qdq_weight]), the
    group-wise driver ([group_wise_quant_dequant]) and the update ratio
    of Adam ([cal_ratio]).

    Integers are [Z] with the wrap-around of the fixed-width casts written
    out.  Floating-point elements are [spec_float], the IEEE-754 binary
    formats of the standard library, at the precision of the array's dtype;
    the arrays of one call share their dtype.  Arrays are [ndarray]s of at
    most two dimensions with numpy's broadcasting.  A Python exception is
    the result [None].

    A function of the source that quantizes or dequantizes by a flag is
    two functions here, one per value of the flag, since the two branches
    take arrays of different element types: [qdq_weight_quant] and
    [qdq_weight_dequant] for [qdq_weight], and so on.  The quantizing
    branches compute in IEEE-754 arithmetic.  The dequantizing branches run
    on numpy or on paddle; the arithmetic of each library is a parameter
    ([backend]) of the embedding. *)

From Stdlib Require Import ZArith List Bool Lia.
From Stdlib Require Import SpecFloat.
Import ListNotations.
Local Open Scope Z_scope.

(* ================================================================== *)
(** * Python integers, slices and the option monad                     *)
(* ================================================================== *)

Definition bind {A B : Type} (o : option A) (k : A -> option B) : option B :=
  match o with
  | Some a => k a
  | None => None
  end.

Notation "x <- e ;; k" := (bind e (fun x => k))
  (at level 61, e at next level, right associativity).

(** [sequence] collects the results of a list of computations; the first
    exception wins. *)
Fixpoint sequence {A : Type} (l : list (option A)) : option (list A) :=
  match l with
  | [] => Some []
  | o :: l' => a <- o ;; r <- sequence l' ;; Some (a :: r)
  end.

(** [a // b]: floor division, [ZeroDivisionError] on a zero divisor. *)
Definition py_floordiv (a b : Z) : option Z :=
  if b =? 0 then None else Some (a / b).

(** [a << n]: [ValueError] on a negative shift count. *)
Definition py_lshift (a n : Z) : option Z :=
  if n <? 0 then None else Some (Z.shiftl a n).

(** The position a slice bound [i] denotes on an axis of length [n]:
    negative bounds count from the end and every bound is clamped. *)
Definition slice_bound (n i : Z) : Z :=
  if i <? 0 then Z.max (i + n) 0 else Z.min i n.

(** [l[start:stop]] *)
Definition py_slice {A : Type} (l : list A) (start stop : Z) : list A :=
  let n := Z.of_nat (length l) in
  let lo := slice_bound n start in
  let hi := slice_bound n stop in
  firstn (Z.to_nat (hi - lo)) (skipn (Z.to_nat lo) l).

(* ================================================================== *)
(** * Arrays                                                           *)
(* ================================================================== *)

(** A dense array of rank 0, 1 or 2.  A matrix keeps its number of
    columns, so that the shape [(0, c)] is represented. *)
Inductive ndarray (A : Type) : Type :=
| Arr0 (a : A)
| Arr1 (v : list A)
| Arr2 (ncols : nat) (rows : list (list A)).

Arguments Arr0 {A} a.
Arguments Arr1 {A} v.
Arguments Arr2 {A} ncols rows.

Definition shape {A : Type} (t : ndarray A) : list nat :=
  match t with
  | Arr0 _ => []
  | Arr1 v => [length v]
  | Arr2 c rows => [length rows; c]
  end.

(** Every row of a matrix has the declared number of columns. *)
Definition well_formed {A : Type} (t : ndarray A) : Prop :=
  match t with
  | Arr2 c rows => Forall (fun r => length r = c) rows
  | _ => True
  end.

(** All elements of the array satisfy [P]. *)
Definition all_elems {A : Type} (P : A -> Prop) (t : ndarray A) : Prop :=
  match t with
  | Arr0 a => P a
  | Arr1 v => Forall P v
  | Arr2 _ rows => Forall (Forall P) rows
  end.

(** An elementwise unary operation. *)
Definition amap {A B : Type} (f : A -> B) (t : ndarray A) : ndarray B :=
  match t with
  | Arr0 a => Arr0 (f a)
  | Arr1 v => Arr1 (map f v)
  | Arr2 c rows => Arr2 c (map (map f) rows)
  end.

Fixpoint zip_with {A B C : Type} (f : A -> B -> C) (u : list A) (v : list B)
  : list C :=
  match u, v with
  | a :: u', b :: v' => f a b :: zip_with f u' v'
  | _, _ => []
  end.

(** Broadcasting of two axis lengths: equal, or one of them is 1. *)
Definition broadcast_dim (m n : nat) : option nat :=
  if Nat.eqb m n then Some m
  else if Nat.eqb m 1 then Some n
  else if Nat.eqb n 1 then Some m
  else None.

(** Broadcasting along one axis. *)
Definition broadcast1 {A B C : Type} (f : A -> B -> C)
  (u : list A) (v : list B) : option (list C) :=
  if Nat.eqb (length u) (length v) then Some (zip_with f u v)
  else match u, v with
       | [a], _ => Some (map (f a) v)
       | _, [b] => Some (map (fun a => f a b) u)
       | _, _ => None
       end.

(** An elementwise binary operation with numpy's broadcasting: shapes are
    aligned at their last axis; [None] is the [ValueError] of operands
    that cannot be broadcast together. *)
Definition amap2 {A B C : Type} (f : A -> B -> C)
  (x : ndarray A) (y : ndarray B) : option (ndarray C) :=
  match x, y with
  | Arr0 a, _ => Some (amap (f a) y)
  | _, Arr0 b => Some (amap (fun a => f a b) x)
  | Arr1 u, Arr1 v => r <- broadcast1 f u v ;; Some (Arr1 r)
  | Arr2 c rows, Arr1 v =>
      c' <- broadcast_dim c (length v) ;;
      rs <- sequence (map (fun r => broadcast1 f r v) rows) ;;
      Some (Arr2 c' rs)
  | Arr1 u, Arr2 c rows =>
      c' <- broadcast_dim (length u) c ;;
      rs <- sequence (map (fun r => broadcast1 f u r) rows) ;;
      Some (Arr2 c' rs)
  | Arr2 c1 rows1, Arr2 c2 rows2 =>
      c' <- broadcast_dim c1 c2 ;;
      rs <- broadcast1 (broadcast1 f) rows1 rows2 ;;
      rs' <- sequence rs ;;
      Some (Arr2 c' rs')
  end.

(** [t[start:stop]]: a slice of the first axis.  A 0-dimensional array
    cannot be indexed ([IndexError]). *)
Definition slice_first {A : Type} (t : ndarray A) (start stop : Z)
  : option (ndarray A) :=
  match t with
  | Arr0 _ => None
  | Arr1 v => Some (Arr1 (py_slice v start stop))
  | Arr2 c rows => Some (Arr2 c (py_slice rows start stop))
  end.

(** [t[:, start:stop]]: a slice of the second axis; one index too many
    for an array of rank below two ([IndexError]). *)
Definition slice_second {A : Type} (t : ndarray A) (start stop : Z)
  : option (ndarray A) :=
  match t with
  | Arr2 c rows =>
      let c' := length (py_slice (repeat tt c) start stop) in
      Some (Arr2 c' (map (fun r => py_slice r start stop) rows))
  | _ => None
  end.

(** [t.shape[0]] and [t.shape[-1]]: [IndexError] on a 0-dimensional
    array. *)
Definition shape_first {A : Type} (t : ndarray A) : option Z :=
  match shape t with
  | n :: _ => Some (Z.of_nat n)
  | [] => None
  end.

Definition shape_last {A : Type} (t : ndarray A) : option Z :=
  match rev (shape t) with
  | n :: _ => Some (Z.of_nat n)
  | [] => None
  end.

(** What [amap2] computes on two well-formed arrays of one shape (and on
    the broadcasts of a scalar or of a row vector of matching length). *)
Definition azip_with {A B C : Type} (f : A -> B -> C)
  (x : ndarray A) (y : ndarray B) : ndarray C :=
  match x, y with
  | Arr0 a, Arr0 b => Arr0 (f a b)
  | Arr1 u, Arr1 v => Arr1 (zip_with f u v)
  | Arr2 c rows1, Arr2 _ rows2 => Arr2 c (zip_with (zip_with f) rows1 rows2)
  | Arr0 a, _ => amap (f a) y
  | _, Arr0 b => amap (fun a => f a b) x
  | Arr1 u, Arr2 c rows => Arr2 c (map (zip_with f u) rows)
  | Arr2 c rows, Arr1 v => Arr2 c (map (fun r => zip_with f r v) rows)
  end.

(* ================================================================== *)
(** * The 4-bit packing codec                                          *)
(* ================================================================== *)

(** The value of the low 8 bits read as a signed byte: [astype("int8")]
    on an integer array. *)
Definition wrap_int8 (z : Z) : Z := (z + 128) mod 256 - 128.

(** The value of the low 8 bits: [astype("uint8")] on an integer array. *)
Definition wrap_uint8 (z : Z) : Z := z mod 256.

(** [merge_int4(x, y)]:
<<
    int4_high = x << 4
    int4_low = y & 0x0F
    final = int4_high | int4_low
    return final.astype("int8")
>> *)
Definition merge_int4 (x y : ndarray Z) : option (ndarray Z) :=
  let int4_high := amap (fun a => Z.shiftl a 4) x in
  let int4_low := amap (fun b => Z.land b 15) y in
  final <- amap2 Z.lor int4_high int4_low ;;
  Some (amap wrap_int8 final).

(** [split_int8(final)]:
<<
    int4_high = final >> 4
    int4_low = final & 0x0F
    int4_high = np.where(int4_high > 8, int4_high - 16, int4_high)
    return paddle.Tensor(int4_high), paddle.Tensor(int4_low)
>> *)
Definition split_int8 (final : ndarray Z) : ndarray Z * ndarray Z :=
  let int4_high := amap (fun b => Z.shiftr b 4) final in
  let int4_low := amap (fun b => Z.land b 15) final in
  let int4_high := amap (fun h => if 8 <? h then h - 16 else h) int4_high in
  (int4_high, int4_low).

(* ================================================================== *)
(** * Floating-point elements                                          *)
(* ================================================================== *)

(** The floating-point dtypes of numpy arrays: IEEE-754 binary16,
    binary32 and binary64. *)
Inductive float_dtype : Type := float16 | float32 | float64.

(** Bits of the significand, the implicit one included. *)
Definition prec_of (dt : float_dtype) : Z :=
  match dt with float16 => 11 | float32 => 24 | float64 => 53 end.

(** The exponent of the infinities. *)
Definition emax_of (dt : float_dtype) : Z :=
  match dt with float16 => 16 | float32 => 128 | float64 => 1024 end.

Definition is_nan (x : spec_float) : bool :=
  match x with S754_nan => true | _ => false end.

(** The value of a zero or finite float: the integer [n] and the exponent
    [e] of [n * 2^e]. *)
Definition Fnum (x : spec_float) : option (Z * Z) :=
  match x with
  | S754_zero _ => Some (0, 0)
  | S754_finite s m e => Some (cond_Zopp s (Zpos m), e)
  | _ => None
  end.

(** Comparison of [n1 * 2^e1] with [n2 * 2^e2]. *)
Definition Zcompare_scaled (n1 e1 n2 e2 : Z) : comparison :=
  let e := Z.min e1 e2 in
  (n1 * 2 ^ (e1 - e)) ?= (n2 * 2 ^ (e2 - e)).

(** The IEEE-754 comparison: by value, the two zeros equal, unordered
    ([None]) as soon as one operand is NaN.  It is written on the values
    rather than on the encodings, so that it is meaningful for every
    [spec_float]; on canonical floats it is the library's [SFcompare]
    (lemma [Fcompare_SFcompare]). *)
Definition Fcompare (x y : spec_float) : option comparison :=
  match x, y with
  | S754_nan, _ | _, S754_nan => None
  | S754_infinity s1, S754_infinity s2 =>
      Some (match s1, s2 with
            | true, false => Lt
            | false, true => Gt
            | _, _ => Eq
            end)
  | S754_infinity s, _ => Some (if s then Lt else Gt)
  | _, S754_infinity s => Some (if s then Gt else Lt)
  | _, _ =>
      match Fnum x, Fnum y with
      | Some (n1, e1), Some (n2, e2) => Some (Zcompare_scaled n1 e1 n2 e2)
      | _, _ => None
      end
  end.

(** [x == y], [x < y], [x <= y], [x > y], [x >= y] *)
Definition Feqb (x y : spec_float) : bool :=
  match Fcompare x y with Some Eq => true | _ => false end.

Definition Fltb (x y : spec_float) : bool :=
  match Fcompare x y with Some Lt => true | _ => false end.

Definition Fleb (x y : spec_float) : bool :=
  match Fcompare x y with Some (Lt | Eq) => true | _ => false end.

Definition Fgtb (x y : spec_float) : bool := Fltb y x.

Definition Fgeb (x y : spec_float) : bool := Fleb y x.

(** [np.maximum] and [np.minimum] as the reductions [np.max] and [np.min]
    apply them: a NaN on either side is the result. *)
Definition fmaximum (a b : spec_float) : spec_float :=
  if Fgeb a b || is_nan a then a else b.

Definition fminimum (a b : spec_float) : spec_float :=
  if Fleb a b || is_nan a then a else b.

(** [np.clip(x, lo, hi)] on one element: [min(max(x, lo), hi)], a NaN in
    [x] kept. *)
Definition fclip (x lo hi : spec_float) : spec_float :=
  let t := if is_nan x then x else if Fgtb x lo then x else lo in
  if is_nan t then t else if Fltb t hi then t else hi.

(** The integer part of a float, rounded toward zero, as the C conversion
    to an integer type computes it.  C defines the conversion for the
    values that fit the integer type only.  For a finite value that does
    not fit, the casts below keep the low bits of the integer part, as
    the hardware does for the values of a 32-bit integer.  For a NaN,
    numpy stores a zero byte on x86-64 and on AArch64; the model takes
    zero, the x86-64 result, for an infinity as well. *)
Definition Ftrunc (x : spec_float) : Z :=
  match x with
  | S754_finite s m e =>
      cond_Zopp s (if 0 <=? e then Zpos m * 2 ^ e else Zpos m / 2 ^ (- e))
  | _ => 0
  end.

(** [x] is the integer [z], exactly. *)
Definition Fexact (x : spec_float) (z : Z) : bool :=
  match Fnum x with
  | Some (n, e) => if 0 <=? e then n * 2 ^ e =? z else n =? z * 2 ^ (- e)
  | None => false
  end.

(** [.astype(np.int8)] and [.astype(np.uint8)] on a float array. *)
Definition astype_int8 (x : spec_float) : Z := wrap_int8 (Ftrunc x).

Definition astype_uint8 (x : spec_float) : Z := wrap_uint8 (Ftrunc x).

Section FloatDtype.

Variable dt : float_dtype.

Definition fdiv : spec_float -> spec_float -> spec_float :=
  SFdiv (prec_of dt) (emax_of dt).

Definition fmul : spec_float -> spec_float -> spec_float :=
  SFmul (prec_of dt) (emax_of dt).

Definition fsub : spec_float -> spec_float -> spec_float :=
  SFsub (prec_of dt) (emax_of dt).

(** A Python integer as an element of the dtype (the nearest float). *)
Definition of_int (z : Z) : spec_float :=
  binary_normalize (prec_of dt) (emax_of dt) z 0 false.

(** A double as an element of the dtype (the nearest float). *)
Definition of_double (x : spec_float) : spec_float :=
  match x with
  | S754_finite s m e => binary_round (prec_of dt) (emax_of dt) s m e
  | _ => x
  end.

(** [np.round] with no decimals, that is [np.rint]: the nearest integer,
    ties to the even one; zeros, infinities and NaN are kept, and so is
    the sign of a value that rounds to zero. *)
Definition frint (x : spec_float) : spec_float :=
  match x with
  | S754_finite s m e =>
      if 0 <=? e then x
      else
        let q := Zpos m / 2 ^ (- e) in
        let r := Zpos m mod 2 ^ (- e) in
        let half := 2 ^ (- e - 1) in
        let n := if r <? half then q
                 else if half <? r then q + 1
                 else if Z.even q then q else q + 1 in
        if n =? 0 then S754_zero s else of_int (cond_Zopp s n)
  | _ => x
  end.

(** The largest finite float of the dtype. *)
Definition fmax_float : spec_float :=
  S754_finite false (Z.to_pos (2 ^ prec_of dt - 1)) (emax_of dt - prec_of dt).

(** [np.nan_to_num]: NaN becomes zero, the infinities the largest finite
    floats. *)
Definition nan_to_num (x : spec_float) : spec_float :=
  match x with
  | S754_nan => S754_zero false
  | S754_infinity s => if s then SFopp fmax_float else fmax_float
  | _ => x
  end.

End FloatDtype.

(** The Python float [1e-8]: the double nearest to 1 / 10^8. *)
Definition py_1e_8 : spec_float :=
  fdiv float64 (of_int float64 1) (of_int float64 100000000).

(** [np.array(1e-8, dtype=inputs.dtype)] *)
Definition eps_of (dt : float_dtype) : spec_float := of_double dt py_1e_8.

(* ================================================================== *)
(** * Channel statistics                                               *)
(* ================================================================== *)

(** A reduction along one axis; numpy refuses an axis of length zero for
    a reduction without identity ([ValueError]). *)
Definition reduce1 {A : Type} (f : A -> A -> A) (l : list A) : option A :=
  match l with
  | [] => None
  | a :: l' => Some (fold_left f l' a)
  end.

(** The reduction of a stack of rows to one row, column by column. *)
Definition reduce_rows {A : Type} (f : A -> A -> A) (rows : list (list A))
  : option (list A) :=
  reduce1 (zip_with f) rows.

(** [np.max(t, axis=reduce_axis)] (or [np.min]) with
    [reduce_axis = tuple(i for i in range(len(t.shape)) if i != quant_axis)]:
    every axis but [quant_axis] is reduced. *)
Definition reduce_except {A : Type} (f : A -> A -> A) (quant_axis : Z)
  (t : ndarray A) : option (ndarray A) :=
  match t with
  | Arr0 a => Some (Arr0 a)
  | Arr1 v =>
      if quant_axis =? 0 then Some (Arr1 v)
      else a <- reduce1 f v ;; Some (Arr0 a)
  | Arr2 c rows =>
      if quant_axis =? 0 then
        if Nat.eqb c 0 then None
        else rs <- sequence (map (reduce1 f) rows) ;; Some (Arr1 rs)
      else if quant_axis =? 1 then
        r <- reduce_rows f rows ;; Some (Arr1 r)
      else
        if Nat.eqb c 0 then None
        else a <- reduce1 f (concat rows) ;; Some (Arr0 a)
  end.

Section Quantize.

Variable dt : float_dtype.

(** [np.where(v == np.array(0, dtype), np.array(eps, dtype), v)] *)
Definition guard_zero (v : spec_float) : spec_float :=
  if Feqb v (of_int dt 0) then eps_of dt else v.

(** [cal_abs_max_channel(inputs, quant_axis=1)]:
<<
    epsilon = 1e-8
    reduce_axis = tuple([i for i in range(len(inputs.shape)) if i != quant_axis])
    abs_max_values = np.max(np.abs(inputs), axis=reduce_axis)
    abs_max_values = np.where(
        abs_max_values == np.array(0, dtype=inputs.dtype),
        np.array(epsilon, dtype=inputs.dtype), abs_max_values)
    return abs_max_values
>> *)
Definition cal_abs_max_channel (inputs : ndarray spec_float) (quant_axis : Z)
  : option (ndarray spec_float) :=
  abs_max_values <- reduce_except fmaximum quant_axis (amap SFabs inputs) ;;
  Some (amap guard_zero abs_max_values).

(** [cal_abs_min_max_channel(inputs, quant_axis=1)]:
<<
    eps = 1e-8
    reduce_axis = tuple([i for i in range(len(inputs.shape)) if i != quant_axis])
    abs_max_values = np.max(inputs, axis=reduce_axis)
    abs_min_values = np.min(inputs, axis=reduce_axis)
    abs_max_values = np.where(abs_max_values == np.array(0, dtype=inputs.dtype),
                              np.array(eps, dtype=inputs.dtype), abs_max_values)
    abs_min_values = np.where(abs_min_values == np.array(0, dtype=inputs.dtype),
                              np.array(eps, dtype=inputs.dtype), abs_min_values)
    return abs_max_values, abs_min_values
>> *)
Definition cal_abs_min_max_channel (inputs : ndarray spec_float) (quant_axis : Z)
  : option (ndarray spec_float * ndarray spec_float) :=
  abs_max_values <- reduce_except fmaximum quant_axis inputs ;;
  abs_min_values <- reduce_except fminimum quant_axis inputs ;;
  Some (amap guard_zero abs_max_values, amap guard_zero abs_min_values).

(* ================================================================== *)
(** * Channel-wise quantization                                        *)
(* ================================================================== *)

(** [round(x / scale * bnt)] clipped to [[lo, hi]], on one element [xv]
    with its scale [sv]. *)
Definition quantize_elem (bnt lo hi : Z) (xv sv : spec_float) : spec_float :=
  fclip (frint dt (fmul dt (fdiv dt xv sv) (of_int dt bnt)))
    (of_int dt lo) (of_int dt hi).

(** [qdq_weight(x, quant_bit, quant_axis, scales, dequant=False)]:
<<
    if scales is None:
        scales = cal_abs_max_channel(x)
    bnt = (1 << (quant_bit - 1)) - 1
    quant_x = np.clip(np.round(x / scales * bnt), -bnt - 1, bnt)
    return quant_x.astype(np.int8), scales
>>
    [quant_axis] is a parameter of the function; its body does not
    mention it, and the statistics are taken with the default axis 1 of
    [cal_abs_max_channel]. *)
Definition qdq_weight_quant (x : ndarray spec_float) (quant_bit quant_axis : Z)
  (scales : option (ndarray spec_float))
  : option (ndarray Z * ndarray spec_float) :=
  scales <- match scales with
            | None => cal_abs_max_channel x 1
            | Some s => Some s
            end ;;
  sh <- py_lshift 1 (quant_bit - 1) ;;
  let bnt := sh - 1 in
  t <- amap2 (fdiv dt) x scales ;;
  let t := amap (fun v => fmul dt v (of_int dt bnt)) t in
  let quant_x :=
    amap (fun v => fclip (frint dt v) (of_int dt (- bnt - 1)) (of_int dt bnt)) t in
  Some (amap astype_int8 quant_x, scales).

(** [asymmetry_qdq_weight(x, quant_bit, quant_axis, mins, maxs, dequant=False)]:
<<
    if mins is None:
        maxs, mins = cal_abs_min_max_channel(x)
    bnt = (1 << (quant_bit)) - 1
    scales = maxs - mins
    quant_x = np.clip(np.round((x - mins) / scales * bnt), 0, bnt)
    return quant_x.astype(np.uint8), mins, maxs
>>
    A [maxs] left at [None] beside a given [mins] is a [TypeError] at the
    subtraction. *)
Definition asymmetry_qdq_weight_quant (x : ndarray spec_float)
  (quant_bit quant_axis : Z) (mins maxs : option (ndarray spec_float))
  : option (ndarray Z * ndarray spec_float * ndarray spec_float) :=
  mm <- match mins with
        | None => cal_abs_min_max_channel x 1
        | Some mi => ma <- maxs ;; Some (ma, mi)
        end ;;
  let '(maxs, mins) := mm in
  sh <- py_lshift 1 quant_bit ;;
  let bnt := sh - 1 in
  scales <- amap2 (fsub dt) maxs mins ;;
  t <- amap2 (fsub dt) x mins ;;
  t <- amap2 (fdiv dt) t scales ;;
  let t := amap (fun v => fmul dt v (of_int dt bnt)) t in
  let quant_x :=
    amap (fun v => fclip (frint dt v) (of_int dt 0) (of_int dt bnt)) t in
  Some (amap astype_uint8 quant_x, mins, maxs).

(* ================================================================== *)
(** * Group-wise quantization                                          *)
(* ================================================================== *)

(** [k] consecutive chunks of [size] elements. *)
Fixpoint chunk {A : Type} (k size : nat) (l : list A) : list (list A) :=
  match k with
  | O => []
  | S k' => firstn size l :: chunk k' size (skipn size l)
  end.

(** The rows of group [g] when the groups have [n] rows each. *)
Definition group_rows {A : Type} (g n : nat) (rows : list A) : list A :=
  firstn n (skipn (g * n) rows).

(** [inputs.reshape([g, group_size, c])] of a matrix of [c] columns, as the
    list of its [g] groups of [group_size] rows.  The size must be kept
    ([ValueError]); with no column every shape has the size 0. *)
Definition reshape_groups {A : Type} (c : nat) (rows : list (list A))
  (g group_size : nat) : option (list (list (list A))) :=
  if Nat.eqb (g * group_size) (length rows) then Some (chunk g group_size rows)
  else if Nat.eqb c 0 then Some (chunk g group_size (repeat [] (g * group_size)))
  else None.

(** [np.repeat(t, repeats, axis=0)]: every entry of the first axis,
    [repeats] times in a row; a negative count is a [ValueError].  A
    0-dimensional array is taken as an array of one element. *)
Definition repeat_axis0 {A : Type} (t : ndarray A) (repeats : Z)
  : option (ndarray A) :=
  if repeats <? 0 then None
  else
    let n := Z.to_nat repeats in
    Some match t with
         | Arr0 a => Arr1 (repeat a n)
         | Arr1 v => Arr1 (flat_map (fun a => repeat a n) v)
         | Arr2 c rows => Arr2 c (flat_map (fun r => repeat r n) rows)
         end.

(** [np.max(inputs_processed, axis=1)] on the groups: one row of
    statistics per group. *)
Definition reduce_groups {A : Type} (f : A -> A -> A)
  (groups : list (list (list A))) : option (list (list A)) :=
  sequence (map (reduce_rows f) groups).

(** The head of [group_wise_quant_dequant] when [quant] is true:
<<
    qmax = (1 << (quant_bits)) - 1
    qmin = 0
    shape = inputs.shape
    inputs_processed = inputs.reshape([shape[0] // group_size, group_size, shape[1]])
>>
    [inputs] must have two axes; a [group_size] that is not positive is
    refused by the division or by the reshape. *)
Definition group_inputs (inputs : ndarray spec_float) (group_size : Z)
  : option (nat * list (list (list spec_float))) :=
  match inputs with
  | Arr2 c rows =>
      g <- py_floordiv (Z.of_nat (length rows)) group_size ;;
      if group_size <=? 0 then None
      else
        groups <- reshape_groups c rows (Z.to_nat g) (Z.to_nat group_size) ;;
        Some (c, groups)
  | _ => None
  end.

(** [group_wise_quant_dequant(inputs, quant_bits, group_size, quant=True,
    symmetry=True)]:
<<
    bnt = (1 << (quant_bits - 1)) - 1
    scales = np.max(np.abs(inputs_processed), axis=1)
    new_scales = np.repeat(scales, repeats=group_size, axis=0)
    quant_tensor = np.clip(np.round(inputs / new_scales * bnt), -bnt - 1, bnt)
    return quant_tensor.astype("int8"), scales
>> *)
Definition group_wise_quant_symmetry (inputs : ndarray spec_float)
  (quant_bits group_size : Z) : option (ndarray Z * ndarray spec_float) :=
  sh <- py_lshift 1 quant_bits ;;
  let qmax := sh - 1 in
  cg <- group_inputs inputs group_size ;;
  let '(c, inputs_processed) := cg in
  sh <- py_lshift 1 (quant_bits - 1) ;;
  let bnt := sh - 1 in
  scales <- reduce_groups fmaximum (map (map (map SFabs)) inputs_processed) ;;
  let scales := Arr2 c scales in
  new_scales <- repeat_axis0 scales group_size ;;
  t <- amap2 (fdiv dt) inputs new_scales ;;
  let t := amap (fun v => fmul dt v (of_int dt bnt)) t in
  let quant_tensor :=
    amap (fun v => fclip (frint dt v) (of_int dt (- bnt - 1)) (of_int dt bnt)) t in
  Some (amap astype_int8 quant_tensor, scales).

(** [group_wise_quant_dequant(inputs, quant_bits, group_size, quant=True,
    symmetry=False)]:
<<
    maxs = np.max(inputs_processed, axis=1)
    mins = np.min(inputs_processed, axis=1)
    scales = maxs - mins
    new_scales = np.repeat(scales, repeats=group_size, axis=0)
    new_mins = np.repeat(mins, repeats=group_size, axis=0)
    # add eps to avoid devide zero
    quant_tensor = np.clip(np.round((inputs - new_mins) / (new_scales) * qmax), qmin, qmax)
    quant_tensor = np.nan_to_num(quant_tensor)
    return quant_tensor.astype("uint8"), mins, maxs
>> *)
Definition group_wise_quant_asymmetry (inputs : ndarray spec_float)
  (quant_bits group_size : Z)
  : option (ndarray Z * ndarray spec_float * ndarray spec_float) :=
  sh <- py_lshift 1 quant_bits ;;
  let qmax := sh - 1 in
  let qmin := 0 in
  cg <- group_inputs inputs group_size ;;
  let '(c, inputs_processed) := cg in
  maxs <- reduce_groups fmaximum inputs_processed ;;
  mins <- reduce_groups fminimum inputs_processed ;;
  let maxs := Arr2 c maxs in
  let mins := Arr2 c mins in
  scales <- amap2 (fsub dt) maxs mins ;;
  new_scales <- repeat_axis0 scales group_size ;;
  new_mins <- repeat_axis0 mins group_size ;;
  t <- amap2 (fsub dt) inputs new_mins ;;
  t <- amap2 (fdiv dt) t new_scales ;;
  let t := amap (fun v => fmul dt v (of_int dt qmax)) t in
  let quant_tensor :=
    amap (fun v => fclip (frint dt v) (of_int dt qmin) (of_int dt qmax)) t in
  let quant_tensor := amap (nan_to_num dt) quant_tensor in
  Some (amap astype_uint8 quant_tensor, mins, maxs).

End Quantize.

(* ================================================================== *)
(** * Dequantization                                                   *)
(* ================================================================== *)

(** The elementwise arithmetic of an array library on elements [E] (a
    value together with its dtype): true division by a Python integer,
    product, sum, difference, and the cast to float32.  The dequantize
    branches run on numpy or, with [use_pd], on paddle; each library
    brings its own arithmetic. *)
Record backend (E : Type) : Type := {
  truediv_int : E -> Z -> E;
  mul : E -> E -> E;
  add : E -> E -> E;
  sub : E -> E -> E;
  astype_float32 : E -> E
}.

Arguments truediv_int {E} _ _ _.
Arguments mul {E} _ _ _.
Arguments add {E} _ _ _.
Arguments sub {E} _ _ _.
Arguments astype_float32 {E} _ _.

(** [len(s.shape) == 0 or d.shape[-1] == s.shape[-1]]: the right operand
    of [or] is evaluated for an [s] with an axis only, and indexing the
    shape of a 0-dimensional [d] is an [IndexError]. *)
Definition rank0_or_same_last {A B : Type} (s : ndarray A) (d : ndarray B)
  : option bool :=
  if Nat.eqb (length (shape s)) 0 then Some true
  else
    dl <- shape_last d ;;
    sl <- shape_last s ;;
    Some (dl =? sl).

(** The bounds [r * n // d] and [(r + 1) * n // d] of a slice. *)
Definition block_bounds (r n d : Z) : option (Z * Z) :=
  lo <- py_floordiv (r * n) d ;;
  hi <- py_floordiv ((r + 1) * n) d ;;
  Some (lo, hi).

(** [t.unsqueeze(0)]: a new first axis of length 1.  Arrays of rank 3 are
    outside the model. *)
Definition unsqueeze0 {A : Type} (t : ndarray A) : option (ndarray A) :=
  match t with
  | Arr0 a => Some (Arr1 [a])
  | Arr1 v => Some (Arr2 (length v) [v])
  | Arr2 _ _ => None
  end.

(** One axis expanded to the length [n]: kept, or its single entry
    repeated. *)
Definition expand_axis {A : Type} (l : list A) (n : nat) : option (list A) :=
  if Nat.eqb (length l) n then Some l
  else match l with
       | [a] => Some (repeat a n)
       | _ => None
       end.

(** [t.expand(target)]: the axes of [t], aligned at the last one, are kept
    or expanded from length 1; [t] may not have more axes than
    [target]. *)
Definition expand {A : Type} (t : ndarray A) (target : list nat)
  : option (ndarray A) :=
  match t, target with
  | Arr0 a, [] => Some (Arr0 a)
  | Arr0 a, [n] => Some (Arr1 (repeat a n))
  | Arr0 a, [r; c] => Some (Arr2 c (repeat (repeat a c) r))
  | Arr1 v, [n] => v' <- expand_axis v n ;; Some (Arr1 v')
  | Arr1 v, [r; c] => v' <- expand_axis v c ;; Some (Arr2 c (repeat v' r))
  | Arr2 _ rows, [r; c] =>
      rows' <- sequence (map (fun row => expand_axis row c) rows) ;;
      rows'' <- expand_axis rows' r ;;
      Some (Arr2 c rows'')
  | _, _ => None
  end.

Section Dequantize.

Variable E : Type.

(** The arithmetic of numpy and of paddle. *)
Variable np pd : backend E.

(** [qdq_weight(x, quant_bit, quant_axis, scales, dequant=True, tp_rank,
    tp_degree, use_pd)], called with the [scales] of the quantization:
<<
    bnt = (1 << (quant_bit - 1)) - 1
    quant_x = x
    if not use_pd:
        if len(scales.shape) == 0 or quant_x.shape[-1] == scales.shape[-1]:
            # input tensor was row parallel in tp.
            qdq_x = quant_x / bnt * scales
        else:
            # input tensor was column parallel in tp.
            qdq_x = (
                quant_x / bnt
                * scales[tp_rank * scales.shape[0] // tp_degree
                         : (tp_rank + 1) * scales.shape[0] // tp_degree]
            )
        return qdq_x.astype(np.float32), scales
    else:
        if len(scales.shape) == 0 or quant_x.shape[-1] == scales.shape[-1]:
            qdq_x = quant_x / bnt * scales.unsqueeze(0).expand(quant_x.shape)
        else:
            qdq_x = (
                quant_x / bnt
                * scales[tp_rank * scales.shape[0] // tp_degree
                         : (tp_rank + 1) * scales.shape[0] // tp_degree]
                .unsqueeze(0).expand(quant_x.shape)
            )
        return qdq_x.astype(paddle.float32), scales
>> *)
Definition qdq_weight_dequant (x : ndarray E) (quant_bit quant_axis : Z)
  (scales : ndarray E) (tp_rank tp_degree : Z) (use_pd : bool)
  : option (ndarray E * ndarray E) :=
  sh <- py_lshift 1 (quant_bit - 1) ;;
  let bnt := sh - 1 in
  let quant_x := x in
  if negb use_pd then
    row <- rank0_or_same_last scales quant_x ;;
    if row then
      qdq_x <- amap2 (mul np) (amap (fun q => truediv_int np q bnt) quant_x) scales ;;
      Some (amap (astype_float32 np) qdq_x, scales)
    else
      n <- shape_first scales ;;
      b <- block_bounds tp_rank n tp_degree ;;
      s <- slice_first scales (fst b) (snd b) ;;
      qdq_x <- amap2 (mul np) (amap (fun q => truediv_int np q bnt) quant_x) s ;;
      Some (amap (astype_float32 np) qdq_x, scales)
  else
    row <- rank0_or_same_last scales quant_x ;;
    if row then
      s <- unsqueeze0 scales ;;
      s <- expand s (shape quant_x) ;;
      qdq_x <- amap2 (mul pd) (amap (fun q => truediv_int pd q bnt) quant_x) s ;;
      Some (amap (astype_float32 pd) qdq_x, scales)
    else
      n <- shape_first scales ;;
      b <- block_bounds tp_rank n tp_degree ;;
      s <- slice_first scales (fst b) (snd b) ;;
      s <- unsqueeze0 s ;;
      s <- expand s (shape quant_x) ;;
      qdq_x <- amap2 (mul pd) (amap (fun q => truediv_int pd q bnt) quant_x) s ;;
      Some (amap (astype_float32 pd) qdq_x, scales).

(** [asymmetry_qdq_weight(x, quant_bit, quant_axis, mins, maxs,
    dequant=True, tp_rank, tp_degree, use_pd)], called with the [mins] and
    [maxs] of the quantization:
<<
    bnt = (1 << (quant_bit)) - 1
    scales = maxs - mins
    quant_x = x
    if not use_pd:
        if len(scales.shape) == 0 or quant_x.shape[-1] == scales.shape[-1]:
            qdq_x = (quant_x / bnt * scales) + mins
        else:
            qdq_x = (
                quant_x / bnt
                * scales[tp_rank * scales.shape[0] // tp_degree
                         : (tp_rank + 1) * scales.shape[0] // tp_degree]
            ) + mins[tp_rank * mins.shape[0] // tp_degree
                     : (tp_rank + 1) * mins.shape[0] // tp_degree]
        return qdq_x.astype(np.float32), scales
    else:
        if len(scales.shape) == 0 or quant_x.shape[-1] == scales.shape[-1]:
            qdq_x = (quant_x / bnt * scales.unsqueeze(0).expand(quant_x.shape)) + mins
        else:
            qdq_x = (
                quant_x / bnt
                * scales[tp_rank * scales.shape[0] // tp_degree
                         : (tp_rank + 1) * scales.shape[0] // tp_degree]
                .unsqueeze(0).expand(quant_x.shape)
            ) + mins[tp_rank * mins.shape[0] // tp_degree
                     : (tp_rank + 1) * mins.shape[0] // tp_degree]
        return qdq_x.astype(paddle.float32), scales
>> *)
Definition asymmetry_qdq_weight_dequant (x : ndarray E)
  (quant_bit quant_axis : Z) (mins maxs : ndarray E)
  (tp_rank tp_degree : Z) (use_pd : bool)
  : option (ndarray E * ndarray E) :=
  sh <- py_lshift 1 quant_bit ;;
  let bnt := sh - 1 in
  let lib := if use_pd then pd else np in
  scales <- amap2 (sub lib) maxs mins ;;
  let quant_x := x in
  if negb use_pd then
    row <- rank0_or_same_last scales quant_x ;;
    if row then
      t <- amap2 (mul np) (amap (fun q => truediv_int np q bnt) quant_x) scales ;;
      qdq_x <- amap2 (add np) t mins ;;
      Some (amap (astype_float32 np) qdq_x, scales)
    else
      n <- shape_first scales ;;
      b <- block_bounds tp_rank n tp_degree ;;
      s <- slice_first scales (fst b) (snd b) ;;
      t <- amap2 (mul np) (amap (fun q => truediv_int np q bnt) quant_x) s ;;
      n' <- shape_first mins ;;
      b' <- block_bounds tp_rank n' tp_degree ;;
      m <- slice_first mins (fst b') (snd b') ;;
      qdq_x <- amap2 (add np) t m ;;
      Some (amap (astype_float32 np) qdq_x, scales)
  else
    row <- rank0_or_same_last scales quant_x ;;
    if row then
      s <- unsqueeze0 scales ;;
      s <- expand s (shape quant_x) ;;
      t <- amap2 (mul pd) (amap (fun q => truediv_int pd q bnt) quant_x) s ;;
      qdq_x <- amap2 (add pd) t mins ;;
      Some (amap (astype_float32 pd) qdq_x, scales)
    else
      n <- shape_first scales ;;
      b <- block_bounds tp_rank n tp_degree ;;
      s <- slice_first scales (fst b) (snd b) ;;
      s <- unsqueeze0 s ;;
      s <- expand s (shape quant_x) ;;
      t <- amap2 (mul pd) (amap (fun q => truediv_int pd q bnt) quant_x) s ;;
      n' <- shape_first mins ;;
      b' <- block_bounds tp_rank n' tp_degree ;;
      m <- slice_first mins (fst b') (snd b') ;;
      qdq_x <- amap2 (add pd) t m ;;
      Some (amap (astype_float32 pd) qdq_x, scales).

(** [group_wise_quant_dequant(inputs, mins, maxs, quant_bits, group_size,
    quant=False, tp_rank, tp_degree, use_pd, symmetry)].  With [symmetry]
    the scales are passed as [mins]:
<<
    qmax = (1 << (quant_bits)) - 1
    if symmetry:
        scales = mins
        bnt = (1 << (quant_bits - 1)) - 1
        if use_pd:
            new_scales = paddle.repeat_interleave(scales, group_size, 0)
        else:
            new_scales = np.repeat(scales, repeats=group_size, axis=0)
        if tp_rank == -1:
            dequant_tensor = inputs.astype("float32") * new_scales / bnt
        elif len(new_scales.shape) == 0 or inputs.shape[-1] == new_scales.shape[-1]:
            # input tensor was row parallel in tp.
            dequant_tensor = (
                inputs.astype("float32")
                * new_scales[tp_rank * new_scales.shape[0] // tp_degree
                             : (tp_rank + 1) * new_scales.shape[0] // tp_degree]
                / bnt)
        else:
            # input tensor was column parallel in tp.
            dequant_tensor = (
                inputs.astype("float32")
                * new_scales[:, tp_rank * new_scales.shape[-1] // tp_degree
                                : (tp_rank + 1) * new_scales.shape[-1] // tp_degree]
                / bnt)
        return dequant_tensor
>> *)
Definition group_wise_dequant_symmetry (inputs mins : ndarray E)
  (quant_bits group_size tp_rank tp_degree : Z) (use_pd : bool)
  : option (ndarray E) :=
  sh <- py_lshift 1 quant_bits ;;
  let qmax := sh - 1 in
  let lib := if use_pd then pd else np in
  let scales := mins in
  sh <- py_lshift 1 (quant_bits - 1) ;;
  let bnt := sh - 1 in
  new_scales <- repeat_axis0 scales group_size ;;
  if tp_rank =? -1 then
    t <- amap2 (mul lib) (amap (astype_float32 lib) inputs) new_scales ;;
    Some (amap (fun v => truediv_int lib v bnt) t)
  else
    row <- rank0_or_same_last new_scales inputs ;;
    if row then
      n <- shape_first new_scales ;;
      b <- block_bounds tp_rank n tp_degree ;;
      s <- slice_first new_scales (fst b) (snd b) ;;
      t <- amap2 (mul lib) (amap (astype_float32 lib) inputs) s ;;
      Some (amap (fun v => truediv_int lib v bnt) t)
    else
      n <- shape_last new_scales ;;
      b <- block_bounds tp_rank n tp_degree ;;
      s <- slice_second new_scales (fst b) (snd b) ;;
      t <- amap2 (mul lib) (amap (astype_float32 lib) inputs) s ;;
      Some (amap (fun v => truediv_int lib v bnt) t).

(** The asymmetric branch of the same function:
<<
    scales = maxs - mins
    if use_pd:
        new_scales = paddle.repeat_interleave(scales, group_size, 0)
        new_mins = paddle.repeat_interleave(mins, group_size, 0)
    else:
        new_scales = np.repeat(scales, repeats=group_size, axis=0)
        new_mins = np.repeat(mins, repeats=group_size, axis=0)
    if tp_rank == -1:
        dequant_tensor = (inputs.astype("float32") / qmax * new_scales) + new_mins
    elif len(new_scales.shape) == 0 or inputs.shape[-1] == new_scales.shape[-1]:
        # input tensor was row parallel in tp.
        dequant_tensor = (
            inputs.astype("float32") / qmax
            * new_scales[tp_rank * new_scales.shape[0] // tp_degree
                         : (tp_rank + 1) * new_scales.shape[0] // tp_degree]
        ) + new_mins[tp_rank * new_mins.shape[0] // tp_degree
                     : (tp_rank + 1) * new_mins.shape[0] // tp_degree]
    else:
        # input tensor was column parallel in tp.
        dequant_tensor = (
            inputs.astype("float32") / qmax
            * new_scales[:, tp_rank * new_scales.shape[-1] // tp_degree
                            : (tp_rank + 1) * new_scales.shape[-1] // tp_degree]
        ) + new_mins[:, tp_rank * new_mins.shape[-1] // tp_degree
                        : (tp_rank + 1) * new_mins.shape[-1] // tp_degree]
    return dequant_tensor
>> *)
Definition group_wise_dequant_asymmetry (inputs mins maxs : ndarray E)
  (quant_bits group_size tp_rank tp_degree : Z) (use_pd : bool)
  : option (ndarray E) :=
  sh <- py_lshift 1 quant_bits ;;
  let qmax := sh - 1 in
  let lib := if use_pd then pd else np in
  scales <- amap2 (sub lib) maxs mins ;;
  new_scales <- repeat_axis0 scales group_size ;;
  new_mins <- repeat_axis0 mins group_size ;;
  let scaled :=
    amap (fun v => truediv_int lib (astype_float32 lib v) qmax) inputs in
  if tp_rank =? -1 then
    t <- amap2 (mul lib) scaled new_scales ;;
    amap2 (add lib) t new_mins
  else
    row <- rank0_or_same_last new_scales inputs ;;
    if row then
      n <- shape_first new_scales ;;
      b <- block_bounds tp_rank n tp_degree ;;
      s <- slice_first new_scales (fst b) (snd b) ;;
      t <- amap2 (mul lib) scaled s ;;
      n' <- shape_first new_mins ;;
      b' <- block_bounds tp_rank n' tp_degree ;;
      m <- slice_first new_mins (fst b') (snd b') ;;
      amap2 (add lib) t m
    else
      n <- shape_last new_scales ;;
      b <- block_bounds tp_rank n tp_degree ;;
      s <- slice_second new_scales (fst b) (snd b) ;;
      t <- amap2 (mul lib) scaled s ;;
      n' <- shape_last new_mins ;;
      b' <- block_bounds tp_rank n' tp_degree ;;
      m <- slice_second new_mins (fst b') (snd b') ;;
      amap2 (add lib) t m.

End Dequantize.

(* ================================================================== *)
(** * The sub-range of the statistics a shard uses                     *)
(* ================================================================== *)

(** Block [tp_rank] of the [tp_degree] contiguous blocks of the first
    axis: [t[tp_rank * n // tp_degree : (tp_rank + 1) * n // tp_degree]]
    with [n = t.shape[0]]. *)
Definition first_axis_block {A : Type} (t : ndarray A) (tp_rank tp_degree : Z)
  : option (ndarray A) :=
  n <- shape_first t ;;
  b <- block_bounds tp_rank n tp_degree ;;
  slice_first t (fst b) (snd b).

(** The same block of the second axis of a matrix:
    [t[:, tp_rank * n // tp_degree : (tp_rank + 1) * n // tp_degree]]
    with [n = t.shape[-1]]. *)
Definition second_axis_block {A : Type} (t : ndarray A) (tp_rank tp_degree : Z)
  : option (ndarray A) :=
  n <- shape_last t ;;
  b <- block_bounds tp_rank n tp_degree ;;
  slice_second t (fst b) (snd b).

(** The block of the last axis, whichever it is. *)
Definition last_axis_block {A : Type} (t : ndarray A) (tp_rank tp_degree : Z)
  : option (ndarray A) :=
  match t with
  | Arr2 _ _ => second_axis_block t tp_rank tp_degree
  | _ => first_axis_block t tp_rank tp_degree
  end.

(** The Shard Slicer in the words of the specification (section 4.2):
    [S] unsliced for [tp_rank == -1]; the block of the first axis of [S]
    when [S] is scalar or the last dimensions of [D] and [S] agree; the
    block of the last axis of [S] otherwise. *)
Definition shard_slicer {A B : Type} (S : ndarray A) (D : ndarray B)
  (tp_rank tp_degree : Z) : option (ndarray A) :=
  if tp_rank =? -1 then Some S
  else
    row <- rank0_or_same_last S D ;;
    if row then first_axis_block S tp_rank tp_degree
    else last_axis_block S tp_rank tp_degree.

(** The sub-range of a statistic [t] that the group-wise dequantization
    uses; the test is made on the scales [S]. *)
Definition group_shard_by {A B : Type} (S : ndarray A) (D : ndarray B)
  (t : ndarray A) (tp_rank tp_degree : Z) : option (ndarray A) :=
  if tp_rank =? -1 then Some t
  else
    row <- rank0_or_same_last S D ;;
    if row then first_axis_block t tp_rank tp_degree
    else second_axis_block t tp_rank tp_degree.

(** The sub-range of a statistic [t] that the channel-wise dequantization
    uses; the test is made on the scales [S], and [tp_rank] is not
    compared with -1. *)
Definition channel_shard_by {A B : Type} (S : ndarray A) (D : ndarray B)
  (t : ndarray A) (tp_rank tp_degree : Z) : option (ndarray A) :=
  row <- rank0_or_same_last S D ;;
  if row then Some t else first_axis_block t tp_rank tp_degree.

Section DequantizeArithmetic.

Variable E : Type.
Variable np pd : backend E.

(** The arithmetic of the dequantizations on a sub-range [s] of the
    scales (and [m] of the minima) already selected. *)
Definition qdq_apply (use_pd : bool) (quant_x : ndarray E) (bnt : Z)
  (s : ndarray E) : option (ndarray E) :=
  if use_pd then
    s <- unsqueeze0 s ;;
    s <- expand s (shape quant_x) ;;
    qdq_x <- amap2 (mul pd) (amap (fun q => truediv_int pd q bnt) quant_x) s ;;
    Some (amap (astype_float32 pd) qdq_x)
  else
    qdq_x <- amap2 (mul np) (amap (fun q => truediv_int np q bnt) quant_x) s ;;
    Some (amap (astype_float32 np) qdq_x).

Definition asymmetry_apply (use_pd : bool) (quant_x : ndarray E) (bnt : Z)
  (s m : ndarray E) : option (ndarray E) :=
  if use_pd then
    s <- unsqueeze0 s ;;
    s <- expand s (shape quant_x) ;;
    t <- amap2 (mul pd) (amap (fun q => truediv_int pd q bnt) quant_x) s ;;
    qdq_x <- amap2 (add pd) t m ;;
    Some (amap (astype_float32 pd) qdq_x)
  else
    t <- amap2 (mul np) (amap (fun q => truediv_int np q bnt) quant_x) s ;;
    qdq_x <- amap2 (add np) t m ;;
    Some (amap (astype_float32 np) qdq_x).

Definition group_symmetry_apply (use_pd : bool) (inputs : ndarray E) (bnt : Z)
  (s : ndarray E) : option (ndarray E) :=
  let lib := if use_pd then pd else np in
  t <- amap2 (mul lib) (amap (astype_float32 lib) inputs) s ;;
  Some (amap (fun v => truediv_int lib v bnt) t).

Definition group_asymmetry_apply (use_pd : bool) (inputs : ndarray E)
  (qmax : Z) (s m : ndarray E) : option (ndarray E) :=
  let lib := if use_pd then pd else np in
  t <- amap2 (mul lib)
         (amap (fun v => truediv_int lib (astype_float32 lib v) qmax) inputs) s ;;
  amap2 (add lib) t m.

End DequantizeArithmetic.

(** A library that computes in the floating-point dtype [dt]. *)
Definition ieee_backend (dt : float_dtype) : backend spec_float := {|
  truediv_int := fun x n => fdiv dt x (of_int dt n);
  mul := fmul dt;
  add := SFadd (prec_of dt) (emax_of dt);
  sub := fsub dt;
  astype_float32 := of_double float32
|}.


(* ================================================================== *)
(** * The update ratio of Adam                                         *)
(* ================================================================== *)

(** [np.sqrt] and the sum of two elements of the dtype. *)
Definition fsqrt (dt : float_dtype) : spec_float -> spec_float :=
  SFsqrt (prec_of dt) (emax_of dt).

Definition fadd (dt : float_dtype) : spec_float -> spec_float -> spec_float :=
  SFadd (prec_of dt) (emax_of dt).

(** [cal_ratio(m, v, eps=1e-8)]:
<<
    return 1 / (np.sqrt(v) + eps)
>>
    on a float array [v]; the Python numbers [eps] and [1] take the dtype
    of the array, and [m] is not read. *)
Definition cal_ratio (dt : float_dtype) (m v : ndarray spec_float)
  (eps : spec_float) : ndarray spec_float :=
  amap (fun x => fdiv dt (of_int dt 1) (fadd dt (fsqrt dt x) (of_double dt eps))) v.

(* ================================================================== *)
(** * Lemmas on arrays                                                 *)
(* ================================================================== *)

Lemma all_elems_amap {A B : Type} (P : B -> Prop) (f : A -> B) (t : ndarray A) :
  all_elems P (amap f t) <-> all_elems (fun a => P (f a)) t.
Proof.
  destruct t as [a | v | c rows]; simpl.
  - tauto.
  - apply Forall_map.
  - rewrite Forall_map. induction rows as [| r rows IH].
    + split; constructor.
    + split; intro H; inversion H; subst; constructor;
        try (now apply Forall_map); now apply IH.
Qed.

Lemma all_elems_impl {A : Type} (P Q : A -> Prop) (t : ndarray A) :
  (forall a, P a -> Q a) -> all_elems P t -> all_elems Q t.
Proof.
  intro H. destruct t as [a | v | c rows]; simpl.
  - apply H.
  - apply Forall_impl, H.
  - apply Forall_impl. intro r. apply Forall_impl, H.
Qed.

Lemma all_elems_true {A : Type} (P : A -> Prop) (t : ndarray A) :
  (forall a, P a) -> all_elems P t.
Proof.
  intro H. destruct t as [a | v | c rows]; simpl; auto.
  - apply Forall_forall; auto.
  - apply Forall_forall. intros r _. apply Forall_forall; auto.
Qed.

Lemma amap_amap {A B C : Type} (g : B -> C) (f : A -> B) (t : ndarray A) :
  amap g (amap f t) = amap (fun a => g (f a)) t.
Proof.
  destruct t as [a | v | c rows]; simpl; f_equal.
  - apply map_map.
  - rewrite map_map. apply map_ext. intro r. apply map_map.
Qed.

Lemma amap_ext_all {A B : Type} (f g : A -> B) (t : ndarray A) :
  all_elems (fun a => f a = g a) t -> amap f t = amap g t.
Proof.
  destruct t as [a | v | c rows]; simpl; intro H; f_equal.
  - exact H.
  - apply map_ext_Forall, H.
  - apply map_ext_Forall. revert H. apply Forall_impl.
    intro r. apply map_ext_Forall.
Qed.


Lemma shape_amap {A B : Type} (f : A -> B) (t : ndarray A) :
  shape (amap f t) = shape t.
Proof. destruct t; simpl; now rewrite ?length_map. Qed.

Lemma well_formed_amap {A B : Type} (f : A -> B) (t : ndarray A) :
  well_formed t -> well_formed (amap f t).
Proof.
  destruct t as [a | v | c rows]; simpl; auto.
  intro H. apply Forall_map. revert H. apply Forall_impl.
  intros r Hr. now rewrite length_map.
Qed.

Lemma sequence_map_Some {A : Type} (l : list A) :
  sequence (map Some l) = Some l.
Proof.
  induction l as [| a l IH]; simpl; [reflexivity |].
  rewrite IH. reflexivity.
Qed.

Lemma zip_with_length {A B C : Type} (f : A -> B -> C) (u : list A) (v : list B) :
  length u = length v -> length (zip_with f u v) = length u.
Proof.
  revert v. induction u as [| a u IH]; intros [| b v] H; simpl in *;
    try discriminate; auto.
Qed.

Lemma zip_with_map {A A' B B' C : Type} (f : A' -> B' -> C)
  (g : A -> A') (h : B -> B') (u : list A) (v : list B) :
  zip_with f (map g u) (map h v) = zip_with (fun a b => f (g a) (h b)) u v.
Proof.
  revert v. induction u as [| a u IH]; intros [| b v]; simpl; auto.
  now rewrite IH.
Qed.

Lemma map_zip_with {A B C D : Type} (g : C -> D) (f : A -> B -> C)
  (u : list A) (v : list B) :
  map g (zip_with f u v) = zip_with (fun a b => g (f a b)) u v.
Proof.
  revert v. induction u as [| a u IH]; intros [| b v]; simpl; auto.
  now rewrite IH.
Qed.

(** Zipping with a function that returns its left (right) argument in
    disguise gives back the left (right) list. *)
Lemma zip_with_left {A B : Type} (P : A -> Prop) (Q : B -> Prop)
  (f : A -> B -> A) (u : list A) (v : list B) :
  (forall a b, P a -> Q b -> f a b = a) ->
  length u = length v -> Forall P u -> Forall Q v ->
  zip_with f u v = u.
Proof.
  intro Hf. revert v. induction u as [| a u IH]; intros [| b v] Hl Hu Hv;
    simpl in *; try discriminate; auto.
  inversion Hu; inversion Hv; subst. f_equal; auto.
Qed.

Lemma zip_with_right {A B C : Type} (P : A -> Prop) (Q : B -> Prop)
  (f : A -> B -> C) (k : B -> C) (u : list A) (v : list B) :
  (forall a b, P a -> Q b -> f a b = k b) ->
  length u = length v -> Forall P u -> Forall Q v ->
  zip_with f u v = map k v.
Proof.
  intro Hf. revert v. induction u as [| a u IH]; intros [| b v] Hl Hu Hv;
    simpl in *; try discriminate; auto.
  inversion Hu; inversion Hv; subst. f_equal; auto.
Qed.

Lemma broadcast1_same_length {A B C : Type} (f : A -> B -> C)
  (u : list A) (v : list B) :
  length u = length v -> broadcast1 f u v = Some (zip_with f u v).
Proof.
  intro H. unfold broadcast1. now rewrite H, Nat.eqb_refl.
Qed.

Lemma broadcast_dim_same (n : nat) : broadcast_dim n n = Some n.
Proof. unfold broadcast_dim. now rewrite Nat.eqb_refl. Qed.

Lemma Forall_conj {A : Type} (P Q : A -> Prop) (l : list A) :
  Forall P l -> Forall Q l -> Forall (fun a => P a /\ Q a) l.
Proof.
  induction 1; intro H'; inversion H'; subst; constructor; auto.
Qed.

(** The rows of two matrices of one shape, zipped. *)
Lemma sequence_zip_rows {A B C : Type} (f : A -> B -> C) (c : nat)
  (rows1 : list (list A)) (rows2 : list (list B)) :
  length rows1 = length rows2 ->
  Forall (fun r => length r = c) rows1 ->
  Forall (fun r => length r = c) rows2 ->
  sequence (zip_with (broadcast1 f) rows1 rows2)
  = Some (zip_with (zip_with f) rows1 rows2).
Proof.
  revert rows2. induction rows1 as [| r1 rows1 IH]; intros [| r2 rows2] Hl H1 H2;
    simpl in *; try discriminate; auto.
  inversion H1; inversion H2; subst.
  rewrite broadcast1_same_length by congruence. simpl.
  rewrite IH by (auto; congruence). reflexivity.
Qed.

Lemma amap2_same_shape {A B C : Type} (f : A -> B -> C)
  (x : ndarray A) (y : ndarray B) :
  shape x = shape y -> well_formed x -> well_formed y ->
  amap2 f x y = Some (azip_with f x y).
Proof.
  destruct x as [a | u | c1 rows1], y as [b | v | c2 rows2]; simpl;
    intros Hs Hx Hy; try discriminate; auto.
  - injection Hs as Hl. now rewrite broadcast1_same_length.
  - injection Hs as Hl Hc. subst c2. rewrite broadcast_dim_same. simpl.
    rewrite broadcast1_same_length by assumption. simpl.
    rewrite (sequence_zip_rows f c1) by assumption. reflexivity.
Qed.
Lemma broadcast1_ext {A B C : Type} (f f' : A -> B -> C) (u : list A) (v : list B) :
  (forall a b, f a b = f' a b) -> broadcast1 f u v = broadcast1 f' u v.
Proof.
  intro H. unfold broadcast1.
  assert (Hz : zip_with f u v = zip_with f' u v).
  { revert v. induction u as [| a u IH]; intros [| b v]; simpl; auto.
    now rewrite H, IH. }
  rewrite Hz.
  destruct (Nat.eqb (length u) (length v)); [reflexivity |].
  destruct u as [| a [| a' u]], v as [| b [| b' v]]; try reflexivity;
    f_equal; apply map_ext; intro; apply H.
Qed.

Lemma broadcast1_compose {A B C D : Type} (g : C -> D) (f : A -> B -> C)
  (u : list A) (v : list B) :
  broadcast1 (fun a b => g (f a b)) u v
  = (r <- broadcast1 f u v ;; Some (map g r)).
Proof.
  unfold broadcast1.
  destruct (Nat.eqb (length u) (length v)); cbn [bind].
  - now rewrite map_zip_with.
  - destruct u as [| a [| a' u]], v as [| b [| b' v]]; cbn [bind];
      try reflexivity; now rewrite map_map.
Qed.

Lemma sequence_map_compose {A B C : Type} (g : B -> C) (f : A -> option B)
  (l : list A) :
  sequence (map (fun a => r <- f a ;; Some (g r)) l)
  = (rs <- sequence (map f l) ;; Some (map g rs)).
Proof.
  induction l as [| a l IH]; cbn [map sequence bind]; [reflexivity |].
  destruct (f a) as [b |]; cbn [bind]; [| reflexivity].
  rewrite IH. destruct (sequence (map f l)); reflexivity.
Qed.

(** An elementwise operation applied to the result of a broadcast
    operation is one broadcast operation. *)
Lemma amap2_amap {A B C D : Type} (g : C -> D) (f : A -> B -> C)
  (x : ndarray A) (y : ndarray B) :
  (t <- amap2 f x y ;; Some (amap g t)) = amap2 (fun a b => g (f a b)) x y.
Proof.
  destruct x as [a | u | c1 rows1], y as [b | v | c2 rows2];
    cbn [amap2 bind]; rewrite ?amap_amap; try reflexivity.
  - rewrite broadcast1_compose. now destruct (broadcast1 f u v).
  - destruct (broadcast_dim (length u) c2); cbn [bind]; [| reflexivity].
    rewrite (map_ext _ _ (fun r => broadcast1_compose g f u r)).
    rewrite sequence_map_compose.
    now destruct (sequence (map (fun r => broadcast1 f u r) rows2)).
  - destruct (broadcast_dim c1 (length v)); cbn [bind]; [| reflexivity].
    rewrite (map_ext _ _ (fun r => broadcast1_compose g f r v)).
    rewrite sequence_map_compose.
    now destruct (sequence (map (fun r => broadcast1 f r v) rows1)).
  - destruct (broadcast_dim c1 c2); cbn [bind]; [| reflexivity].
    rewrite (broadcast1_ext _ _ rows1 rows2 (broadcast1_compose g f)).
    rewrite (broadcast1_compose (fun o => r <- o ;; Some (map g r))
               (broadcast1 f) rows1 rows2).
    destruct (broadcast1 (broadcast1 f) rows1 rows2) as [rs |]; cbn [bind];
      [| reflexivity].
    pose proof (sequence_map_compose (map g) (fun o => o) rs) as Hs.
    cbn beta in Hs. rewrite Hs, map_id.
    now destruct (sequence rs).
Qed.

(* ================================================================== *)
(** * Lemmas on floating-point elements                                *)
(* ================================================================== *)

Lemma pow2_pos (k : Z) : 0 <= k -> 0 < 2 ^ k.
Proof. intro H. apply Z.pow_pos_nonneg; lia. Qed.

(** Both sides of the comparison may be brought to any common scale. *)
Lemma Zcompare_scaled_shift (n1 e1 n2 e2 d : Z) :
  0 <= e1 + d -> 0 <= e2 + d ->
  Zcompare_scaled n1 e1 n2 e2 = (n1 * 2 ^ (e1 + d) ?= n2 * 2 ^ (e2 + d)).
Proof.
  intros H1 H2. unfold Zcompare_scaled.
  set (e := Z.min e1 e2).
  assert (He : 0 <= e + d) by (unfold e; lia).
  assert (He1 : 0 <= e1 - e) by (unfold e; lia).
  assert (He2 : 0 <= e2 - e) by (unfold e; lia).
  replace (e1 + d) with ((e1 - e) + (e + d)) by lia.
  replace (e2 + d) with ((e2 - e) + (e + d)) by lia.
  rewrite (Z.pow_add_r 2 (e1 - e) (e + d)), (Z.pow_add_r 2 (e2 - e) (e + d))
    by assumption.
  rewrite !Z.mul_assoc.
  apply Zmult_compare_compat_r. apply Z.lt_gt. now apply pow2_pos.
Qed.

Lemma Fexact_scaled (x : spec_float) (z n e d : Z) :
  Fexact x z = true -> Fnum x = Some (n, e) -> 0 <= d -> 0 <= e + d ->
  n * 2 ^ (e + d) = z * 2 ^ d.
Proof.
  unfold Fexact. intros H En Hd He. rewrite En in H.
  destruct (0 <=? e) eqn:E.
  - apply Z.leb_le in E. apply Z.eqb_eq in H. subst z.
    rewrite Z.pow_add_r by assumption. ring.
  - apply Z.leb_gt in E. apply Z.eqb_eq in H. subst n.
    replace d with ((- e) + (e + d)) at 2 by lia.
    rewrite (Z.pow_add_r 2 (- e)) by lia. ring.
Qed.

(** The truncation, computed at any scale fine enough. *)
Lemma Ftrunc_quot (x : spec_float) (n e d : Z) :
  Fnum x = Some (n, e) -> 0 <= d -> 0 <= e + d ->
  Ftrunc x = Z.quot (n * 2 ^ (e + d)) (2 ^ d).
Proof.
  destruct x as [s | s | | s m ex]; cbn [Fnum]; try discriminate.
  - intros [= <- <-] Hd _. cbn [Ftrunc]. rewrite Z.mul_0_l.
    symmetry. apply Z.quot_0_l. apply Z.pow_nonzero; lia.
  - intros [= <- <-] Hd He. cbn [Ftrunc].
    assert (Hp : 0 < 2 ^ d) by now apply pow2_pos.
    destruct (0 <=? ex) eqn:E.
    + apply Z.leb_le in E. rewrite Z.pow_add_r by assumption.
      rewrite Z.mul_assoc, Z.quot_mul by lia.
      destruct s; cbn [cond_Zopp]; ring.
    + apply Z.leb_gt in E.
      assert (Hq : 0 < 2 ^ (- ex)) by (apply pow2_pos; lia).
      assert (Hr : 0 < 2 ^ (ex + d)) by (apply pow2_pos; lia).
      replace (2 ^ d) with (2 ^ (- ex) * 2 ^ (ex + d))
        by (rewrite <- Z.pow_add_r by lia; f_equal; lia).
      rewrite Z.quot_mul_cancel_r by lia.
      destruct s; cbn [cond_Zopp].
      * change (Z.neg m) with (- Z.pos m).
        rewrite Z.quot_opp_l by lia. f_equal.
        symmetry. apply Z.quot_div_nonneg; lia.
      * symmetry. apply Z.quot_div_nonneg; lia.
Qed.

Lemma Ftrunc_exact (x : spec_float) (z : Z) : Fexact x z = true -> Ftrunc x = z.
Proof.
  intro H. pose proof H as H'. unfold Fexact in H'.
  destruct (Fnum x) as [[n e] |] eqn:E; [| discriminate].
  set (d := Z.abs e).
  rewrite (Ftrunc_quot x n e d E) by (unfold d; lia).
  rewrite (Fexact_scaled x z n e d H E) by (unfold d; lia).
  apply Z.quot_mul. apply Z.pow_nonzero; lia.
Qed.

(** A float that compares between two exact integers truncates to an
    integer between them. *)
Lemma Ftrunc_between (v lo hi : spec_float) (zlo zhi : Z) :
  Fexact lo zlo = true -> Fexact hi zhi = true ->
  Fltb lo v = true -> Fltb v hi = true ->
  zlo <= Ftrunc v <= zhi.
Proof.
  intros Hlo Hhi Hl Hh.
  pose proof Hlo as Hlo'. pose proof Hhi as Hhi'.
  unfold Fexact in Hlo', Hhi'.
  destruct (Fnum lo) as [[nl el] |] eqn:El; [| discriminate].
  destruct (Fnum hi) as [[nh eh] |] eqn:Eh; [| discriminate].
  assert (Ev : exists n e, Fnum v = Some (n, e)).
  { destruct v as [s | s | | s m e]; cbn [Fnum]; eauto; exfalso.
    - destruct s.
      + destruct lo; try discriminate El; discriminate Hl.
      + destruct hi; try discriminate Eh; discriminate Hh.
    - destruct lo; discriminate Hl. }
  destruct Ev as (n & e & Ev).
  set (d := Z.abs e + Z.abs el + Z.abs eh).
  assert (Hd : 0 <= d) by (unfold d; lia).
  assert (Hp : 0 < 2 ^ d) by now apply pow2_pos.
  assert (Cl : Fcompare lo v = Some (Zcompare_scaled nl el n e)).
  { destruct lo, v; cbn [Fnum] in *; try discriminate; cbn [Fcompare Fnum];
      congruence. }
  assert (Ch : Fcompare v hi = Some (Zcompare_scaled n e nh eh)).
  { destruct hi, v; cbn [Fnum] in *; try discriminate; cbn [Fcompare Fnum];
      congruence. }
  unfold Fltb in Hl, Hh. rewrite Cl in Hl. rewrite Ch in Hh.
  rewrite (Zcompare_scaled_shift _ _ _ _ d) in Hl by (unfold d; lia).
  rewrite (Zcompare_scaled_shift _ _ _ _ d) in Hh by (unfold d; lia).
  rewrite (Fexact_scaled lo zlo nl el d Hlo El) in Hl by (unfold d; lia).
  rewrite (Fexact_scaled hi zhi nh eh d Hhi Eh) in Hh by (unfold d; lia).
  rewrite (Ftrunc_quot v n e d Ev) by (unfold d; lia).
  set (V := n * 2 ^ (e + d)) in *.
  assert (Ll : zlo * 2 ^ d < V).
  { destruct (zlo * 2 ^ d ?= V) eqn:C; try discriminate.
    now apply Z.compare_lt_iff. }
  assert (Lh : V < zhi * 2 ^ d).
  { destruct (V ?= zhi * 2 ^ d) eqn:C; try discriminate.
    now apply Z.compare_lt_iff. }
  split.
  - rewrite <- (Z.quot_mul zlo (2 ^ d)) by lia.
    apply Z.quot_le_mono; lia.
  - rewrite <- (Z.quot_mul zhi (2 ^ d)) by lia.
    apply Z.quot_le_mono; lia.
Qed.

(** [np.clip] followed by the integer cast stays within the clip bounds;
    the NaN that [np.clip] lets through is cast to 0. *)
Lemma Ftrunc_fclip (v lo hi : spec_float) (zlo zhi : Z) :
  Fexact lo zlo = true -> Fexact hi zhi = true ->
  zlo <= 0 <= zhi ->
  zlo <= Ftrunc (fclip v lo hi) <= zhi.
Proof.
  intros Hlo Hhi Hz. unfold fclip.
  destruct (is_nan v) eqn:Nv.
  - rewrite Nv. destruct v; try discriminate. cbn [Ftrunc]. exact Hz.
  - assert (Nlo : is_nan lo = false).
    { destruct lo; try reflexivity. discriminate. }
    unfold Fgtb.
    destruct (Fltb lo v) eqn:Cl.
    + rewrite Nv. destruct (Fltb v hi) eqn:Ch.
      * now apply (Ftrunc_between v lo hi).
      * rewrite (Ftrunc_exact hi zhi Hhi). lia.
    + rewrite Nlo. destruct (Fltb lo hi) eqn:Ch.
      * rewrite (Ftrunc_exact lo zlo Hlo). lia.
      * rewrite (Ftrunc_exact hi zhi Hhi). lia.
Qed.

(* ================================================================== *)
(** * Groups of rows                                                   *)
(* ================================================================== *)

Lemma chunk_nth {A : Type} (k n g : nat) (l : list A) :
  (g < k)%nat -> nth_error (chunk k n l) g = Some (group_rows g n l).
Proof.
  unfold group_rows. revert g l.
  induction k as [| k IH]; intros g l Hg; [lia |].
  destruct g as [| g]; cbn [chunk nth_error].
  - reflexivity.
  - rewrite IH by lia. f_equal. f_equal.
    rewrite skipn_skipn. f_equal. lia.
Qed.

Lemma chunk_length {A : Type} (k n : nat) (l : list A) :
  length (chunk k n l) = k.
Proof.
  revert l. induction k as [| k IH]; intro l; cbn [chunk length]; auto.
Qed.

Lemma firstn_zip_with {A B C : Type} (f : A -> B -> C) (n : nat)
  (u : list A) (v : list B) :
  firstn n (zip_with f u v) = zip_with f (firstn n u) (firstn n v).
Proof.
  revert u v. induction n as [| n IH]; intros [| a u] [| b v];
    cbn [firstn zip_with]; auto.
  now rewrite IH.
Qed.

Lemma skipn_zip_with {A B C : Type} (f : A -> B -> C) (n : nat)
  (u : list A) (v : list B) :
  skipn n (zip_with f u v) = zip_with f (skipn n u) (skipn n v).
Proof.
  revert u v. induction n as [| n IH]; intros [| a u] [| b v];
    cbn [skipn zip_with]; auto.
  now destruct (skipn n u).
Qed.

Lemma group_rows_zip_with {A B C : Type} (f : A -> B -> C) (g n : nat)
  (u : list A) (v : list B) :
  group_rows g n (zip_with f u v)
  = zip_with f (group_rows g n u) (group_rows g n v).
Proof.
  unfold group_rows. now rewrite skipn_zip_with, firstn_zip_with.
Qed.

Lemma group_rows_map {A B : Type} (f : A -> B) (g n : nat) (l : list A) :
  group_rows g n (map f l) = map f (group_rows g n l).
Proof.
  unfold group_rows. now rewrite skipn_map, firstn_map.
Qed.

Lemma skipn_flat_map_repeat {A : Type} (n g : nat) (l : list A) :
  skipn (g * n) (flat_map (fun a => repeat a n) l)
  = flat_map (fun a => repeat a n) (skipn g l).
Proof.
  revert l. induction g as [| g IH]; intro l; [reflexivity |].
  destruct l as [| a l]; cbn [flat_map skipn].
  - now rewrite skipn_nil.
  - replace (S g * n)%nat with (length (repeat a n) + g * n)%nat
      by (rewrite repeat_length; lia).
    rewrite skipn_app.
    rewrite skipn_all2 by lia.
    replace (length (repeat a n) + g * n - length (repeat a n))%nat
      with (g * n)%nat by lia.
    cbn [app]. apply IH.
Qed.

(** The group [g] of the statistics repeated [n] times is the statistic
    of that group, [n] times. *)
Lemma group_rows_repeat {A : Type} (n g : nat) (l : list A) (a : A) :
  nth_error l g = Some a ->
  group_rows g n (flat_map (fun r => repeat r n) l) = repeat a n.
Proof.
  intro H. unfold group_rows. rewrite skipn_flat_map_repeat.
  apply nth_error_split in H. destruct H as (l1 & l2 & -> & <-).
  rewrite skipn_app, skipn_all2 by lia.
  rewrite Nat.sub_diag. cbn [skipn app flat_map].
  rewrite firstn_app, repeat_length, Nat.sub_diag.
  cbn [firstn]. rewrite app_nil_r.
  rewrite firstn_all2 by (rewrite repeat_length; lia). reflexivity.
Qed.

Lemma group_rows_length {A : Type} (g n : nat) (l : list A) :
  ((g + 1) * n <= length l)%nat -> length (group_rows g n l) = n.
Proof.
  intro H. unfold group_rows. rewrite length_firstn, length_skipn. lia.
Qed.

Lemma flat_map_repeat_length {A : Type} (n : nat) (l : list A) :
  length (flat_map (fun a => repeat a n) l) = (length l * n)%nat.
Proof.
  induction l as [| a l IH]; cbn [flat_map length]; [reflexivity |].
  rewrite length_app, repeat_length, IH. lia.
Qed.

Lemma sequence_length {A : Type} (l : list (option A)) (r : list A) :
  sequence l = Some r -> length r = length l.
Proof.
  revert r. induction l as [| o l IH]; intros r H; cbn [sequence bind] in H.
  - now injection H as <-.
  - destruct o as [a |]; cbn [bind] in H; [| discriminate].
    destruct (sequence l) as [r' |]; cbn [bind] in H; [| discriminate].
    injection H as <-. cbn [length]. now rewrite (IH r').
Qed.

Lemma sequence_nth {A : Type} (l : list (option A)) (r : list A) (g : nat)
  (o : option A) :
  sequence l = Some r -> nth_error l g = Some o ->
  exists a, o = Some a /\ nth_error r g = Some a.
Proof.
  revert r g. induction l as [| o' l IH]; intros r g H Hg.
  - destruct g; discriminate.
  - cbn [sequence bind] in H.
    destruct o' as [a' |]; cbn [bind] in H; [| discriminate].
    destruct (sequence l) as [r' |]; cbn [bind] in H; [| discriminate].
    injection H as <-. destruct g as [| g]; cbn [nth_error] in *.
    + injection Hg as <-. eauto.
    + eapply IH; eauto.
Qed.

Lemma sequence_Forall {A : Type} (P : A -> Prop) (l : list (option A))
  (r : list A) :
  sequence l = Some r ->
  Forall (fun o => forall a, o = Some a -> P a) l -> Forall P r.
Proof.
  revert r. induction l as [| o l IH]; intros r H HP; cbn [sequence bind] in H.
  - injection H as <-. constructor.
  - destruct o as [a |]; cbn [bind] in H; [| discriminate].
    destruct (sequence l) as [r' |]; cbn [bind] in H; [| discriminate].
    injection H as <-. inversion HP; subst. constructor; auto.
Qed.

(* ================================================================== *)
(** * Reductions over the rows of a group                              *)
(* ================================================================== *)

Lemma zip_with_nth {A B C : Type} (f : A -> B -> C) (u : list A) (v : list B)
  (j : nat) (a : A) (b : B) :
  nth_error u j = Some a -> nth_error v j = Some b ->
  nth_error (zip_with f u v) j = Some (f a b).
Proof.
  revert u v. induction j as [| j IH]; intros [| a' u] [| b' v] Ha Hb;
    cbn [nth_error zip_with] in *; try discriminate.
  - now injection Ha as ->; injection Hb as ->.
  - now apply IH.
Qed.

(** The reduction of rows that all hold [v] in column [j], by an
    operation that maps [(v, v)] to [v], holds [v] in column [j]. *)
Lemma reduce_rows_constant {A : Type} (f : A -> A -> A) (rows : list (list A))
  (r : list A) (j : nat) (v : A) :
  f v v = v -> rows <> [] ->
  Forall (fun row => nth_error row j = Some v) rows ->
  reduce_rows f rows = Some r -> nth_error r j = Some v.
Proof.
  intros Hf Hne Hall. unfold reduce_rows, reduce1.
  destruct rows as [| r0 rest]; [congruence |].
  intros [= <-]. apply Forall_cons_iff in Hall as [H0 Hrest]. clear Hne.
  revert r0 H0. induction Hrest as [| r1 rest H1 _ IH]; intros r0 H0;
    cbn [fold_left]; [assumption |].
  apply IH. rewrite (zip_with_nth f r0 r1 j v v) by assumption.
  now rewrite Hf.
Qed.

Lemma reduce_rows_length {A : Type} (f : A -> A -> A) (rows : list (list A))
  (r : list A) (c : nat) :
  Forall (fun row => length row = c) rows ->
  reduce_rows f rows = Some r -> length r = c.
Proof.
  intros Hall. unfold reduce_rows, reduce1.
  destruct rows as [| r0 rest]; [discriminate |].
  intros [= <-]. apply Forall_cons_iff in Hall as [H0 Hrest].
  revert r0 H0. induction Hrest as [| r1 rest H1 _ IH]; intros r0 H0;
    cbn [fold_left]; [assumption |].
  apply IH. rewrite zip_with_length; congruence.
Qed.

Lemma fmaximum_idem (v : spec_float) : fmaximum v v = v.
Proof. unfold fmaximum. now destruct (Fgeb v v || is_nan v). Qed.

Lemma fminimum_idem (v : spec_float) : fminimum v v = v.
Proof. unfold fminimum. now destruct (Fleb v v || is_nan v). Qed.

Lemma Forall_firstn {A : Type} (P : A -> Prop) (n : nat) (l : list A) :
  Forall P l -> Forall P (firstn n l).
Proof.
  intro H. rewrite <- (firstn_skipn n l) in H. now apply Forall_app in H.
Qed.

Lemma Forall_skipn {A : Type} (P : A -> Prop) (n : nat) (l : list A) :
  Forall P l -> Forall P (skipn n l).
Proof.
  intro H. rewrite <- (firstn_skipn n l) in H. now apply Forall_app in H.
Qed.

Lemma chunk_Forall {A : Type} (P : A -> Prop) (k n : nat) (l : list A) :
  Forall P l -> Forall (Forall P) (chunk k n l).
Proof.
  revert l. induction k as [| k IH]; intros l H; cbn [chunk]; constructor.
  - now apply Forall_firstn.
  - apply IH. now apply Forall_skipn.
Qed.

(** The statistics of the groups of a well-formed matrix: one row per
    group, of the width of the matrix, that holds [v] wherever the column
    of the group is constantly [v]. *)
Lemma reduce_groups_chunk (f : spec_float -> spec_float -> spec_float)
  (c k n : nat) (rows stats : list (list spec_float)) :
  Forall (fun r => length r = c) rows ->
  reduce_groups f (chunk k n rows) = Some stats ->
  length stats = k /\
  Forall (fun r => length r = c) stats /\
  forall (g j : nat) (v : spec_float),
    (g < k)%nat -> n <> 0%nat -> ((g + 1) * n <= length rows)%nat ->
    f v v = v ->
    Forall (fun row => nth_error row j = Some v) (group_rows g n rows) ->
    exists srow, nth_error stats g = Some srow /\ nth_error srow j = Some v.
Proof.
  intros Hwf H. unfold reduce_groups in H. split; [| split].
  - rewrite (sequence_length _ _ H), length_map. apply chunk_length.
  - apply (sequence_Forall _ _ _ H). apply Forall_map.
    eapply Forall_impl; [| apply (chunk_Forall _ k n rows Hwf)].
    intros grp Hg a Ha. now apply (reduce_rows_length f grp a c).
  - intros g j v Hg Hn Hlen Hf Hcol.
    destruct (sequence_nth _ _ g (reduce_rows f (group_rows g n rows)) H)
      as (srow & Hs & Hnth).
    { rewrite nth_error_map, chunk_nth by assumption. reflexivity. }
    exists srow. split; [assumption |].
    apply (reduce_rows_constant f (group_rows g n rows) srow j v); auto.
    intro E. apply (f_equal (@length _)) in E.
    rewrite group_rows_length in E by assumption. cbn in E. lia.
Qed.

(* ================================================================== *)
(** * A group of equal elements                                        *)
(* ================================================================== *)

Lemma fsub_self (dt : float_dtype) (v : spec_float) :
  fsub dt v v = S754_nan \/ exists s, fsub dt v v = S754_zero s.
Proof.
  unfold fsub. destruct v as [s | s | | s m e]; cbn [SFsub].
  - right. destruct s; eauto.
  - left. now destruct s.
  - now left.
  - right. exists false. rewrite Z.min_id. unfold shl_align.
    rewrite !Z.sub_diag. reflexivity.
Qed.

(** The element that [np.clip(np.round(. * qmax), qmin, qmax)] and
    [np.nan_to_num] make of [(v - v) / (v - v)]: the quotient is NaN, NaN
    goes through the product, the rounding and the clip, is replaced by
    zero, and the cast gives 0. *)
Lemma constant_group_elem (dt : float_dtype) (qmax : Z) (v : spec_float) :
  let d := fsub dt v v in
  fdiv dt d d = S754_nan /\
  quantize_elem dt qmax 0 qmax d d = S754_nan /\
  nan_to_num dt (quantize_elem dt qmax 0 qmax d d) = S754_zero false /\
  astype_uint8 (nan_to_num dt (quantize_elem dt qmax 0 qmax d d)) = 0.
Proof.
  intro d.
  assert (Hd : fdiv dt d d = S754_nan).
  { unfold d. destruct (fsub_self dt v) as [-> | [s ->]]; reflexivity. }
  assert (Hq : quantize_elem dt qmax 0 qmax d d = S754_nan).
  { unfold quantize_elem. rewrite Hd. reflexivity. }
  rewrite Hq. repeat split; assumption || reflexivity.
Qed.

Lemma Forall_flat_map_repeat {A : Type} (P : A -> Prop) (n : nat) (l : list A) :
  Forall P l -> Forall P (flat_map (fun a => repeat a n) l).
Proof.
  induction 1 as [| a l Ha _ IH]; cbn [flat_map]; [constructor |].
  apply Forall_app. split; [| assumption].
  apply Forall_forall. intros b Hb. now rewrite (repeat_spec _ _ _ Hb).
Qed.

Lemma Forall_zip_with {A B C : Type} (P : A -> Prop) (Q : B -> Prop)
  (R : C -> Prop) (f : A -> B -> C) (u : list A) (v : list B) :
  (forall a b, P a -> Q b -> R (f a b)) ->
  Forall P u -> Forall Q v -> Forall R (zip_with f u v).
Proof.
  intros Hf Hu. revert v. induction Hu as [| a u Ha _ IH]; intros v Hv;
    [constructor |].
  destruct Hv as [| b v Hb Hv]; cbn [zip_with]; constructor; auto.
Qed.

Lemma Forall_zip_with_repeat {A B C : Type} (R : C -> Prop) (f : A -> B -> C)
  (u : list A) (b : B) (n : nat) :
  Forall (fun a => R (f a b)) u -> Forall R (zip_with f u (repeat b n)).
Proof.
  intro Hu. revert n. induction Hu as [| a u Ha _ IH]; intros [| n];
    cbn [repeat zip_with]; constructor; auto.
Qed.

Lemma zip_with_rows_well_formed {A B C : Type} (f : A -> B -> C) (c : nat)
  (rows1 : list (list A)) (rows2 : list (list B)) :
  Forall (fun r => length r = c) rows1 ->
  Forall (fun r => length r = c) rows2 ->
  Forall (fun r => length r = c) (zip_with (zip_with f) rows1 rows2).
Proof.
  apply Forall_zip_with. intros r1 r2 H1 H2.
  rewrite zip_with_length; congruence.
Qed.


(* ================================================================== *)
(** * [Fcompare] is the library's comparison on canonical floats        *)
(* ================================================================== *)

Lemma digits2_pos_bounds (m : positive) :
  2 ^ (Zpos (digits2_pos m) - 1) <= Zpos m < 2 ^ Zpos (digits2_pos m).
Proof.
  induction m as [p IH | p IH |]; cbn [digits2_pos].
  - rewrite Pos2Z.inj_succ.
    replace (Z.succ (Z.pos (digits2_pos p)) - 1)
      with (Z.succ (Z.pos (digits2_pos p) - 1)) by lia.
    rewrite !Z.pow_succ_r by lia. lia.
  - rewrite Pos2Z.inj_succ.
    replace (Z.succ (Z.pos (digits2_pos p)) - 1)
      with (Z.succ (Z.pos (digits2_pos p) - 1)) by lia.
    rewrite !Z.pow_succ_r by lia. lia.
  - cbn. lia.
Qed.

(** A mantissa of a smaller canonical exponent is a smaller number. *)
Lemma canonical_lt (prec emax : Z) (m1 m2 : positive) (e1 e2 : Z) :
  canonical_mantissa prec emax m1 e1 = true ->
  canonical_mantissa prec emax m2 e2 = true ->
  e1 < e2 ->
  Zpos m1 < Zpos m2 * 2 ^ (e2 - e1).
Proof.
  unfold canonical_mantissa, fexp. intros H1 H2 He.
  apply Z.eqb_eq in H1, H2.
  pose proof (digits2_pos_bounds m1) as [_ B1].
  pose proof (digits2_pos_bounds m2) as [B2 _].
  set (d1 := Z.pos (digits2_pos m1)) in *.
  set (d2 := Z.pos (digits2_pos m2)) in *.
  assert (Hd1 : d1 <= prec) by lia.
  assert (Hd2 : d2 = prec) by lia.
  assert (Hp : 0 < d2) by (unfold d2; lia).
  assert (L1 : Zpos m1 < 2 ^ prec).
  { eapply Z.lt_le_trans; [exact B1 |]. apply Z.pow_le_mono_r; lia. }
  assert (L2 : 2 ^ prec <= Zpos m2 * 2 ^ (e2 - e1)).
  { replace prec with ((d2 - 1) + 1) at 1 by lia.
    rewrite Z.pow_add_r by lia.
    assert (0 <= 2 ^ (d2 - 1)) by (apply Z.pow_nonneg; lia).
    assert (2 ^ 1 <= 2 ^ (e2 - e1)) by (apply Z.pow_le_mono_r; lia).
    apply Z.mul_le_mono_nonneg; lia. }
  lia.
Qed.

Lemma Fcompare_SFcompare (prec emax : Z) (x y : spec_float) :
  valid_binary prec emax x = true -> valid_binary prec emax y = true ->
  Fcompare x y = SFcompare x y.
Proof.
  destruct x as [sx | sx | | sx mx ex], y as [sy | sy | | sy my ey];
    try reflexivity; cbn [valid_binary]; intros Hx Hy.
  - cbn [Fcompare Fnum SFcompare]. unfold Zcompare_scaled. f_equal.
    assert (0 < 2 ^ (ey - Z.min 0 ey)) by (apply pow2_pos; lia).
    destruct sy; cbn [cond_Zopp].
    + apply Z.compare_gt_iff. change (Z.neg my) with (- Z.pos my). nia.
    + apply Z.compare_lt_iff. nia.
  - cbn [Fcompare Fnum SFcompare]. unfold Zcompare_scaled. f_equal.
    assert (0 < 2 ^ (ex - Z.min ex 0)) by (apply pow2_pos; lia).
    destruct sx; cbn [cond_Zopp].
    + apply Z.compare_lt_iff. change (Z.neg mx) with (- Z.pos mx). nia.
    + apply Z.compare_gt_iff. nia.
  - unfold bounded in Hx, Hy.
    apply andb_prop in Hx as [Cx _]. apply andb_prop in Hy as [Cy _].
    cbn [Fcompare Fnum SFcompare]. unfold Zcompare_scaled. f_equal.
    destruct (Z.compare_spec ex ey) as [E | E | E].
    + subst ey. rewrite Z.min_id, Z.sub_diag. change (2 ^ 0) with 1.
      rewrite !Z.mul_1_r. destruct sx, sy; reflexivity.
    + pose proof (canonical_lt prec emax mx my ex ey Cx Cy E) as L.
      rewrite Z.min_l, Z.sub_diag by lia. change (2 ^ 0) with 1.
      rewrite Z.mul_1_r.
      assert (0 < 2 ^ (ey - ex)) by (apply pow2_pos; lia).
      destruct sx, sy; cbn [cond_Zopp];
        change (Z.neg mx) with (- Z.pos mx);
        change (Z.neg my) with (- Z.pos my);
        (apply Z.compare_gt_iff; nia) || (apply Z.compare_lt_iff; nia).
    + pose proof (canonical_lt prec emax my mx ey ex Cy Cx E) as L.
      rewrite Z.min_r, Z.sub_diag by lia. change (2 ^ 0) with 1.
      rewrite Z.mul_1_r.
      assert (0 < 2 ^ (ex - ey)) by (apply pow2_pos; lia).
      destruct sx, sy; cbn [cond_Zopp];
        change (Z.neg mx) with (- Z.pos mx);
        change (Z.neg my) with (- Z.pos my);
        (apply Z.compare_gt_iff; nia) || (apply Z.compare_lt_iff; nia).
Qed.

(* ================================================================== *)
(** * The packing codec: what [split_int8] returns                     *)
(* ================================================================== *)

Lemma land_15_range (b : Z) : 0 <= Z.land b 15 <= 15.
Proof.
  change (Z.land b 15) with (Z.land b (Z.ones 4)).
  rewrite Z.land_ones by lia. change (2 ^ 4) with 16.
  assert (0 <= b mod 16 < 16) by (apply Z.mod_pos_bound; lia). lia.
Qed.

(** C10. For every integer array [final] (an int8 array in particular), the
    second array returned by [split_int8] is [final & 0x0F] and nothing
    else: no sign recovery is applied to it, and each of its elements lies
    in [0, 15]. *)
Theorem split_int8_low_unsigned (final : ndarray Z) :
  snd (split_int8 final) = amap (fun b => Z.land b 15) final /\
  all_elems (fun l => 0 <= l <= 15) (snd (split_int8 final)).
Proof.
  split; [reflexivity |].
  unfold split_int8; simpl. apply all_elems_amap.
  apply all_elems_true. intro b. apply land_15_range.
Qed.

(** The byte that packs a signed nibble [a] over the low four bits of [b]:
    the arithmetic shift gives [a] back, the mask gives [b mod 16]. *)
Lemma packed_byte (a b : Z) :
  -8 <= a <= 7 ->
  let w := wrap_int8 (Z.lor (Z.shiftl a 4) (Z.land b 15)) in
  (let h := Z.shiftr w 4 in if 8 <? h then h - 16 else h) = a /\
  Z.land w 15 = b mod 16.
Proof.
  intro Ha.
  assert (Hr : Z.land b 15 = b mod 16).
  { change (Z.land b 15) with (Z.land b (Z.ones 4)).
    now rewrite Z.land_ones by lia. }
  rewrite Hr.
  assert (Hb : 0 <= b mod 16 < 16) by (apply Z.mod_pos_bound; lia).
  generalize dependent (b mod 16). intros r _ Hb.
  assert (Ea : a = -8 \/ a = -7 \/ a = -6 \/ a = -5 \/ a = -4 \/ a = -3 \/
               a = -2 \/ a = -1 \/ a = 0 \/ a = 1 \/ a = 2 \/ a = 3 \/
               a = 4 \/ a = 5 \/ a = 6 \/ a = 7) by lia.
  assert (Er : r = 0 \/ r = 1 \/ r = 2 \/ r = 3 \/ r = 4 \/ r = 5 \/ r = 6 \/
               r = 7 \/ r = 8 \/ r = 9 \/ r = 10 \/ r = 11 \/ r = 12 \/
               r = 13 \/ r = 14 \/ r = 15) by lia.
  clear Ha Hb.
  repeat (destruct Ea as [-> | Ea]);
    try subst a; repeat (destruct Er as [-> | Er]); try subst r;
    vm_compute; split; reflexivity.
Qed.

(** What the round trip does return: for nibbles [x] in [-8, 7] and any
    [y] of the same shape, the high array is [x] and the low array is
    [y mod 16] -- [y] itself only where [y] is not negative. *)
Lemma split_merge_int4 (x y : ndarray Z) :
  shape x = shape y -> well_formed x -> well_formed y ->
  all_elems (fun a => -8 <= a <= 7) x ->
  exists final,
    merge_int4 x y = Some final /\
    split_int8 final = (x, amap (fun b => b mod 16) y).
Proof.
  intros Hs Hx Hy Hr. unfold merge_int4.
  rewrite amap2_same_shape
    by (rewrite ?shape_amap; auto using well_formed_amap).
  cbn [bind]. eexists; split; [reflexivity |].
  unfold split_int8. rewrite !amap_amap.
  assert (Hh : forall a b, -8 <= a <= 7 -> True ->
    (fun w => if 8 <? Z.shiftr (wrap_int8 w) 4
              then Z.shiftr (wrap_int8 w) 4 - 16
              else Z.shiftr (wrap_int8 w) 4)
      (Z.lor (Z.shiftl a 4) (Z.land b 15)) = a)
    by (intros a b Ha _; apply (packed_byte a b Ha)).
  assert (Hw : forall a b, -8 <= a <= 7 -> True ->
    (fun w => Z.land (wrap_int8 w) 15)
      (Z.lor (Z.shiftl a 4) (Z.land b 15)) = b mod 16)
    by (intros a b Ha _; apply (packed_byte a b Ha)).
  assert (HT : forall l : list Z, Forall (fun _ => True) l)
    by (intro l; apply Forall_forall; auto).
  destruct x as [a | u | c1 rows1], y as [b | v | c2 rows2];
    cbn [shape] in Hs; try discriminate;
    cbn [amap azip_with well_formed all_elems] in *.
  - f_equal; f_equal; [apply Hh | apply Hw]; auto.
  - injection Hs as Hl.
    rewrite zip_with_map, !map_zip_with. f_equal; f_equal.
    + apply (zip_with_left _ _ _ u v Hh); auto.
    + apply (zip_with_right _ _ _ _ u v Hw); auto.
  - injection Hs as Hl Hc. subst c2.
    rewrite zip_with_map, !map_zip_with. f_equal; f_equal.
    + apply (zip_with_left
               (fun r => length r = c1 /\ Forall (fun a => -8 <= a <= 7) r)
               (fun r : list Z => length r = c1)); auto.
      * intros r1 r2 [Hl1 Hr1] Hl2.
        rewrite zip_with_map, map_zip_with.
        apply (zip_with_left _ _ _ r1 r2 Hh); auto. congruence.
      * apply Forall_conj; assumption.
    + apply (zip_with_right
               (fun r => length r = c1 /\ Forall (fun a => -8 <= a <= 7) r)
               (fun r : list Z => length r = c1)); auto.
      * intros r1 r2 [Hl1 Hr1] Hl2.
        rewrite zip_with_map, map_zip_with.
        apply (zip_with_right _ _ _ _ r1 r2 Hw); auto. congruence.
      * apply Forall_conj; assumption.
Qed.

(** C1. The round trip of the packing codec at [x = [0]], [y = [-1]], both
    in [-8, 7]: the merged byte is 15 and splitting it returns the low
    nibble 15, not the -1 that was packed. *)
Theorem split_merge_int4_negative_low :
  merge_int4 (Arr1 [0]) (Arr1 [-1]) = Some (Arr1 [15]) /\
  split_int8 (Arr1 [15]) = (Arr1 [0], Arr1 [15]) /\
  split_int8 (Arr1 [15]) <> (Arr1 [0], Arr1 [-1]).
Proof.
  repeat split; try reflexivity. discriminate.
Qed.
(* ================================================================== *)
(** * The channel-wise quantizations                                   *)
(* ================================================================== *)

Lemma wrap_int8_range (z : Z) : -128 <= wrap_int8 z <= 127.
Proof.
  unfold wrap_int8.
  assert (0 <= (z + 128) mod 256 < 256) by (apply Z.mod_pos_bound; lia). lia.
Qed.

Lemma wrap_int8_small (z : Z) : -128 <= z <= 127 -> wrap_int8 z = z.
Proof.
  intro H. unfold wrap_int8. rewrite Z.mod_small by lia. lia.
Qed.

Lemma wrap_uint8_range (z : Z) : 0 <= wrap_uint8 z <= 255.
Proof.
  unfold wrap_uint8.
  assert (0 <= z mod 256 < 256) by (apply Z.mod_pos_bound; lia). lia.
Qed.

Lemma wrap_uint8_small (z : Z) : 0 <= z <= 255 -> wrap_uint8 z = z.
Proof. intro H. unfold wrap_uint8. now rewrite Z.mod_small by lia. Qed.

Lemma py_lshift_1 (n : Z) :
  py_lshift 1 n = if n <? 0 then None else Some (2 ^ n).
Proof.
  unfold py_lshift. destruct (n <? 0) eqn:E; [reflexivity |].
  apply Z.ltb_ge in E. now rewrite Z.shiftl_1_l.
Qed.

(** The signed clip followed by the cast to int8, on any float. *)
Lemma clip_int8_range (dt : float_dtype) (quant_bit : Z) (v : spec_float) :
  1 <= quant_bit ->
  let bnt := 2 ^ (quant_bit - 1) - 1 in
  - 2 ^ (quant_bit - 1)
  <= astype_int8 (fclip v (of_int dt (- bnt - 1)) (of_int dt bnt))
  <= 2 ^ (quant_bit - 1) - 1.
Proof.
  intros Hq bnt. unfold astype_int8.
  assert (C : quant_bit = 1 \/ quant_bit = 2 \/ quant_bit = 3 \/ quant_bit = 4 \/
              quant_bit = 5 \/ quant_bit = 6 \/ quant_bit = 7 \/ quant_bit = 8 \/
              9 <= quant_bit) by lia.
  repeat (destruct C as [C | C]);
    try (subst quant_bit; subst bnt;
         match goal with
         | |- _ <= wrap_int8 (Ftrunc (fclip _ (of_int _ ?l) (of_int _ ?h))) <= _ =>
             let l' := eval cbv in l in
             let h' := eval cbv in h in
             change l with l'; change h with h';
             assert (R : l' <= Ftrunc (fclip v (of_int dt l') (of_int dt h')) <= h')
               by (apply Ftrunc_fclip; [now destruct dt | now destruct dt | lia]);
             rewrite wrap_int8_small by lia;
             change (2 ^ _) with (h' + 1); lia
         end).
  pose proof (wrap_int8_range
                (Ftrunc (fclip v (of_int dt (- bnt - 1)) (of_int dt bnt)))).
  assert (2 ^ 8 <= 2 ^ (quant_bit - 1)) by (apply Z.pow_le_mono_r; lia).
  change (2 ^ 8) with 256 in *. lia.
Qed.

(** The unsigned clip followed by the cast to uint8, on any float. *)
Lemma clip_uint8_range (dt : float_dtype) (quant_bit : Z) (v : spec_float) :
  0 <= quant_bit ->
  let qmax := 2 ^ quant_bit - 1 in
  0 <= astype_uint8 (fclip v (of_int dt 0) (of_int dt qmax)) <= 2 ^ quant_bit - 1.
Proof.
  intros Hq qmax. unfold astype_uint8.
  assert (C : quant_bit = 0 \/ quant_bit = 1 \/ quant_bit = 2 \/ quant_bit = 3 \/
              quant_bit = 4 \/ quant_bit = 5 \/ quant_bit = 6 \/ quant_bit = 7 \/
              quant_bit = 8 \/ 9 <= quant_bit) by lia.
  repeat (destruct C as [C | C]);
    try (subst quant_bit; subst qmax;
         match goal with
         | |- _ <= wrap_uint8 (Ftrunc (fclip _ _ (of_int _ ?h))) <= _ =>
             let h' := eval cbv in h in
             change h with h';
             assert (R : 0 <= Ftrunc (fclip v (of_int dt 0) (of_int dt h')) <= h')
               by (apply Ftrunc_fclip; [now destruct dt | now destruct dt | lia]);
             rewrite wrap_uint8_small by lia; lia
         end).
  pose proof (wrap_uint8_range
                (Ftrunc (fclip v (of_int dt 0) (of_int dt qmax)))).
  assert (2 ^ 8 <= 2 ^ quant_bit) by (apply Z.pow_le_mono_r; lia).
  change (2 ^ 8) with 256 in *. lia.
Qed.



(* ================================================================== *)
(** * The quantizations return a result                                *)
(* ================================================================== *)

Lemma sequence_map_total {A B : Type} (f : A -> option B) (g : A -> B)
  (l : list A) :
  Forall (fun a => f a = Some (g a)) l -> sequence (map f l) = Some (map g l).
Proof.
  induction 1 as [| a l Ha _ IH]; cbn [map sequence bind]; [reflexivity |].
  now rewrite Ha, IH.
Qed.

(** A matrix and a vector of its width combine row by row. *)
Lemma amap2_matrix_vector {A B C : Type} (f : A -> B -> C) (c : nat)
  (rows : list (list A)) (v : list B) :
  Forall (fun r => length r = c) rows -> length v = c ->
  amap2 f (Arr2 c rows) (Arr1 v)
  = Some (Arr2 c (map (fun r => zip_with f r v) rows)).
Proof.
  intros Hwf Hv. cbn [amap2]. rewrite Hv, broadcast_dim_same. cbn [bind].
  rewrite (sequence_map_total _ (fun r => zip_with f r v)); [reflexivity |].
  revert Hwf. apply Forall_impl. intros r Hr.
  apply broadcast1_same_length. congruence.
Qed.

Lemma reduce_rows_total {A : Type} (f : A -> A -> A) (c : nat)
  (rows : list (list A)) :
  rows <> [] -> Forall (fun r => length r = c) rows ->
  exists r, reduce_rows f rows = Some r /\ length r = c.
Proof.
  intros Hne Hwf. destruct rows as [| r0 rest]; [congruence |].
  eexists. split; [reflexivity |].
  now apply (reduce_rows_length f (r0 :: rest)).
Qed.



Lemma chunk_nonempty {A : Type} (k n : nat) (l : list A) :
  n <> 0%nat -> length l = (k * n)%nat ->
  Forall (fun grp => grp <> []) (chunk k n l).
Proof.
  intro Hn. revert l. induction k as [| k IH]; intros l Hl; cbn [chunk];
    constructor.
  - intro E. apply (f_equal (@length _)) in E.
    rewrite length_firstn in E. cbn [length] in E. lia.
  - apply IH. rewrite length_skipn. lia.
Qed.

Lemma reduce_groups_total {A : Type} (f : A -> A -> A) (k n : nat)
  (rows : list (list A)) :
  n <> 0%nat -> length rows = (k * n)%nat ->
  exists stats, reduce_groups f (chunk k n rows) = Some stats.
Proof.
  intros Hn Hl. unfold reduce_groups.
  pose proof (chunk_nonempty k n rows Hn Hl) as Hne.
  induction Hne as [| grp groups Hg _ IH]; cbn [map sequence bind]; eauto.
  destruct grp as [| r0 rest]; [congruence |].
  cbn [reduce_rows reduce1 bind]. destruct IH as [stats ->]. cbn [bind]. eauto.
Qed.

(** On a matrix whose rows make [k] groups of [n > 0] rows, for a
    [quant_bits] that is not negative, the group-wise asymmetric
    quantization returns a quantized matrix of the shape of its input and
    one row of minima and of maxima per group. *)
Lemma group_wise_quant_asymmetry_total (dt : float_dtype) (c k n : nat)
  (rows : list (list spec_float)) (quant_bits : Z) :
  well_formed (Arr2 c rows) -> n <> 0%nat -> length rows = (k * n)%nat ->
  0 <= quant_bits ->
  exists q mins maxs,
    group_wise_quant_asymmetry dt (Arr2 c rows) quant_bits (Z.of_nat n)
    = Some (q, mins, maxs) /\
    shape q = [length rows; c] /\ shape mins = [k; c] /\ shape maxs = [k; c].
Proof.
  intros Hwf Hn Hl Hq. cbn [well_formed] in Hwf.
  unfold group_wise_quant_asymmetry. rewrite py_lshift_1.
  destruct (quant_bits <? 0) eqn:E; [apply Z.ltb_lt in E; lia |].
  cbn [bind]. unfold group_inputs, py_floordiv.
  destruct (Z.of_nat n =? 0) eqn:En0; [apply Z.eqb_eq in En0; lia |].
  cbn [bind].
  destruct (Z.of_nat n <=? 0) eqn:En; [apply Z.leb_le in En; lia |].
  rewrite Nat2Z.id, <- Nat2Z.inj_div, Nat2Z.id.
  replace (length rows / n)%nat with k by (rewrite Hl, Nat.div_mul; auto).
  unfold reshape_groups.
  replace (Nat.eqb (k * n) (length rows)) with true
    by (symmetry; apply Nat.eqb_eq; lia).
  cbn [bind].
  destruct (reduce_groups_total fmaximum k n rows Hn Hl) as [maxs_rows Emax].
  destruct (reduce_groups_total fminimum k n rows Hn Hl) as [mins_rows Emin].
  rewrite Emax, Emin. cbn [bind].
  destruct (reduce_groups_chunk fmaximum c k n rows maxs_rows Hwf Emax)
    as (Lmax & Wmax & _).
  destruct (reduce_groups_chunk fminimum c k n rows mins_rows Hwf Emin)
    as (Lmin & Wmin & _).
  rewrite (amap2_same_shape (fsub dt) (Arr2 c maxs_rows) (Arr2 c mins_rows))
    by (cbn [shape well_formed]; congruence || assumption).
  cbn [bind azip_with]. unfold repeat_axis0.
  destruct (Z.of_nat n <? 0) eqn:En'; [apply Z.ltb_lt in En'; lia |].
  rewrite Nat2Z.id. cbn [bind].
  set (scales := zip_with (zip_with (fsub dt)) maxs_rows mins_rows).
  set (new_scales := flat_map (fun r => repeat r n) scales).
  set (new_mins := flat_map (fun r => repeat r n) mins_rows).
  assert (Wsc : Forall (fun r => length r = c) scales)
    by now apply zip_with_rows_well_formed.
  assert (Lsc : length scales = k)
    by (unfold scales; rewrite zip_with_length; congruence).
  assert (Wnm : Forall (fun r => length r = c) new_mins)
    by now apply Forall_flat_map_repeat.
  assert (Wns : Forall (fun r => length r = c) new_scales)
    by now apply Forall_flat_map_repeat.
  assert (Lnm : length new_mins = length rows)
    by (unfold new_mins; rewrite flat_map_repeat_length; lia).
  assert (Lns : length new_scales = length rows)
    by (unfold new_scales; rewrite flat_map_repeat_length; lia).
  rewrite (amap2_same_shape (fsub dt) (Arr2 c rows) (Arr2 c new_mins))
    by (cbn [shape well_formed]; congruence || assumption).
  cbn [bind azip_with].
  set (t1 := zip_with (zip_with (fsub dt)) rows new_mins).
  assert (Wt1 : Forall (fun r => length r = c) t1)
    by now apply zip_with_rows_well_formed.
  assert (Lt1 : length t1 = length rows)
    by (unfold t1; rewrite zip_with_length; congruence).
  rewrite (amap2_same_shape (fdiv dt) (Arr2 c t1) (Arr2 c new_scales))
    by (cbn [shape well_formed]; congruence || assumption).
  cbn [bind azip_with]. eexists _, _, _. split; [reflexivity |].
  rewrite !shape_amap. cbn [shape].
  rewrite zip_with_length by congruence. now rewrite Lt1, Lmin, Lmax.
Qed.

(* ================================================================== *)
(** * The group-wise asymmetric quantization of a constant group       *)
(* ================================================================== *)

(** The quantized elements, the statistics and the divide of a group [g]
    whose elements in column [j] are all equal to [v]. *)
Lemma constant_group_quantized (dt : float_dtype) (c n g j : nat)
  (rows : list (list spec_float)) (quant_bits : Z) (v : spec_float)
  (q : ndarray Z) (mins maxs : ndarray spec_float) :
  well_formed (Arr2 c rows) ->
  group_wise_quant_asymmetry dt (Arr2 c rows) quant_bits (Z.of_nat n)
  = Some (q, mins, maxs) ->
  ((g + 1) * n <= length rows)%nat -> (j < c)%nat ->
  Forall (fun row => nth_error row j = Some v) (group_rows g n rows) ->
  let qmax := 2 ^ quant_bits - 1 in
  let d := fsub dt v v in
  let e := quantize_elem dt qmax 0 qmax d d in
  exists qrows mins_rows maxs_rows min_row max_row,
    q = Arr2 c qrows /\ mins = Arr2 c mins_rows /\ maxs = Arr2 c maxs_rows /\
    nth_error mins_rows g = Some min_row /\ nth_error min_row j = Some v /\
    nth_error maxs_rows g = Some max_row /\ nth_error max_row j = Some v /\
    fdiv dt d d = S754_nan /\ e = S754_nan /\
    nan_to_num dt e = S754_zero false /\
    length (group_rows g n qrows) = n /\
    Forall (fun qrow => nth_error qrow j = Some (astype_uint8 (nan_to_num dt e)))
      (group_rows g n qrows) /\
    astype_uint8 (nan_to_num dt e) = 0.
Proof.
  intros Hwf H Hlen Hj Hcol qmax d e. cbn [well_formed] in Hwf.
  unfold group_wise_quant_asymmetry in H. rewrite py_lshift_1 in H.
  destruct (quant_bits <? 0); [discriminate |]. cbn [bind] in H.
  unfold group_inputs, py_floordiv in H.
  destruct (Z.of_nat n =? 0) eqn:En0; [discriminate |]. cbn [bind] in H.
  destruct (Z.of_nat n <=? 0) eqn:En; [discriminate |].
  apply Z.leb_gt in En. assert (Hn : n <> 0%nat) by lia.
  rewrite Nat2Z.id, <- Nat2Z.inj_div, Nat2Z.id in H.
  set (k := (length rows / n)%nat) in *.
  unfold reshape_groups in H.
  destruct (Nat.eqb (k * n) (length rows)) eqn:Ek.
  2: { destruct (Nat.eqb c 0) eqn:Ec; [apply Nat.eqb_eq in Ec; lia | discriminate]. }
  apply Nat.eqb_eq in Ek. cbn [bind] in H.
  assert (Hg : (g < k)%nat) by nia.
  destruct (reduce_groups fmaximum (chunk k n rows)) as [maxs_rows |] eqn:Emax;
    [| discriminate].
  destruct (reduce_groups fminimum (chunk k n rows)) as [mins_rows |] eqn:Emin;
    [| discriminate].
  cbn [bind] in H.
  destruct (reduce_groups_chunk fmaximum c k n rows maxs_rows Hwf Emax)
    as (Lmax & Wmax & Cmax).
  destruct (reduce_groups_chunk fminimum c k n rows mins_rows Hwf Emin)
    as (Lmin & Wmin & Cmin).
  destruct (Cmax g j v Hg Hn Hlen (fmaximum_idem v) Hcol)
    as (max_row & Hmax_row & Hmax_v).
  destruct (Cmin g j v Hg Hn Hlen (fminimum_idem v) Hcol)
    as (min_row & Hmin_row & Hmin_v).
  rewrite (amap2_same_shape (fsub dt) (Arr2 c maxs_rows) (Arr2 c mins_rows))
    in H by (cbn [shape well_formed]; congruence || assumption).
  cbn [bind azip_with] in H.
  unfold repeat_axis0 in H.
  destruct (Z.of_nat n <? 0) eqn:En'; [apply Z.ltb_lt in En'; lia |].
  rewrite Nat2Z.id in H. cbn [bind] in H.
  set (scales := zip_with (zip_with (fsub dt)) maxs_rows mins_rows) in *.
  set (new_scales := flat_map (fun r => repeat r n) scales) in *.
  set (new_mins := flat_map (fun r => repeat r n) mins_rows) in *.
  assert (Wsc : Forall (fun r => length r = c) scales)
    by now apply zip_with_rows_well_formed.
  assert (Lsc : length scales = k)
    by (unfold scales; rewrite zip_with_length; congruence).
  assert (Wnm : Forall (fun r => length r = c) new_mins)
    by now apply Forall_flat_map_repeat.
  assert (Wns : Forall (fun r => length r = c) new_scales)
    by now apply Forall_flat_map_repeat.
  assert (Lnm : length new_mins = length rows)
    by (unfold new_mins; rewrite flat_map_repeat_length; lia).
  assert (Lns : length new_scales = length rows)
    by (unfold new_scales; rewrite flat_map_repeat_length; lia).
  rewrite (amap2_same_shape (fsub dt) (Arr2 c rows) (Arr2 c new_mins))
    in H by (cbn [shape well_formed]; congruence || assumption).
  cbn [bind azip_with] in H.
  set (t1 := zip_with (zip_with (fsub dt)) rows new_mins) in *.
  assert (Wt1 : Forall (fun r => length r = c) t1)
    by now apply zip_with_rows_well_formed.
  assert (Lt1 : length t1 = length rows)
    by (unfold t1; rewrite zip_with_length; congruence).
  rewrite (amap2_same_shape (fdiv dt) (Arr2 c t1) (Arr2 c new_scales))
    in H by (cbn [shape well_formed]; congruence || assumption).
  cbn [bind azip_with] in H. rewrite !amap_amap in H. cbn [amap] in H.
  injection H as <- <- <-.
  set (F := fun a : spec_float => _).
  destruct (constant_group_elem dt qmax v) as (Hd & He & Hz & H0).
  fold d in Hd, He, Hz, H0. fold e in He, Hz, H0.
  eexists _, mins_rows, maxs_rows, min_row, max_row.
  repeat (split; [reflexivity || assumption |]).
  assert (Hscale : nth_error scales g = Some (zip_with (fsub dt) max_row min_row))
    by now apply zip_with_nth.
  assert (Egr : group_rows g n
                  (map (map F) (zip_with (zip_with (fdiv dt)) t1 new_scales))
                = map (map F)
                    (zip_with (zip_with (fdiv dt))
                       (zip_with (zip_with (fsub dt)) (group_rows g n rows)
                          (repeat min_row n))
                       (repeat (zip_with (fsub dt) max_row min_row) n))).
  { rewrite group_rows_map, group_rows_zip_with. unfold t1.
    rewrite group_rows_zip_with. unfold new_scales, new_mins.
    now rewrite (group_rows_repeat n g scales _ Hscale),
      (group_rows_repeat n g mins_rows _ Hmin_row). }
  rewrite Egr. split; [| split; [| assumption]].
  - assert (Lg : length (group_rows g n rows) = n)
      by now apply group_rows_length.
    rewrite length_map, zip_with_length;
      rewrite zip_with_length; rewrite ?repeat_length; congruence.
  - apply Forall_map. apply Forall_zip_with_repeat, Forall_zip_with_repeat.
    revert Hcol. apply Forall_impl. intros row Hrow.
    rewrite nth_error_map.
    rewrite (zip_with_nth (fdiv dt) _ _ j d d).
    + cbn [option_map]. unfold F, e, quantize_elem. reflexivity.
    + now apply zip_with_nth.
    + now apply zip_with_nth.
Qed.

(** The group-wise asymmetric quantization, with its elementwise steps
    put together: every element of the array that [np.clip] returns goes
    through [np.nan_to_num] and then through the cast. *)
Lemma group_wise_quant_asymmetry_scrub (dt : float_dtype)
  (inputs : ndarray spec_float) (quant_bits group_size : Z) :
  let qmax := 2 ^ quant_bits - 1 in
  group_wise_quant_asymmetry dt inputs quant_bits group_size
  = (_ <- py_lshift 1 quant_bits ;;
     cg <- group_inputs inputs group_size ;;
     maxs <- reduce_groups fmaximum (snd cg) ;;
     mins <- reduce_groups fminimum (snd cg) ;;
     scales <- amap2 (fsub dt) (Arr2 (fst cg) maxs) (Arr2 (fst cg) mins) ;;
     new_scales <- repeat_axis0 scales group_size ;;
     new_mins <- repeat_axis0 (Arr2 (fst cg) mins) group_size ;;
     d <- amap2 (fsub dt) inputs new_mins ;;
     clipped <- amap2 (quantize_elem dt qmax 0 qmax) d new_scales ;;
     Some (amap (fun e => astype_uint8 (nan_to_num dt e)) clipped,
           Arr2 (fst cg) mins, Arr2 (fst cg) maxs)).
Proof.
  intro qmax. unfold group_wise_quant_asymmetry. rewrite py_lshift_1.
  destruct (quant_bits <? 0); cbn [bind]; [reflexivity |]. fold qmax.
  destruct (group_inputs inputs group_size) as [[c groups] |]; cbn [bind fst snd];
    [| reflexivity].
  destruct (reduce_groups fmaximum groups) as [maxs |]; cbn [bind];
    [| reflexivity].
  destruct (reduce_groups fminimum groups) as [mins |]; cbn [bind];
    [| reflexivity].
  destruct (amap2 (fsub dt) (Arr2 c maxs) (Arr2 c mins)) as [scales |];
    cbn [bind]; [| reflexivity].
  destruct (repeat_axis0 scales group_size) as [new_scales |]; cbn [bind];
    [| reflexivity].
  destruct (repeat_axis0 (Arr2 c mins) group_size) as [new_mins |]; cbn [bind];
    [| reflexivity].
  destruct (amap2 (fsub dt) inputs new_mins) as [d |]; cbn [bind];
    [| reflexivity].
  unfold quantize_elem.
  rewrite <- (amap2_amap
                (fun v => fclip (frint dt (fmul dt v (of_int dt qmax)))
                            (of_int dt 0) (of_int dt qmax))
                (fdiv dt) d new_scales).
  destruct (amap2 (fdiv dt) d new_scales) as [t |]; cbn [bind]; [| reflexivity].
  now rewrite !amap_amap.
Qed.

(** A statistic of the channel-wise statistics functions that is zero is
    the epsilon they put in place of every zero. *)
Lemma guard_zero_is_eps (dt : float_dtype) (raw : spec_float) :
  Feqb (guard_zero dt raw) (of_int dt 0) = true -> guard_zero dt raw = eps_of dt.
Proof.
  unfold guard_zero. destruct (Feqb raw (of_int dt 0)) eqn:E; [reflexivity |].
  intro H. congruence.
Qed.

(** C7. In the group-wise asymmetric quantization of a matrix, take a
    group [g] whose elements in column [j] are all equal to some [v].
    The statistics returned for it are [v] itself, as minimum and as
    maximum, with no epsilon in place of a zero scale [v - v]; the divide
    [(v - v) / (v - v)] is NaN and stays NaN up to [np.nan_to_num]; and
    every quantized element of the group in that column is that NaN
    replaced by zero and cast: 0.  On every input, each element of the
    array that [np.clip] returns goes through [np.nan_to_num], which
    makes a NaN zero, before the cast to uint8.  The channel-wise
    statistics functions, in contrast, put the epsilon in place of every
    zero before they return: a statistic of theirs that is zero is the
    epsilon itself. *)
Theorem group_wise_constant_group (dt : float_dtype) :
  (forall (c n g j : nat) (rows : list (list spec_float)) (quant_bits : Z)
          (v : spec_float) (q : ndarray Z) (mins maxs : ndarray spec_float),
     well_formed (Arr2 c rows) ->
     group_wise_quant_asymmetry dt (Arr2 c rows) quant_bits (Z.of_nat n)
     = Some (q, mins, maxs) ->
     ((g + 1) * n <= length rows)%nat -> (j < c)%nat ->
     Forall (fun row => nth_error row j = Some v) (group_rows g n rows) ->
     let qmax := 2 ^ quant_bits - 1 in
     let d := fsub dt v v in
     let e := quantize_elem dt qmax 0 qmax d d in
     exists qrows mins_rows maxs_rows min_row max_row,
       q = Arr2 c qrows /\ mins = Arr2 c mins_rows /\ maxs = Arr2 c maxs_rows /\
       nth_error mins_rows g = Some min_row /\ nth_error min_row j = Some v /\
       nth_error maxs_rows g = Some max_row /\ nth_error max_row j = Some v /\
       fdiv dt d d = S754_nan /\ e = S754_nan /\
       nan_to_num dt e = S754_zero false /\
       length (group_rows g n qrows) = n /\
       Forall (fun qrow =>
                 nth_error qrow j = Some (astype_uint8 (nan_to_num dt e)))
         (group_rows g n qrows) /\
       astype_uint8 (nan_to_num dt e) = 0)
  /\
  (forall (inputs : ndarray spec_float) (quant_bits group_size : Z),
     let qmax := 2 ^ quant_bits - 1 in
     group_wise_quant_asymmetry dt inputs quant_bits group_size
     = (_ <- py_lshift 1 quant_bits ;;
        cg <- group_inputs inputs group_size ;;
        maxs <- reduce_groups fmaximum (snd cg) ;;
        mins <- reduce_groups fminimum (snd cg) ;;
        scales <- amap2 (fsub dt) (Arr2 (fst cg) maxs) (Arr2 (fst cg) mins) ;;
        new_scales <- repeat_axis0 scales group_size ;;
        new_mins <- repeat_axis0 (Arr2 (fst cg) mins) group_size ;;
        d <- amap2 (fsub dt) inputs new_mins ;;
        clipped <- amap2 (quantize_elem dt qmax 0 qmax) d new_scales ;;
        Some (amap (fun e => astype_uint8 (nan_to_num dt e)) clipped,
              Arr2 (fst cg) mins, Arr2 (fst cg) maxs)))
  /\
  (forall (inputs : ndarray spec_float) (quant_axis : Z) (r : ndarray spec_float),
     cal_abs_max_channel dt inputs quant_axis = Some r ->
     all_elems (fun s => Feqb s (of_int dt 0) = true -> s = eps_of dt) r)
  /\
  (forall (inputs : ndarray spec_float) (quant_axis : Z)
          (mx mn : ndarray spec_float),
     cal_abs_min_max_channel dt inputs quant_axis = Some (mx, mn) ->
     all_elems (fun s => Feqb s (of_int dt 0) = true -> s = eps_of dt) mx /\
     all_elems (fun s => Feqb s (of_int dt 0) = true -> s = eps_of dt) mn).
Proof.
  split; [| split; [| split]].
  - intros c n g j rows quant_bits v q mins maxs.
    apply constant_group_quantized.
  - intros inputs quant_bits group_size.
    apply group_wise_quant_asymmetry_scrub.
  - intros inputs quant_axis r H. unfold cal_abs_max_channel in H.
    destruct (reduce_except fmaximum quant_axis (amap SFabs inputs)) as [m |];
      [| discriminate].
    injection H as <-. apply all_elems_amap, all_elems_true.
    intro raw. apply guard_zero_is_eps.
  - intros inputs quant_axis mx mn H. unfold cal_abs_min_max_channel in H.
    destruct (reduce_except fmaximum quant_axis inputs) as [m |];
      [| discriminate].
    destruct (reduce_except fminimum quant_axis inputs) as [m' |];
      [| discriminate].
    injection H as <- <-.
    split; apply all_elems_amap, all_elems_true; intro raw;
      apply guard_zero_is_eps.
Qed.

(** The statement on a 4 x 2 float32 matrix in groups of two rows: the
    first column of the first group is constantly 5. *)
Lemma group_wise_constant_group_witness :
  let f := of_int float32 in
  let rows := [[f 5; f (-2)]; [f 5; f 2]; [f 1; f 1]; [f 3; f 1]] in
  match group_wise_quant_asymmetry float32 (Arr2 2 rows) 4 2 with
  | Some (Arr2 _ qrows, Arr2 _ mins_rows, Arr2 _ maxs_rows) =>
      option_map (fun r => nth_error r 0) (nth_error mins_rows 0)
      = Some (Some (f 5)) /\
      option_map (fun r => nth_error r 0) (nth_error maxs_rows 0)
      = Some (Some (f 5)) /\
      Forall (fun qrow => nth_error qrow 0 = Some 0) (group_rows 0 2 qrows)
  | _ => False
  end.
Proof.
  intros f rows.
  destruct (group_wise_quant_asymmetry float32 (Arr2 2 rows) 4 2)
    as [[[q mins] maxs] |] eqn:E; [| discriminate E].
  destruct (proj1 (group_wise_constant_group float32)
              2%nat 2%nat 0%nat 0%nat rows 4 (f 5) q mins maxs)
    as (qrows & mins_rows & maxs_rows & min_row & max_row & -> & -> & -> &
        Hmin & Hmin_v & Hmax & Hmax_v & _ & _ & _ & _ & Hq & H0).
  - repeat constructor.
  - exact E.
  - cbn; lia.
  - lia.
  - repeat constructor.
  - rewrite Hmin, Hmax. cbn [option_map]. rewrite Hmin_v, Hmax_v.
    repeat split. rewrite <- H0. exact Hq.
Defined.

(* ================================================================== *)
(** * The epsilon guard of the channel statistics                      *)
(* ================================================================== *)

(** In float32 and in float64 the epsilon is not zero, so that no guarded
    statistic is. *)
Lemma eps_of_nonzero (dt : float_dtype) :
  dt <> float16 -> Feqb (eps_of dt) (of_int dt 0) = false.
Proof. destruct dt; [congruence | reflexivity | reflexivity]. Qed.

Lemma guard_zero_nonzero (dt : float_dtype) (v : spec_float) :
  dt <> float16 -> Feqb (guard_zero dt v) (of_int dt 0) = false.
Proof.
  intro H. unfold guard_zero.
  destruct (Feqb v (of_int dt 0)) eqn:E; [now apply eps_of_nonzero | exact E].
Qed.

Lemma cal_abs_max_channel_nonzero (dt : float_dtype) (inputs : ndarray spec_float)
  (quant_axis : Z) (r : ndarray spec_float) :
  dt <> float16 ->
  cal_abs_max_channel dt inputs quant_axis = Some r ->
  all_elems (fun v => Feqb v (of_int dt 0) = false) r.
Proof.
  intros Hdt H. unfold cal_abs_max_channel in H.
  destruct (reduce_except fmaximum quant_axis (amap SFabs inputs)) as [m |];
    [| discriminate].
  injection H as <-. apply all_elems_amap, all_elems_true.
  intro v. now apply guard_zero_nonzero.
Qed.

Lemma cal_abs_min_max_channel_nonzero (dt : float_dtype)
  (inputs : ndarray spec_float) (quant_axis : Z) (mx mn : ndarray spec_float) :
  dt <> float16 ->
  cal_abs_min_max_channel dt inputs quant_axis = Some (mx, mn) ->
  all_elems (fun v => Feqb v (of_int dt 0) = false) mx /\
  all_elems (fun v => Feqb v (of_int dt 0) = false) mn.
Proof.
  intros Hdt H. unfold cal_abs_min_max_channel in H.
  destruct (reduce_except fmaximum quant_axis inputs) as [m |]; [| discriminate].
  destruct (reduce_except fminimum quant_axis inputs) as [m' |]; [| discriminate].
  injection H as <- <-.
  split; apply all_elems_amap, all_elems_true; intro v;
    now apply guard_zero_nonzero.
Qed.

(** A column of zeros of a float32 or float64 matrix has the abs-max
    statistic 1e-8 (in the dtype), whatever the signs of the zeros. *)
Lemma cal_abs_max_channel_zero_column (dt : float_dtype) (c j : nat)
  (rows : list (list spec_float)) (r : ndarray spec_float) :
  Forall (fun row => exists s, nth_error row j = Some (S754_zero s)) rows ->
  cal_abs_max_channel dt (Arr2 c rows) 1 = Some r ->
  exists stats, r = Arr1 stats /\ nth_error stats j = Some (eps_of dt).
Proof.
  intros Hcol H. unfold cal_abs_max_channel in H. cbn [amap reduce_except] in H.
  change (1 =? 0) with false in H. change (1 =? 1) with true in H.
  cbn [bind] in H.
  destruct (reduce_rows fmaximum (map (map SFabs) rows)) as [m |] eqn:E;
    [| discriminate].
  cbn [bind amap] in H. injection H as <-.
  eexists; split; [reflexivity |].
  assert (Hm : nth_error m j = Some (S754_zero false)).
  { apply (reduce_rows_constant fmaximum (map (map SFabs) rows) m j);
      [apply fmaximum_idem | | | exact E].
    - destruct rows; [discriminate E | discriminate].
    - apply Forall_map. revert Hcol. apply Forall_impl.
      intros row [s Hs]. now rewrite nth_error_map, Hs. }
  rewrite nth_error_map, Hm. reflexivity.
Qed.

(** C8. The float16 array [[0], [0]]: 1e-8 is below half the smallest
    positive float16, [np.array(1e-8, dtype=np.float16)] is zero, and the
    statistics of the all-zero channel stay zero. *)
Theorem cal_abs_max_channel_float16_zero :
  let zero := S754_zero false in
  eps_of float16 = zero /\
  cal_abs_max_channel float16 (Arr2 1 [[zero]; [zero]]) 1 = Some (Arr1 [zero]) /\
  cal_abs_min_max_channel float16 (Arr2 1 [[zero]; [zero]]) 1
  = Some (Arr1 [zero], Arr1 [zero]).
Proof. repeat split. Qed.

(* ================================================================== *)
(** * The parameter [quant_axis]                                       *)
(* ================================================================== *)

(** C9. Two calls of [qdq_weight], or of [asymmetry_qdq_weight], that
    differ in [quant_axis] only return the same result, when quantizing
    and when dequantizing.  Statistics that are not passed in are those
    of [cal_abs_max_channel] and [cal_abs_min_max_channel] at their
    default axis 1: calling with no statistics is calling with these. *)
Theorem quant_axis_unused (dt : float_dtype) (E : Type) (np pd : backend E)
  (x : ndarray spec_float) (scales mins maxs : option (ndarray spec_float))
  (xq scales_q mins_q maxs_q : ndarray E)
  (quant_bit axis1 axis2 tp_rank tp_degree : Z) (use_pd : bool) :
  qdq_weight_quant dt x quant_bit axis1 scales
  = qdq_weight_quant dt x quant_bit axis2 scales
  /\
  asymmetry_qdq_weight_quant dt x quant_bit axis1 mins maxs
  = asymmetry_qdq_weight_quant dt x quant_bit axis2 mins maxs
  /\
  qdq_weight_dequant E np pd xq quant_bit axis1 scales_q tp_rank tp_degree use_pd
  = qdq_weight_dequant E np pd xq quant_bit axis2 scales_q tp_rank tp_degree use_pd
  /\
  asymmetry_qdq_weight_dequant E np pd xq quant_bit axis1 mins_q maxs_q
    tp_rank tp_degree use_pd
  = asymmetry_qdq_weight_dequant E np pd xq quant_bit axis2 mins_q maxs_q
      tp_rank tp_degree use_pd
  /\
  qdq_weight_quant dt x quant_bit axis1 None
  = (s <- cal_abs_max_channel dt x 1 ;;
     qdq_weight_quant dt x quant_bit axis2 (Some s))
  /\
  asymmetry_qdq_weight_quant dt x quant_bit axis1 None maxs
  = (mm <- cal_abs_min_max_channel dt x 1 ;;
     asymmetry_qdq_weight_quant dt x quant_bit axis2
       (Some (snd mm)) (Some (fst mm))).
Proof.
  repeat split; try reflexivity.
  unfold asymmetry_qdq_weight_quant.
  now destruct (cal_abs_min_max_channel dt x 1) as [[ma mi] |].
Qed.

(* ================================================================== *)
(** * Which sub-range of the statistics each dequantization uses       *)
(* ================================================================== *)

Ltac case_bind :=
  match goal with
  | |- context [bind ?o _] =>
      let x := fresh "x" in destruct o as [x |]; cbn [bind]
  end.

Section ShardTheorems.

Variable E : Type.
Variable np pd : backend E.

Lemma qdq_weight_dequant_shard (x : ndarray E) (quant_bit quant_axis : Z)
  (scales : ndarray E) (tp_rank tp_degree : Z) (use_pd : bool) :
  qdq_weight_dequant E np pd x quant_bit quant_axis scales tp_rank tp_degree use_pd
  = (sh <- py_lshift 1 (quant_bit - 1) ;;
     s <- channel_shard_by scales x scales tp_rank tp_degree ;;
     qdq_x <- qdq_apply E np pd use_pd x (sh - 1) s ;;
     Some (qdq_x, scales)).
Proof.
  unfold qdq_weight_dequant, channel_shard_by, qdq_apply, first_axis_block.
  case_bind; [| reflexivity].
  destruct use_pd; cbn [negb];
    (case_bind; [| reflexivity]);
    match goal with |- context [if ?b then _ else _] => destruct b end;
    cbn [bind]; repeat (case_bind; [| reflexivity]); reflexivity.
Qed.

Lemma asymmetry_qdq_weight_dequant_shard (x : ndarray E)
  (quant_bit quant_axis : Z) (mins maxs : ndarray E)
  (tp_rank tp_degree : Z) (use_pd : bool) :
  asymmetry_qdq_weight_dequant E np pd x quant_bit quant_axis mins maxs
    tp_rank tp_degree use_pd
  = (sh <- py_lshift 1 quant_bit ;;
     scales <- amap2 (sub (if use_pd then pd else np)) maxs mins ;;
     s <- channel_shard_by scales x scales tp_rank tp_degree ;;
     m <- channel_shard_by scales x mins tp_rank tp_degree ;;
     qdq_x <- asymmetry_apply E np pd use_pd x (sh - 1) s m ;;
     Some (qdq_x, scales)).
Proof.
  unfold asymmetry_qdq_weight_dequant, channel_shard_by, asymmetry_apply,
    first_axis_block.
  case_bind; [| reflexivity].
  case_bind; [| reflexivity].
  destruct use_pd; cbn [negb];
    (case_bind; [| reflexivity]);
    match goal with |- context [if ?b then _ else _] => destruct b end;
    cbn [bind]; repeat (case_bind; [| try reflexivity]);
    try reflexivity.
Qed.

Lemma group_wise_dequant_symmetry_shard (inputs mins : ndarray E)
  (quant_bits group_size tp_rank tp_degree : Z) (use_pd : bool) :
  group_wise_dequant_symmetry E np pd inputs mins quant_bits group_size
    tp_rank tp_degree use_pd
  = (_ <- py_lshift 1 quant_bits ;;
     sh <- py_lshift 1 (quant_bits - 1) ;;
     new_scales <- repeat_axis0 mins group_size ;;
     s <- group_shard_by new_scales inputs new_scales tp_rank tp_degree ;;
     group_symmetry_apply E np pd use_pd inputs (sh - 1) s).
Proof.
  unfold group_wise_dequant_symmetry, group_shard_by, group_symmetry_apply,
    first_axis_block, second_axis_block.
  do 3 (case_bind; [| reflexivity]).
  destruct (tp_rank =? -1); cbn [bind]; [reflexivity |].
  case_bind; [| reflexivity].
  match goal with |- context [if ?b then _ else _] => destruct b end;
    cbn [bind]; repeat (case_bind; [| reflexivity]); reflexivity.
Qed.

Lemma group_wise_dequant_asymmetry_shard (inputs mins maxs : ndarray E)
  (quant_bits group_size tp_rank tp_degree : Z) (use_pd : bool) :
  group_wise_dequant_asymmetry E np pd inputs mins maxs quant_bits group_size
    tp_rank tp_degree use_pd
  = (sh <- py_lshift 1 quant_bits ;;
     scales <- amap2 (sub (if use_pd then pd else np)) maxs mins ;;
     new_scales <- repeat_axis0 scales group_size ;;
     new_mins <- repeat_axis0 mins group_size ;;
     s <- group_shard_by new_scales inputs new_scales tp_rank tp_degree ;;
     m <- group_shard_by new_scales inputs new_mins tp_rank tp_degree ;;
     group_asymmetry_apply E np pd use_pd inputs (sh - 1) s m).
Proof.
  unfold group_wise_dequant_asymmetry, group_shard_by, group_asymmetry_apply,
    first_axis_block, second_axis_block.
  do 4 (case_bind; [| reflexivity]).
  destruct (tp_rank =? -1); cbn [bind]; [reflexivity |].
  case_bind; [| reflexivity].
  match goal with |- context [if ?b then _ else _] => destruct b end;
    cbn [bind]; repeat (case_bind; [| try reflexivity]); reflexivity.
Qed.

(** On a matrix of statistics, and on any statistics whose last dimension
    is that of the data, the group-wise selection is the Shard Slicer of
    the specification. *)
Lemma group_shard_is_shard_slicer {A B : Type} (S : ndarray A) (D : ndarray B)
  (tp_rank tp_degree : Z) :
  (forall v, S <> Arr1 v) \/ rank0_or_same_last S D = Some true ->
  group_shard_by S D S tp_rank tp_degree = shard_slicer S D tp_rank tp_degree.
Proof.
  intros H. unfold group_shard_by, shard_slicer.
  destruct (tp_rank =? -1); [reflexivity |].
  destruct H as [H | H].
  - destruct (rank0_or_same_last S D) as [[|] |]; cbn [bind]; try reflexivity.
    destruct S as [a | v | c rows]; cbn [last_axis_block]; try reflexivity.
    now destruct (H v).
  - rewrite H. reflexivity.
Qed.

End ShardTheorems.

(** C2, as the code has it.  For every tensor-parallel rank and degree,
    the two group-wise dequantizations (symmetric and asymmetric, on numpy
    or on paddle) use one and the same sub-range of the repeated
    statistics, the one the claim describes: the block of the first axis
    when the statistics are scalar or their last dimension is that of the
    data, the block of the second axis otherwise, which on a matrix is the
    Shard Slicer of the specification.  The two channel-wise
    dequantizations also agree with one another, on a different
    sub-range: the statistics unsliced when they are scalar or their
    last dimension is that of the data, and the block of the first axis
    otherwise. *)
Theorem dequantize_shard_selection (E : Type) (np pd : backend E)
  (x scales mins maxs : ndarray E)
  (quant_bit quant_axis group_size tp_rank tp_degree : Z) (use_pd : bool) :
  group_wise_dequant_symmetry E np pd x scales quant_bit group_size
    tp_rank tp_degree use_pd
  = (_ <- py_lshift 1 quant_bit ;;
     sh <- py_lshift 1 (quant_bit - 1) ;;
     new_scales <- repeat_axis0 scales group_size ;;
     s <- group_shard_by new_scales x new_scales tp_rank tp_degree ;;
     group_symmetry_apply E np pd use_pd x (sh - 1) s)
  /\
  group_wise_dequant_asymmetry E np pd x mins maxs quant_bit group_size
    tp_rank tp_degree use_pd
  = (sh <- py_lshift 1 quant_bit ;;
     scales <- amap2 (sub (if use_pd then pd else np)) maxs mins ;;
     new_scales <- repeat_axis0 scales group_size ;;
     new_mins <- repeat_axis0 mins group_size ;;
     s <- group_shard_by new_scales x new_scales tp_rank tp_degree ;;
     m <- group_shard_by new_scales x new_mins tp_rank tp_degree ;;
     group_asymmetry_apply E np pd use_pd x (sh - 1) s m)
  /\
  (forall (c : nat) (rows : list (list E)),
     group_shard_by (Arr2 c rows) x (Arr2 c rows) tp_rank tp_degree
     = shard_slicer (Arr2 c rows) x tp_rank tp_degree)
  /\
  qdq_weight_dequant E np pd x quant_bit quant_axis scales
    tp_rank tp_degree use_pd
  = (sh <- py_lshift 1 (quant_bit - 1) ;;
     s <- channel_shard_by scales x scales tp_rank tp_degree ;;
     qdq_x <- qdq_apply E np pd use_pd x (sh - 1) s ;;
     Some (qdq_x, scales))
  /\
  asymmetry_qdq_weight_dequant E np pd x quant_bit quant_axis mins maxs
    tp_rank tp_degree use_pd
  = (sh <- py_lshift 1 quant_bit ;;
     scales <- amap2 (sub (if use_pd then pd else np)) maxs mins ;;
     s <- channel_shard_by scales x scales tp_rank tp_degree ;;
     m <- channel_shard_by scales x mins tp_rank tp_degree ;;
     qdq_x <- asymmetry_apply E np pd use_pd x (sh - 1) s m ;;
     Some (qdq_x, scales)).
Proof.
  split; [apply group_wise_dequant_symmetry_shard |].
  split; [apply group_wise_dequant_asymmetry_shard |].
  split.
  { intros c rows. apply group_shard_is_shard_slicer.
    left. intros v; discriminate. }
  split; [apply qdq_weight_dequant_shard |].
  apply asymmetry_qdq_weight_dequant_shard.
Qed.

(** C2 as stated fails on the channel-wise codec.  A row of two int8
    values with a scale per column, on rank 0 of 2: the last dimensions
    agree, the Shard Slicer would keep the first scale only, and
    [qdq_weight] multiplies by both. *)
Lemma qdq_weight_dequant_not_shard_slicer :
  let lib := ieee_backend float32 in
  let x := Arr2 2 [[of_int float32 1; of_int float32 2]] in
  let scales := Arr1 [of_int float32 1; of_int float32 2] in
  shard_slicer scales x 0 2 = Some (Arr1 [of_int float32 1]) /\
  qdq_weight_dequant spec_float lib lib x 8 (-1) scales 0 2 false
  <> (sh <- py_lshift 1 (8 - 1) ;;
      s <- shard_slicer scales x 0 2 ;;
      qdq_x <- qdq_apply spec_float lib lib false x (sh - 1) s ;;
      Some (qdq_x, scales)).
Proof.
  split; [reflexivity |]. vm_compute. discriminate.
Qed.

(** C4, as the code has it.  With [tp_rank = -1] the group-wise
    dequantizations use the repeated statistics unsliced, whatever
    [tp_degree] is.  The channel-wise dequantizations do not look at
    [tp_rank] to decide: they use the statistics unsliced whenever these
    are scalar or their last dimension is that of the data, for
    [tp_rank = -1] as for any other rank. *)
Theorem tp_rank_minus_one_unsliced (E : Type) (np pd : backend E)
  (x scales mins maxs : ndarray E)
  (quant_bit quant_axis group_size tp_rank tp_degree : Z) (use_pd : bool) :
  group_wise_dequant_symmetry E np pd x scales quant_bit group_size
    (-1) tp_degree use_pd
  = (_ <- py_lshift 1 quant_bit ;;
     sh <- py_lshift 1 (quant_bit - 1) ;;
     new_scales <- repeat_axis0 scales group_size ;;
     group_symmetry_apply E np pd use_pd x (sh - 1) new_scales)
  /\
  group_wise_dequant_asymmetry E np pd x mins maxs quant_bit group_size
    (-1) tp_degree use_pd
  = (sh <- py_lshift 1 quant_bit ;;
     ascales <- amap2 (sub (if use_pd then pd else np)) maxs mins ;;
     new_scales <- repeat_axis0 ascales group_size ;;
     new_mins <- repeat_axis0 mins group_size ;;
     group_asymmetry_apply E np pd use_pd x (sh - 1) new_scales new_mins)
  /\
  (rank0_or_same_last scales x = Some true ->
   qdq_weight_dequant E np pd x quant_bit quant_axis scales
     tp_rank tp_degree use_pd
   = (sh <- py_lshift 1 (quant_bit - 1) ;;
      qdq_x <- qdq_apply E np pd use_pd x (sh - 1) scales ;;
      Some (qdq_x, scales)))
  /\
  (forall ascales : ndarray E,
     amap2 (sub (if use_pd then pd else np)) maxs mins = Some ascales ->
     rank0_or_same_last ascales x = Some true ->
     asymmetry_qdq_weight_dequant E np pd x quant_bit quant_axis mins maxs
       tp_rank tp_degree use_pd
     = (sh <- py_lshift 1 quant_bit ;;
        qdq_x <- asymmetry_apply E np pd use_pd x (sh - 1) ascales mins ;;
        Some (qdq_x, ascales))).
Proof.
  rewrite group_wise_dequant_symmetry_shard, group_wise_dequant_asymmetry_shard,
    qdq_weight_dequant_shard, asymmetry_qdq_weight_dequant_shard.
  unfold group_shard_by, channel_shard_by. cbn [Z.eqb Pos.eqb bind].
  split; [reflexivity |]. split; [reflexivity |]. split.
  - intros ->. reflexivity.
  - intros ascales Hs Hr. rewrite Hs. cbn [bind]. rewrite Hr. reflexivity.
Qed.

(** The statement at the scales [[1, 2]], or the minima [[0, 1]] and the
    maxima [[1, 3]], of the 1 x 2 matrix [[1, 2]]. *)
Lemma tp_rank_minus_one_unsliced_witness :
  let lib := ieee_backend float32 in
  let f := of_int float32 in
  let x := Arr2 2 [[f 1; f 2]] in
  let scales := Arr1 [f 1; f 2] in
  let mins := Arr1 [f 0; f 1] in
  let maxs := Arr1 [f 1; f 3] in
  let ascales := Arr1 [f 1; f 2] in
  rank0_or_same_last scales x = Some true /\
  amap2 (sub lib) maxs mins = Some ascales /\
  qdq_weight_dequant spec_float lib lib x 8 (-1) scales (-1) 1 false
  = (sh <- py_lshift 1 (8 - 1) ;;
     qdq_x <- qdq_apply spec_float lib lib false x (sh - 1) scales ;;
     Some (qdq_x, scales)) /\
  asymmetry_qdq_weight_dequant spec_float lib lib x 8 (-1) mins maxs (-1) 1 false
  = (sh <- py_lshift 1 8 ;;
     qdq_x <- asymmetry_apply spec_float lib lib false x (sh - 1) ascales mins ;;
     Some (qdq_x, ascales)).
Proof.
  intros lib f x scales mins maxs ascales.
  assert (Hrow : rank0_or_same_last scales x = Some true) by reflexivity.
  assert (Hsub : amap2 (sub lib) maxs mins = Some ascales) by reflexivity.
  destruct (tp_rank_minus_one_unsliced spec_float lib lib x scales mins maxs
              8 (-1) 1 (-1) 1 false) as (_ & _ & Hsym & Hasym).
  split; [exact Hrow |]. split; [exact Hsub |].
  split; [exact (Hsym Hrow) |].
  exact (Hasym ascales Hsub Hrow).
Defined.

(** C4 as stated fails on the channel-wise codec.  One int8 value and two
    scales, so that the last dimensions differ, with [tp_rank = -1]: the
    slice [scales[-2:0]] is empty and so is the result, where the scales
    unsliced give a row of two values. *)
Lemma qdq_weight_dequant_minus_one_slices :
  let lib := ieee_backend float32 in
  let x := Arr2 1 [[of_int float32 1]] in
  let scales := Arr1 [of_int float32 1; of_int float32 2] in
  qdq_weight_dequant spec_float lib lib x 8 (-1) scales (-1) 1 false
  = Some (Arr2 0 [[]], scales) /\
  qdq_weight_dequant spec_float lib lib x 8 (-1) scales (-1) 1 false
  <> (sh <- py_lshift 1 (8 - 1) ;;
      qdq_x <- qdq_apply spec_float lib lib false x (sh - 1) scales ;;
      Some (qdq_x, scales)).
Proof.
  split; [reflexivity |]. vm_compute. discriminate.
Qed.

(* ================================================================== *)
(** * More on elementwise operations                                   *)
(* ================================================================== *)

Lemma amap_id {A : Type} (t : ndarray A) : amap (fun a => a) t = t.
Proof.
  destruct t as [a | v | c rows]; cbn [amap]; f_equal.
  - apply map_id.
  - rewrite <- (map_id rows) at 2. apply map_ext. intro r. apply map_id.
Qed.

Lemma zip_with_ext {A B C : Type} (f f' : A -> B -> C) (u : list A) (v : list B) :
  (forall a b, f a b = f' a b) -> zip_with f u v = zip_with f' u v.
Proof.
  intro H. revert v. induction u as [| a u IH]; intros [| b v]; cbn [zip_with];
    auto. now rewrite H, IH.
Qed.

Lemma broadcast1_map_args {A A' B B' C : Type} (f : A' -> B' -> C)
  (g : A -> A') (h : B -> B') (u : list A) (v : list B) :
  broadcast1 f (map g u) (map h v)
  = broadcast1 (fun a b => f (g a) (h b)) u v.
Proof.
  unfold broadcast1. rewrite !length_map, zip_with_map.
  destruct (Nat.eqb (length u) (length v)); [reflexivity |].
  destruct u as [| a [| a' u]], v as [| b [| b' v]]; cbn [map]; try reflexivity;
    now rewrite map_map.
Qed.

Lemma amap2_ext {A B C : Type} (f f' : A -> B -> C) (x : ndarray A)
  (y : ndarray B) :
  (forall a b, f a b = f' a b) -> amap2 f x y = amap2 f' x y.
Proof.
  intro H.
  assert (H1 : forall u v, broadcast1 f u v = broadcast1 f' u v)
    by (intros; now apply broadcast1_ext).
  destruct x as [a | u | c1 rows1], y as [b | v | c2 rows2]; cbn [amap2 amap];
    try (do 2 f_equal; try apply map_ext; intros;
         try apply map_ext; intros; apply H).
  - now rewrite H1.
  - now rewrite (map_ext _ _ (fun r => H1 u r)).
  - now rewrite (map_ext _ _ (fun r => H1 r v)).
  - now rewrite (broadcast1_ext _ _ rows1 rows2 H1).
Qed.

(** Elementwise operations on the operands of a broadcast operation go
    into it. *)
Lemma amap2_amap_args {A A' B B' C : Type} (f : A' -> B' -> C)
  (g : A -> A') (h : B -> B') (x : ndarray A) (y : ndarray B) :
  amap2 f (amap g x) (amap h y) = amap2 (fun a b => f (g a) (h b)) x y.
Proof.
  destruct x as [a | u | c1 rows1], y as [b | v | c2 rows2];
    cbn [amap2 amap]; rewrite ?length_map, ?map_map; try reflexivity;
    try (apply f_equal, f_equal, map_ext; intro r; now rewrite map_map).
  - now rewrite broadcast1_map_args.
  - now rewrite (map_ext _ _ (fun r => broadcast1_map_args f g h u r)).
  - now rewrite (map_ext _ _ (fun r => broadcast1_map_args f g h r v)).
  - rewrite broadcast1_map_args.
    now rewrite (broadcast1_ext _ _ rows1 rows2 (broadcast1_map_args f g h)).
Qed.


(* ================================================================== *)
(** * More on the packing codec                                        *)
(* ================================================================== *)

(** The two nibbles of a byte do not overlap: the bitwise OR adds them. *)
Lemma lor_nibbles (a r : Z) :
  0 <= r < 16 -> Z.lor (Z.shiftl a 4) r = a * 16 + r.
Proof.
  intro Hr.
  assert (Hl : Z.land (Z.shiftl a 4) r = 0).
  { apply Z.bits_inj'. intros n Hn.
    rewrite Z.land_spec, Z.bits_0.
    destruct (Z.ltb_spec n 4).
    - rewrite Z.shiftl_spec_low by assumption. reflexivity.
    - replace (Z.testbit r n) with false; [apply andb_false_r |].
      symmetry. destruct (Z.eq_dec r 0) as [-> | Hz]; [apply Z.bits_0 |].
      apply Z.bits_above_log2; [lia |].
      assert (Z.log2 r < 4) by (apply Z.log2_lt_pow2; lia). lia. }
  rewrite <- Z.lxor_lor by assumption.
  rewrite <- Z.add_nocarry_lxor by assumption.
  rewrite Z.shiftl_mul_pow2 by lia. reflexivity.
Qed.

Lemma land_15_mod (b : Z) : Z.land b 15 = b mod 16.
Proof.
  change (Z.land b 15) with (Z.land b (Z.ones 4)).
  now rewrite Z.land_ones by lia.
Qed.

(** The byte [merge_int4] makes of one pair. *)
Lemma merged_byte (a b : Z) :
  wrap_int8 (Z.lor (Z.shiftl a 4) (Z.land b 15))
  = (a * 16 + b mod 16 + 128) mod 256 - 128.
Proof.
  rewrite land_15_mod, lor_nibbles by (apply Z.mod_pos_bound; lia).
  reflexivity.
Qed.






(** X3. [merge_int4] validates nothing and keeps four bits of each
    operand: on any two integer arrays, the operands reduced modulo 16
    give the same result, and every byte of a result is an int8. *)
Theorem merge_int4_masks (x y : ndarray Z) :
  merge_int4 x y
  = merge_int4 (amap (fun a => a mod 16) x) (amap (fun b => b mod 16) y)
  /\
  match merge_int4 x y with
  | Some final => all_elems (fun b => -128 <= b <= 127) final
  | None => True
  end.
Proof.
  split.
  - unfold merge_int4. rewrite !amap_amap, !amap2_amap_args.
    rewrite !amap2_amap. apply amap2_ext. intros a b.
    rewrite !merged_byte, Z.mod_mod by lia. f_equal.
    rewrite (Z.div_mod a 16) at 1 by lia.
    replace (16 * (a / 16) + a mod 16) with (a mod 16 + (a / 16) * 16) by lia.
    rewrite Z.mul_add_distr_r.
    replace (a mod 16 * 16 + a / 16 * 16 * 16 + b mod 16 + 128)
      with (a mod 16 * 16 + b mod 16 + 128 + (a / 16) * 256) by lia.
    apply Z_mod_plus_full.
  - unfold merge_int4.
    destruct (amap2 Z.lor (amap (fun a => Z.shiftl a 4) x)
                (amap (fun b => Z.land b 15) y)) as [t |]; cbn [bind];
      [| exact I].
    apply all_elems_amap, all_elems_true. intro b. apply wrap_int8_range.
Qed.

(* ================================================================== *)
(** * The blocks of an axis                                            *)
(* ================================================================== *)

(** A slice with bounds in order and within the axis. *)
Lemma py_slice_within {A : Type} (l : list A) (lo hi : Z) :
  0 <= lo <= hi -> hi <= Z.of_nat (length l) ->
  py_slice l lo hi = firstn (Z.to_nat (hi - lo)) (skipn (Z.to_nat lo) l).
Proof.
  intros H1 H2. unfold py_slice, slice_bound.
  destruct (lo <? 0) eqn:E1; [apply Z.ltb_lt in E1; lia |].
  destruct (hi <? 0) eqn:E2; [apply Z.ltb_lt in E2; lia |].
  now rewrite !Z.min_l by lia.
Qed.

(** The length of a slice depends on the length of the axis only. *)
Lemma py_slice_length {A : Type} (l : list A) (lo hi : Z) :
  length (py_slice l lo hi)
  = length (py_slice (repeat tt (length l)) lo hi).
Proof.
  unfold py_slice. rewrite repeat_length, !length_firstn, !length_skipn.
  now rewrite repeat_length.
Qed.

Lemma py_slice_map {A B : Type} (f : A -> B) (l : list A) (lo hi : Z) :
  py_slice (map f l) lo hi = map f (py_slice l lo hi).
Proof.
  unfold py_slice. now rewrite length_map, skipn_map, firstn_map.
Qed.

Lemma py_slice_zip_with {A B C : Type} (f : A -> B -> C) (u : list A)
  (v : list B) (lo hi : Z) :
  length u = length v ->
  py_slice (zip_with f u v) lo hi
  = zip_with f (py_slice u lo hi) (py_slice v lo hi).
Proof.
  intro H. unfold py_slice.
  rewrite zip_with_length by assumption. rewrite <- H.
  now rewrite skipn_zip_with, firstn_zip_with.
Qed.

Lemma Forall_py_slice {A : Type} (P : A -> Prop) (l : list A) (lo hi : Z) :
  Forall P l -> Forall P (py_slice l lo hi).
Proof. intro H. unfold py_slice. now apply Forall_firstn, Forall_skipn. Qed.

(** The bounds of the blocks are in order and within the axis. *)
Lemma block_bounds_order (r n d : Z) :
  0 < d -> 0 <= n -> 0 <= r < d ->
  0 <= r * n / d <= (r + 1) * n / d /\ (r + 1) * n / d <= n.
Proof.
  intros Hd Hn Hr. repeat split.
  - apply Z.div_pos; nia.
  - apply Z.div_le_mono; nia.
  - apply Z.div_le_upper_bound; nia.
Qed.

(** A block has [n / d] entries, or one more. *)
Lemma block_bounds_balanced (r n d : Z) :
  0 < d -> 0 <= n -> 0 <= r ->
  n / d <= (r + 1) * n / d - r * n / d <= n / d + 1.
Proof.
  intros Hd Hn Hr.
  pose proof (Z.div_mod n d ltac:(lia)) as Hdm.
  pose proof (Z.mod_pos_bound n d Hd) as Hm.
  set (q := n / d) in *. set (m := n mod d) in *.
  assert (E1 : r * n = r * m + r * q * d) by (rewrite Hdm; ring).
  assert (E2 : (r + 1) * n = (r * m + m) + (r * q + q) * d) by (rewrite Hdm; ring).
  rewrite E1, E2, !Z.div_add by lia.
  assert (r * m / d <= (r * m + m) / d) by (apply Z.div_le_mono; lia).
  assert ((r * m + m) / d <= r * m / d + 1).
  { replace (r * m / d + 1) with ((r * m + 1 * d) / d)
      by (rewrite Z.div_add by lia; reflexivity).
    apply Z.div_le_mono; lia. }
  lia.
Qed.

Lemma firstn_plus {A : Type} (a b : nat) (l : list A) :
  firstn (a + b) l = firstn a l ++ firstn b (skipn a l).
Proof.
  revert l. induction a as [| a IH]; intros [| x l]; cbn [plus firstn skipn app];
    try reflexivity.
  - now rewrite firstn_nil.
  - now rewrite IH.
Qed.

(** The first [k] blocks of a list, one after the other, are its first
    [k * n // d] entries. *)
Lemma blocks_prefix {A : Type} (l : list A) (d : Z) (k : nat) :
  0 < d -> Z.of_nat k <= d ->
  concat (map (fun r => py_slice l (Z.of_nat r * Z.of_nat (length l) / d)
                          ((Z.of_nat r + 1) * Z.of_nat (length l) / d))
            (seq 0 k))
  = firstn (Z.to_nat (Z.of_nat k * Z.of_nat (length l) / d)) l.
Proof.
  intros Hd Hk. set (n := Z.of_nat (length l)). induction k as [| k IH].
  - cbn [seq map concat]. rewrite Z.mul_0_l, Z.div_0_l by lia. reflexivity.
  - rewrite seq_S, map_app, concat_app, IH by lia.
    cbn [map concat plus]. rewrite app_nil_r.
    destruct (block_bounds_order (Z.of_nat k) n d) as [[H1 H2] H3]; try lia.
    replace (Z.of_nat (S k)) with (Z.of_nat k + 1) by lia.
    rewrite py_slice_within by (fold n; lia).
    set (a := Z.of_nat k * n / d) in *.
    set (b := (Z.of_nat k + 1) * n / d) in *.
    replace (Z.to_nat b) with (Z.to_nat a + Z.to_nat (b - a))%nat by lia.
    now rewrite firstn_plus.
Qed.

Lemma blocks_concat {A : Type} (l : list A) (d : Z) :
  0 < d ->
  concat (map (fun r => py_slice l (Z.of_nat r * Z.of_nat (length l) / d)
                          ((Z.of_nat r + 1) * Z.of_nat (length l) / d))
            (seq 0 (Z.to_nat d)))
  = l.
Proof.
  intros Hd. rewrite blocks_prefix by lia.
  rewrite Z2Nat.id by lia. rewrite Z.mul_comm, Z.div_mul by lia.
  rewrite Nat2Z.id. apply firstn_all.
Qed.

Lemma block_bounds_nonzero (r n d : Z) :
  d <> 0 -> block_bounds r n d = Some (r * n / d, (r + 1) * n / d).
Proof.
  intro Hd. unfold block_bounds, py_floordiv.
  destruct (d =? 0) eqn:E; [apply Z.eqb_eq in E; contradiction | reflexivity].
Qed.

Lemma first_axis_block_vector {A : Type} (v : list A) (r d : Z) :
  d <> 0 ->
  first_axis_block (Arr1 v) r d
  = Some (Arr1 (py_slice v (r * Z.of_nat (length v) / d)
                  ((r + 1) * Z.of_nat (length v) / d))).
Proof.
  intro Hd. unfold first_axis_block, shape_first. cbn [shape bind].
  now rewrite block_bounds_nonzero.
Qed.

Lemma first_axis_block_matrix {A : Type} (c : nat) (rows : list (list A))
  (r d : Z) :
  d <> 0 ->
  first_axis_block (Arr2 c rows) r d
  = Some (Arr2 c (py_slice rows (r * Z.of_nat (length rows) / d)
                    ((r + 1) * Z.of_nat (length rows) / d))).
Proof.
  intro Hd. unfold first_axis_block, shape_first. cbn [shape bind].
  now rewrite block_bounds_nonzero.
Qed.

Lemma second_axis_block_matrix {A : Type} (c : nat) (rows : list (list A))
  (r d : Z) :
  d <> 0 ->
  second_axis_block (Arr2 c rows) r d
  = Some (Arr2 (length (py_slice (repeat tt c) (r * Z.of_nat c / d)
                          ((r + 1) * Z.of_nat c / d)))
            (map (fun row => py_slice row (r * Z.of_nat c / d)
                               ((r + 1) * Z.of_nat c / d)) rows)).
Proof.
  intro Hd. unfold second_axis_block, shape_last. cbn [shape rev app bind].
  now rewrite block_bounds_nonzero.
Qed.

Lemma block_length {A : Type} (l : list A) (r : nat) (d : Z) :
  0 < d -> Z.of_nat r < d ->
  let n := Z.of_nat (length l) in
  n / d
  <= Z.of_nat (length (py_slice l (Z.of_nat r * n / d) ((Z.of_nat r + 1) * n / d)))
  <= n / d + 1.
Proof.
  intros Hd Hr n.
  destruct (block_bounds_order (Z.of_nat r) n d) as [[H1 H2] H3]; try lia.
  pose proof (block_bounds_balanced (Z.of_nat r) n d Hd ltac:(lia) ltac:(lia)).
  rewrite py_slice_within by (fold n; lia).
  rewrite length_firstn, length_skipn. fold n. lia.
Qed.

(** X4. For a positive [tp_degree], the blocks
    [t[tp_rank * n // tp_degree : (tp_rank + 1) * n // tp_degree]] of the
    first axis of a vector or of a matrix, taken for the ranks
    [0 .. tp_degree - 1] in order, make up the array: no entry is lost and
    none is taken twice.  Each block has [n // tp_degree] entries or one
    more. *)
Theorem first_axis_blocks_partition {A : Type} (d : Z) :
  0 < d ->
  (forall v : list A,
     exists blocks,
       map (fun r => first_axis_block (Arr1 v) (Z.of_nat r) d) (seq 0 (Z.to_nat d))
       = map (fun b => Some (Arr1 b)) blocks /\
       concat blocks = v /\
       Forall (fun b => Z.of_nat (length v) / d <= Z.of_nat (length b)
                        <= Z.of_nat (length v) / d + 1) blocks)
  /\
  (forall (c : nat) (rows : list (list A)),
     exists blocks,
       map (fun r => first_axis_block (Arr2 c rows) (Z.of_nat r) d)
         (seq 0 (Z.to_nat d))
       = map (fun b => Some (Arr2 c b)) blocks /\
       concat blocks = rows /\
       Forall (fun b => Z.of_nat (length rows) / d <= Z.of_nat (length b)
                        <= Z.of_nat (length rows) / d + 1) blocks).
Proof.
  intro Hd.
  assert (G : forall (X : Type) (l : list X),
             let blocks :=
               map (fun r => py_slice l (Z.of_nat r * Z.of_nat (length l) / d)
                               ((Z.of_nat r + 1) * Z.of_nat (length l) / d))
                 (seq 0 (Z.to_nat d)) in
             concat blocks = l /\
             Forall (fun b => Z.of_nat (length l) / d <= Z.of_nat (length b)
                              <= Z.of_nat (length l) / d + 1) blocks).
  { intros X l blocks. split; [now apply blocks_concat |].
    apply Forall_map, Forall_forall. intros r Hr. apply in_seq in Hr.
    apply block_length; lia. }
  split.
  - intro v. destruct (G _ v) as [G1 G2]. eexists. split; [| split; eassumption].
    rewrite map_map. apply map_ext. intro r.
    apply first_axis_block_vector. lia.
  - intros c rows. destruct (G _ rows) as [G1 G2].
    eexists. split; [| split; eassumption].
    rewrite map_map. apply map_ext. intro r.
    apply first_axis_block_matrix. lia.
Qed.

Lemma first_axis_blocks_partition_witness :
  (forall v : list Z,
     exists blocks,
       map (fun r => first_axis_block (Arr1 v) (Z.of_nat r) 3) (seq 0 (Z.to_nat 3))
       = map (fun b => Some (Arr1 b)) blocks /\
       concat blocks = v /\
       Forall (fun b => Z.of_nat (length v) / 3 <= Z.of_nat (length b)
                        <= Z.of_nat (length v) / 3 + 1) blocks)
  /\
  (forall (c : nat) (rows : list (list Z)),
     exists blocks,
       map (fun r => first_axis_block (Arr2 c rows) (Z.of_nat r) 3)
         (seq 0 (Z.to_nat 3))
       = map (fun b => Some (Arr2 c b)) blocks /\
       concat blocks = rows /\
       Forall (fun b => Z.of_nat (length rows) / 3 <= Z.of_nat (length b)
                        <= Z.of_nat (length rows) / 3 + 1) blocks).
Proof. apply (first_axis_blocks_partition 3). lia. Defined.

Lemma nth_map_default {A B : Type} (f : A -> B) (l : list A) (i : nat) (a : A)
  (d : B) :
  nth_error l i = Some a -> nth i (map f l) d = f a.
Proof.
  revert i. induction l as [| x l IH]; intros [| i] H; cbn in *;
    try discriminate; [now injection H as -> | now apply IH].
Qed.

Lemma length_concat_sum {A : Type} (ls : list (list A)) :
  length (concat ls) = list_sum (map (@length A) ls).
Proof.
  induction ls as [| l ls IH]; cbn [concat map list_sum]; [reflexivity |].
  now rewrite length_app, IH.
Qed.

(** X5. For a positive [tp_degree], the blocks
    [t[:, tp_rank * c // tp_degree : (tp_rank + 1) * c // tp_degree]] of
    the second axis of a well-formed matrix of [c] columns, taken for the
    ranks [0 .. tp_degree - 1] in order, make up the matrix: their widths
    add up to [c], and every row of the matrix is the concatenation of
    the rows of the blocks at its index. *)
Theorem second_axis_blocks_partition {A : Type} (d : Z) (c : nat)
  (rows : list (list A)) :
  0 < d -> well_formed (Arr2 c rows) ->
  exists blocks : list (nat * list (list A)),
    map (fun r => second_axis_block (Arr2 c rows) (Z.of_nat r) d)
      (seq 0 (Z.to_nat d))
    = map (fun wb => Some (Arr2 (fst wb) (snd wb))) blocks /\
    list_sum (map fst blocks) = c /\
    Forall (fun wb => well_formed (Arr2 (fst wb) (snd wb)) /\
                      length (snd wb) = length rows) blocks /\
    forall i row, nth_error rows i = Some row ->
      concat (map (fun wb => nth i (snd wb) []) blocks) = row.
Proof.
  intros Hd Hwf. cbn [well_formed] in Hwf.
  exists (map (fun r =>
            (length (py_slice (repeat tt c) (Z.of_nat r * Z.of_nat c / d)
                       ((Z.of_nat r + 1) * Z.of_nat c / d)),
             map (fun row => py_slice row (Z.of_nat r * Z.of_nat c / d)
                               ((Z.of_nat r + 1) * Z.of_nat c / d)) rows))
          (seq 0 (Z.to_nat d))).
  split; [| split; [| split]].
  - rewrite map_map. apply map_ext. intro r. cbn [fst snd].
    apply second_axis_block_matrix. lia.
  - rewrite map_map. cbn [fst].
    pose proof (blocks_concat (repeat tt c) d Hd) as H.
    apply (f_equal (@length _)) in H.
    rewrite length_concat_sum, map_map, !repeat_length in H. exact H.
  - apply Forall_map, Forall_forall. intros r _. cbn [fst snd well_formed].
    split; [| apply length_map].
    apply Forall_map. revert Hwf. apply Forall_impl. intros row Hrow.
    rewrite py_slice_length. now rewrite Hrow.
  - intros i row Hi. rewrite map_map. cbn [snd].
    rewrite (map_ext _ (fun r => py_slice row (Z.of_nat r * Z.of_nat c / d)
                                   ((Z.of_nat r + 1) * Z.of_nat c / d)))
      by (intro r;
          apply (nth_map_default
                   (fun row0 => py_slice row0 (Z.of_nat r * Z.of_nat c / d)
                                  ((Z.of_nat r + 1) * Z.of_nat c / d)));
          exact Hi).
    assert (Hrow : length row = c).
    { rewrite Forall_forall in Hwf. apply Hwf.
      now apply nth_error_In with i. }
    rewrite <- Hrow. now apply blocks_concat.
Qed.

Lemma second_axis_blocks_partition_witness :
  exists blocks : list (nat * list (list Z)),
    map (fun r => second_axis_block (Arr2 3 [[1; 2; 3]; [4; 5; 6]]) (Z.of_nat r) 2)
      (seq 0 (Z.to_nat 2))
    = map (fun wb => Some (Arr2 (fst wb) (snd wb))) blocks /\
    list_sum (map fst blocks) = 3%nat /\
    Forall (fun wb => well_formed (Arr2 (fst wb) (snd wb)) /\
                      length (snd wb) = length [[1; 2; 3]; [4; 5; 6]]) blocks /\
    forall i row, nth_error [[1; 2; 3]; [4; 5; 6]] i = Some row ->
      concat (map (fun wb => nth i (snd wb) []) blocks) = row.
Proof.
  apply (second_axis_blocks_partition 2 3 [[1; 2; 3]; [4; 5; 6]]);
    [lia | cbn [well_formed]; repeat constructor].
Defined.

(* ================================================================== *)
(** * Degenerate tensor-parallel arguments                             *)
(* ================================================================== *)

Lemma first_axis_block_zero_degree {A : Type} (t : ndarray A) (r : Z) :
  first_axis_block t r 0 = None.
Proof. unfold first_axis_block. now destruct (shape_first t). Qed.

Lemma second_axis_block_zero_degree {A : Type} (t : ndarray A) (r : Z) :
  second_axis_block t r 0 = None.
Proof. unfold second_axis_block. now destruct (shape_last t). Qed.

Lemma group_shard_by_zero_degree {A B : Type} (S : ndarray A) (D : ndarray B)
  (t : ndarray A) (r : Z) :
  r <> -1 -> group_shard_by S D t r 0 = None.
Proof.
  intro Hr. unfold group_shard_by.
  destruct (r =? -1) eqn:E; [apply Z.eqb_eq in E; contradiction |].
  destruct (rank0_or_same_last S D) as [[|] |]; cbn [bind];
    auto using first_axis_block_zero_degree, second_axis_block_zero_degree.
Qed.

Lemma py_slice_all {A : Type} (l : list A) :
  py_slice l 0 (Z.of_nat (length l)) = l.
Proof.
  rewrite py_slice_within by lia. cbn [Z.to_nat skipn].
  rewrite Z.sub_0_r, Nat2Z.id. apply firstn_all.
Qed.

Lemma block_bounds_single (n : Z) : block_bounds 0 n 1 = Some (0, n).
Proof.
  rewrite block_bounds_nonzero by lia.
  now rewrite Z.mul_0_l, Z.add_0_l, Z.mul_1_l, Z.div_0_l, Z.div_1_r by lia.
Qed.

Lemma first_axis_block_single {A : Type} (t : ndarray A) :
  shape t <> [] -> first_axis_block t 0 1 = Some t.
Proof.
  intro H. unfold first_axis_block, shape_first.
  destruct t as [a | v | c rows]; cbn [shape] in *; [congruence | |];
    cbn [bind]; rewrite block_bounds_single; cbn [bind fst snd slice_first];
    now rewrite py_slice_all.
Qed.

Lemma second_axis_block_single {A : Type} (c : nat) (rows : list (list A)) :
  well_formed (Arr2 c rows) ->
  second_axis_block (Arr2 c rows) 0 1 = Some (Arr2 c rows).
Proof.
  intro Hwf. cbn [well_formed] in Hwf.
  unfold second_axis_block, shape_last. cbn [shape rev app bind].
  rewrite block_bounds_single. cbn [bind fst snd slice_second].
  rewrite <- (repeat_length tt c) at 2. rewrite py_slice_all, repeat_length.
  do 2 f_equal. rewrite <- (map_id rows) at 2. apply map_ext_Forall.
  revert Hwf. apply Forall_impl. intros row <-. apply py_slice_all.
Qed.

Lemma group_shard_by_single {A B : Type} (c : nat) (rows : list (list A))
  (D : ndarray B) (S : ndarray A) :
  well_formed (Arr2 c rows) -> shape D <> [] -> shape S <> [] ->
  group_shard_by S D (Arr2 c rows) 0 1 = Some (Arr2 c rows).
Proof.
  intros Hwf HD HS. unfold group_shard_by. change (0 =? -1) with false.
  cbv iota.
  assert (Hrow : exists b, rank0_or_same_last S D = Some b).
  { unfold rank0_or_same_last, shape_last.
    destruct S as [a | v | c' rows'], D as [b | w | c'' rows''];
      cbn [shape length Nat.eqb rev app bind] in *; try congruence; eauto. }
  destruct Hrow as [[|] ->]; cbn [bind].
  - now apply first_axis_block_single.
  - now apply second_axis_block_single.
Qed.

Lemma repeat_axis0_matrix {A : Type} (c : nat) (rows : list (list A)) (n : Z) :
  0 <= n ->
  repeat_axis0 (Arr2 c rows) n
  = Some (Arr2 c (flat_map (fun r => repeat r (Z.to_nat n)) rows)).
Proof.
  intro Hn. unfold repeat_axis0.
  destruct (n <? 0) eqn:E; [apply Z.ltb_lt in E; lia | reflexivity].
Qed.

Lemma repeat_axis0_negative {A : Type} (t : ndarray A) (n : Z) :
  n < 0 -> repeat_axis0 t n = None.
Proof.
  intro Hn. unfold repeat_axis0.
  destruct (n <? 0) eqn:E; [reflexivity | apply Z.ltb_ge in E; lia].
Qed.

Section DegenerateShards.

Variable E : Type.
Variable np pd : backend E.

(** X6. With [tp_degree = 0] and a [tp_rank] other than -1, the
    group-wise dequantization, symmetric or asymmetric, raises, whatever
    the arrays: the bounds of the slice divide by [tp_degree]. *)
Theorem group_wise_dequant_zero_degree (inputs mins maxs : ndarray E)
  (quant_bits group_size tp_rank : Z) (use_pd : bool) :
  tp_rank <> -1 ->
  group_wise_dequant_symmetry E np pd inputs mins quant_bits group_size
    tp_rank 0 use_pd = None /\
  group_wise_dequant_asymmetry E np pd inputs mins maxs quant_bits group_size
    tp_rank 0 use_pd = None.
Proof.
  intro Hr. split.
  - rewrite group_wise_dequant_symmetry_shard.
    do 3 (case_bind; [| reflexivity]).
    now rewrite group_shard_by_zero_degree.
  - rewrite group_wise_dequant_asymmetry_shard.
    do 4 (case_bind; [| reflexivity]).
    now rewrite group_shard_by_zero_degree.
Qed.

(** X7. The single shard of a run without tensor parallelism.  On data
    with at least one axis and well-formed matrices of statistics, the
    group-wise dequantization with [tp_rank = 0] and [tp_degree = 1] is
    the dequantization with [tp_rank = -1]: the block is the whole of the
    repeated statistics, whichever axis is sliced. *)
Theorem group_wise_dequant_single_shard (inputs : ndarray E) (c : nat)
  (mins_rows maxs_rows : list (list E))
  (quant_bits group_size tp_degree : Z) (use_pd : bool) :
  shape inputs <> [] ->
  well_formed (Arr2 c mins_rows) -> well_formed (Arr2 c maxs_rows) ->
  length mins_rows = length maxs_rows ->
  group_wise_dequant_symmetry E np pd inputs (Arr2 c mins_rows) quant_bits
    group_size 0 1 use_pd
  = group_wise_dequant_symmetry E np pd inputs (Arr2 c mins_rows) quant_bits
      group_size (-1) tp_degree use_pd
  /\
  group_wise_dequant_asymmetry E np pd inputs (Arr2 c mins_rows)
    (Arr2 c maxs_rows) quant_bits group_size 0 1 use_pd
  = group_wise_dequant_asymmetry E np pd inputs (Arr2 c mins_rows)
      (Arr2 c maxs_rows) quant_bits group_size (-1) tp_degree use_pd.
Proof.
  intros Hin Hmins Hmaxs Hlen. split.
  - rewrite !group_wise_dequant_symmetry_shard.
    do 2 (case_bind; [| reflexivity]).
    destruct (Z.ltb_spec group_size 0) as [Hg | Hg];
      [now rewrite repeat_axis0_negative |].
    rewrite repeat_axis0_matrix by assumption. cbn [bind].
    rewrite group_shard_by_single;
      [reflexivity | | assumption | discriminate].
    cbn [well_formed] in *. now apply Forall_flat_map_repeat.
  - rewrite !group_wise_dequant_asymmetry_shard.
    case_bind; [| reflexivity].
    rewrite amap2_same_shape
      by (cbn [shape]; auto; congruence).
    cbn [bind azip_with].
    destruct (Z.ltb_spec group_size 0) as [Hg | Hg];
      [now rewrite repeat_axis0_negative |].
    rewrite !repeat_axis0_matrix by assumption. cbn [bind].
    rewrite !group_shard_by_single;
      [reflexivity | | assumption | discriminate | | assumption | discriminate];
      cbn [well_formed] in *; apply Forall_flat_map_repeat; auto.
    apply zip_with_rows_well_formed; auto.
Qed.

End DegenerateShards.

Lemma group_wise_dequant_zero_degree_witness :
  let lib := ieee_backend float32 in
  let q := Arr2 1 [[of_int float32 3]; [of_int float32 (-2)]] in
  let s := Arr2 1 [[of_int float32 1]] in
  group_wise_dequant_symmetry spec_float lib lib q s 4 2 0 0 false = None /\
  group_wise_dequant_asymmetry spec_float lib lib q s s 4 2 0 0 false = None.
Proof.
  intros lib q s. apply (group_wise_dequant_zero_degree spec_float lib lib). lia.
Defined.

Lemma group_wise_dequant_single_shard_witness :
  let lib := ieee_backend float32 in
  let q := Arr2 1 [[of_int float32 3]; [of_int float32 (-2)]] in
  let lo := [[of_int float32 1]] in
  let hi := [[of_int float32 2]] in
  group_wise_dequant_symmetry spec_float lib lib q (Arr2 1 lo) 4 2 0 1 false
  = group_wise_dequant_symmetry spec_float lib lib q (Arr2 1 lo) 4 2 (-1) 1 false
  /\
  group_wise_dequant_asymmetry spec_float lib lib q (Arr2 1 lo) (Arr2 1 hi)
    4 2 0 1 false
  = group_wise_dequant_asymmetry spec_float lib lib q (Arr2 1 lo) (Arr2 1 hi)
      4 2 (-1) 1 false.
Proof.
  intros lib q lo hi.
  apply (group_wise_dequant_single_shard spec_float lib lib);
    cbn [shape well_formed length]; try discriminate; try reflexivity;
    repeat constructor.
Defined.

(* ================================================================== *)
(** * Dequantizing a shard                                             *)
(* ================================================================== *)

Lemma zip_with_repeat_r {A B C : Type} (f : A -> B -> C) (l : list A) (b : B) :
  zip_with f l (repeat b (length l)) = map (fun a => f a b) l.
Proof.
  induction l as [| a l IH]; cbn [length repeat zip_with map]; [reflexivity |].
  now rewrite IH.
Qed.

(** Slicing every row commutes with an operation on the rows. *)
Lemma slice_rows_zip_with {A B C : Type} (f : A -> B -> C) (c : nat)
  (R : list (list A)) (N : list (list B)) (lo hi : Z) :
  Forall (fun r => length r = c) R -> Forall (fun r => length r = c) N ->
  map (fun r => py_slice r lo hi) (zip_with (zip_with f) R N)
  = zip_with (zip_with f) (map (fun r => py_slice r lo hi) R)
      (map (fun r => py_slice r lo hi) N).
Proof.
  intros HR. revert N. induction HR as [| r R Hr _ IH]; intros [| n N] HN;
    cbn [zip_with map]; try reflexivity.
  inversion HN as [| ? ? Hn HN']; subst.
  rewrite IH by assumption. f_equal.
  apply py_slice_zip_with. congruence.
Qed.

Lemma slice_rows_well_formed {A : Type} (c : nat) (R : list (list A))
  (lo hi : Z) :
  Forall (fun r => length r = c) R ->
  Forall (fun r => length r = length (py_slice (repeat tt c) lo hi))
    (map (fun r => py_slice r lo hi) R).
Proof.
  intro H. apply Forall_map. revert H. apply Forall_impl. intros r Hr.
  rewrite py_slice_length. now rewrite Hr.
Qed.

Lemma py_slice_same_length {A B : Type} (u : list A) (v : list B) (lo hi : Z) :
  length u = length v ->
  length (py_slice u lo hi) = length (py_slice v lo hi).
Proof.
  intro H. rewrite (py_slice_length u), (py_slice_length v). now rewrite H.
Qed.

(** Two matrices of one shape. *)
Lemma amap2_matrices {A B C : Type} (f : A -> B -> C) (c : nat)
  (R : list (list A)) (N : list (list B)) :
  Forall (fun r => length r = c) R -> Forall (fun r => length r = c) N ->
  length R = length N ->
  amap2 f (Arr2 c R) (Arr2 c N) = Some (Arr2 c (zip_with (zip_with f) R N)).
Proof.
  intros HR HN HL. rewrite amap2_same_shape; [reflexivity | | assumption ..].
  cbn [shape]. congruence.
Qed.

(** [scales.unsqueeze(0).expand(x.shape)] on a vector of the width of
    the matrix [x]: one copy of the vector per row. *)
Lemma expand_unsqueeze_vector {A : Type} (v : list A) (n c : nat) :
  length v = c ->
  expand (Arr2 (length v) [v]) [n; c] = Some (Arr2 c (repeat v n)).
Proof.
  intro Hv. cbn [expand map sequence bind].
  unfold expand_axis at 1. rewrite Hv, Nat.eqb_refl. cbn [bind].
  unfold expand_axis. cbn [length].
  destruct (Nat.eqb_spec 1 n) as [<- | Hn]; reflexivity.
Qed.

Lemma repeat_well_formed {A : Type} (v : list A) (n c : nat) :
  length v = c -> Forall (fun r => length r = c) (repeat v n).
Proof.
  intro H. apply Forall_forall. intros r Hr.
  now rewrite (repeat_spec _ _ _ Hr).
Qed.

Lemma first_axis_block_matrix_inv {A : Type} (c : nat) (rows : list (list A))
  (r d : Z) (shard : ndarray A) :
  first_axis_block (Arr2 c rows) r d = Some shard ->
  d <> 0 /\
  shard = Arr2 c (py_slice rows (r * Z.of_nat (length rows) / d)
                    ((r + 1) * Z.of_nat (length rows) / d)).
Proof.
  intro H. destruct (Z.eq_dec d 0) as [-> | Hd].
  - now rewrite first_axis_block_zero_degree in H.
  - rewrite first_axis_block_matrix in H by assumption.
    injection H as <-. now split.
Qed.

Lemma second_axis_block_matrix_inv {A : Type} (c : nat) (rows : list (list A))
  (r d : Z) (shard : ndarray A) :
  second_axis_block (Arr2 c rows) r d = Some shard ->
  d <> 0 /\
  shard = Arr2 (length (py_slice (repeat tt c) (r * Z.of_nat c / d)
                          ((r + 1) * Z.of_nat c / d)))
            (map (fun row => py_slice row (r * Z.of_nat c / d)
                               ((r + 1) * Z.of_nat c / d)) rows).
Proof.
  intro H. destruct (Z.eq_dec d 0) as [-> | Hd].
  - now rewrite second_axis_block_zero_degree in H.
  - rewrite second_axis_block_matrix in H by assumption.
    injection H as <-. now split.
Qed.

(** The test [len(scales.shape) == 0 or x.shape[-1] == scales.shape[-1]]
    on a matrix and a vector. *)
Lemma rank0_or_same_last_matrix_vector {A B : Type} (v : list A) (c : nat)
  (rows : list (list B)) :
  rank0_or_same_last (Arr1 v) (Arr2 c rows) = Some (Nat.eqb c (length v)).
Proof.
  unfold rank0_or_same_last, shape_last. cbn [shape length Nat.eqb rev app bind].
  f_equal. destruct (Nat.eqb_spec c (length v)) as [-> | H].
  - apply Z.eqb_refl.
  - apply Z.eqb_neq. lia.
Qed.

Lemma rank0_or_same_last_matrices {A B : Type} (c1 c2 : nat)
  (rows1 : list (list A)) (rows2 : list (list B)) :
  rank0_or_same_last (Arr2 c1 rows1) (Arr2 c2 rows2) = Some (Nat.eqb c2 c1).
Proof.
  unfold rank0_or_same_last, shape_last. cbn [shape length Nat.eqb rev app bind].
  f_equal. destruct (Nat.eqb_spec c2 c1) as [-> | H].
  - apply Z.eqb_refl.
  - apply Z.eqb_neq. lia.
Qed.

Section ShardedDequantize.

Variable E : Type.
Variable np pd : backend E.

(** The channel-wise symmetric arithmetic on a matrix and one scale per
    column: the paddle branch, with its [unsqueeze] and [expand], and the
    numpy branch, with its broadcast, compute the same entries, each in
    the arithmetic of its library. *)
Lemma qdq_apply_matrix_vector (use_pd : bool) (c : nat) (rows : list (list E))
  (bnt : Z) (v : list E) :
  Forall (fun r => length r = c) rows -> length v = c ->
  let lib := if use_pd then pd else np in
  qdq_apply E np pd use_pd (Arr2 c rows) bnt (Arr1 v)
  = Some (Arr2 c
            (map (fun r =>
                    zip_with (fun q s =>
                                astype_float32 lib
                                  (mul lib (truediv_int lib q bnt) s))
                      r v) rows)).
Proof.
  intros Hwf Hv lib. subst lib. unfold qdq_apply. destruct use_pd.
  - cbn [shape unsqueeze0 bind]. rewrite expand_unsqueeze_vector by assumption.
    cbn [bind amap].
    rewrite amap2_matrices;
      [| apply Forall_map; revert Hwf; apply Forall_impl; intros r Hr;
         now rewrite length_map
       | now apply repeat_well_formed
       | now rewrite length_map, repeat_length].
    cbn [bind amap]. do 2 f_equal.
    rewrite <- (length_map (map (fun q => truediv_int pd q bnt)) rows).
    rewrite zip_with_repeat_r, !map_map. apply map_ext. intro r.
    rewrite <- (map_id v) at 1. now rewrite zip_with_map, map_zip_with.
  - cbn [amap].
    rewrite amap2_matrix_vector;
      [| apply Forall_map; revert Hwf; apply Forall_impl; intros r Hr;
         now rewrite length_map
       | assumption].
    cbn [bind amap]. do 2 f_equal. rewrite !map_map. apply map_ext. intro r.
    rewrite <- (map_id v) at 1. now rewrite zip_with_map, map_zip_with.
Qed.

(** The channel-wise asymmetric arithmetic on a matrix, one scale and one
    minimum per column. *)
Lemma asymmetry_apply_matrix_vector (use_pd : bool) (c : nat)
  (rows : list (list E)) (bnt : Z) (sv mv : list E) :
  Forall (fun r => length r = c) rows -> length sv = c -> length mv = c ->
  let lib := if use_pd then pd else np in
  asymmetry_apply E np pd use_pd (Arr2 c rows) bnt (Arr1 sv) (Arr1 mv)
  = Some (Arr2 c
            (map (fun r =>
                    zip_with (fun t m => astype_float32 lib (add lib t m))
                      (zip_with (fun q s => mul lib (truediv_int lib q bnt) s)
                         r sv) mv) rows)).
Proof.
  intros Hwf Hs Hm lib. subst lib. unfold asymmetry_apply.
  assert (Hwf' : forall lib : backend E,
             Forall (fun r => length r = c)
               (map (map (fun q => truediv_int lib q bnt)) rows)).
  { intro lib. apply Forall_map. revert Hwf. apply Forall_impl.
    intros r Hr. now rewrite length_map. }
  assert (Hmap : forall lib : backend E,
             map (fun r => zip_with (mul lib) r sv)
               (map (map (fun q => truediv_int lib q bnt)) rows)
             = map (fun r => zip_with (fun q s => mul lib (truediv_int lib q bnt) s)
                               r sv) rows).
  { intro lib. rewrite map_map. apply map_ext. intro r.
    rewrite <- (map_id sv) at 1. now rewrite zip_with_map. }
  assert (Hwf'' : forall lib : backend E,
             Forall (fun r => length r = c)
               (map (fun r => zip_with (fun q s => mul lib (truediv_int lib q bnt) s)
                                r sv) rows)).
  { intro lib. apply Forall_map. revert Hwf. apply Forall_impl.
    intros r Hr. rewrite zip_with_length; congruence. }
  destruct use_pd.
  - cbn [shape unsqueeze0 bind]. rewrite expand_unsqueeze_vector by assumption.
    cbn [bind amap].
    rewrite amap2_matrices;
      [| apply Hwf' | now apply repeat_well_formed
       | now rewrite length_map, repeat_length].
    cbn [bind].
    rewrite <- (length_map (map (fun q => truediv_int pd q bnt)) rows).
    rewrite zip_with_repeat_r, Hmap.
    rewrite amap2_matrix_vector by (auto using Hwf'').
    cbn [bind amap]. do 2 f_equal. rewrite !map_map. apply map_ext. intro r.
    now rewrite map_zip_with.
  - cbn [amap]. rewrite amap2_matrix_vector by auto. cbn [bind].
    rewrite Hmap. rewrite amap2_matrix_vector by (auto using Hwf'').
    cbn [bind amap]. do 2 f_equal. rewrite !map_map. apply map_ext. intro r.
    now rewrite map_zip_with.
Qed.

(** X8. Channel-wise dequantization of a block of rows.  [x] is a
    well-formed matrix of [c] columns with one scale (one minimum and one
    maximum) per column and [shard] is the block
    [x[tp_rank * n // tp_degree : (tp_rank + 1) * n // tp_degree]] of its
    rows.  Then [qdq_weight] and [asymmetry_qdq_weight] with [dequant]
    succeed on [x] and on [shard], on numpy and on paddle, and the result
    on [shard] is the same block of the result on [x]: the statistics are
    used unsliced. *)
Theorem channel_dequant_row_shard (use_pd : bool) (c : nat)
  (rows : list (list E)) (scales mins maxs : list E)
  (quant_bit quant_axis tp_rank tp_degree r d : Z) (shard : ndarray E) :
  well_formed (Arr2 c rows) ->
  length scales = c -> length mins = c -> length maxs = c ->
  1 <= quant_bit ->
  first_axis_block (Arr2 c rows) r d = Some shard ->
  (exists full out,
     qdq_weight_dequant E np pd (Arr2 c rows) quant_bit quant_axis (Arr1 scales)
       tp_rank tp_degree use_pd = Some (full, Arr1 scales) /\
     qdq_weight_dequant E np pd shard quant_bit quant_axis (Arr1 scales)
       r d use_pd = Some (out, Arr1 scales) /\
     first_axis_block full r d = Some out)
  /\
  (exists full out diff,
     asymmetry_qdq_weight_dequant E np pd (Arr2 c rows) quant_bit quant_axis
       (Arr1 mins) (Arr1 maxs) tp_rank tp_degree use_pd = Some (full, diff) /\
     asymmetry_qdq_weight_dequant E np pd shard quant_bit quant_axis
       (Arr1 mins) (Arr1 maxs) r d use_pd = Some (out, diff) /\
     first_axis_block full r d = Some out).
Proof.
  intros Hwf Hs Hmi Hma Hq Hshard. cbn [well_formed] in Hwf.
  apply first_axis_block_matrix_inv in Hshard. destruct Hshard as [Hd ->].
  set (lo := r * Z.of_nat (length rows) / d).
  set (hi := (r + 1) * Z.of_nat (length rows) / d).
  assert (Hwf' : Forall (fun row => length row = c) (py_slice rows lo hi))
    by now apply Forall_py_slice.
  split.
  - rewrite !qdq_weight_dequant_shard, py_lshift_1.
    destruct (Z.ltb_spec (quant_bit - 1) 0) as [Hneg | _]; [lia |].
    cbn [bind]. unfold channel_shard_by.
    rewrite !rank0_or_same_last_matrix_vector, Hs, Nat.eqb_refl. cbn [bind].
    rewrite !qdq_apply_matrix_vector by assumption. cbn [bind].
    eexists _, _. split; [reflexivity |]. split; [reflexivity |].
    rewrite first_axis_block_matrix by assumption.
    now rewrite length_map, py_slice_map.
  - rewrite !asymmetry_qdq_weight_dequant_shard, py_lshift_1.
    destruct (Z.ltb_spec quant_bit 0) as [Hneg | _]; [lia |].
    cbn [bind].
    rewrite (amap2_same_shape _ (Arr1 maxs) (Arr1 mins))
      by (cbn [shape well_formed]; auto; congruence).
    cbn [bind azip_with]. unfold channel_shard_by.
    assert (Hsc : length (zip_with (sub (if use_pd then pd else np)) maxs mins)
                  = c) by (rewrite zip_with_length; congruence).
    rewrite !rank0_or_same_last_matrix_vector, Hsc, Nat.eqb_refl. cbn [bind].
    rewrite !asymmetry_apply_matrix_vector by assumption. cbn [bind].
    eexists _, _, _. split; [reflexivity |]. split; [reflexivity |].
    rewrite first_axis_block_matrix by assumption.
    now rewrite length_map, py_slice_map.
Qed.

(** X9. Channel-wise dequantization of a block of columns.  [x] is a
    well-formed matrix of [c] columns with one scale (one minimum and one
    maximum) per column and [shard] is the block
    [x[:, tp_rank * c // tp_degree : (tp_rank + 1) * c // tp_degree]] of
    its columns, narrower than [x].  Then [qdq_weight] and
    [asymmetry_qdq_weight] with [dequant] succeed on [shard], on numpy and
    on paddle, with the statistics of the whole of [x], and the result is
    the same block of columns of the result on [x]: the statistics are
    sliced as the data was. *)
Theorem channel_dequant_column_shard (use_pd : bool) (c : nat)
  (rows : list (list E)) (scales mins maxs : list E)
  (quant_bit quant_axis tp_rank tp_degree r d : Z) (shard : ndarray E) :
  well_formed (Arr2 c rows) ->
  length scales = c -> length mins = c -> length maxs = c ->
  1 <= quant_bit ->
  second_axis_block (Arr2 c rows) r d = Some shard ->
  shape shard <> [length rows; c] ->
  (exists full out,
     qdq_weight_dequant E np pd (Arr2 c rows) quant_bit quant_axis (Arr1 scales)
       tp_rank tp_degree use_pd = Some (full, Arr1 scales) /\
     qdq_weight_dequant E np pd shard quant_bit quant_axis (Arr1 scales)
       r d use_pd = Some (out, Arr1 scales) /\
     second_axis_block full r d = Some out)
  /\
  (exists full out diff,
     asymmetry_qdq_weight_dequant E np pd (Arr2 c rows) quant_bit quant_axis
       (Arr1 mins) (Arr1 maxs) tp_rank tp_degree use_pd = Some (full, diff) /\
     asymmetry_qdq_weight_dequant E np pd shard quant_bit quant_axis
       (Arr1 mins) (Arr1 maxs) r d use_pd = Some (out, diff) /\
     second_axis_block full r d = Some out).
Proof.
  intros Hwf Hs Hmi Hma Hq Hshard Hnarrow. cbn [well_formed] in Hwf.
  apply second_axis_block_matrix_inv in Hshard. destruct Hshard as [Hd ->].
  set (lo := r * Z.of_nat c / d) in *.
  set (hi := (r + 1) * Z.of_nat c / d) in *.
  set (c' := length (py_slice (repeat tt c) lo hi)) in *.
  assert (Hc' : Nat.eqb c' c = false).
  { apply Nat.eqb_neq. intros Hc. apply Hnarrow. cbn [shape].
    now rewrite length_map, Hc. }
  assert (Hwf' : Forall (fun row => length row = c')
                   (map (fun row => py_slice row lo hi) rows))
    by now apply slice_rows_well_formed.
  assert (Hlen : forall v : list E, length v = c ->
                   length (py_slice v lo hi) = c').
  { intros v Hv. rewrite py_slice_length. now rewrite Hv. }
  split.
  - rewrite !qdq_weight_dequant_shard, py_lshift_1.
    destruct (Z.ltb_spec (quant_bit - 1) 0) as [Hneg | _]; [lia |].
    cbn [bind]. unfold channel_shard_by.
    rewrite !rank0_or_same_last_matrix_vector, Hs, Nat.eqb_refl, Hc'.
    cbn [bind]. rewrite first_axis_block_vector by assumption.
    rewrite Hs. fold lo hi. cbn [bind].
    rewrite !qdq_apply_matrix_vector by auto. cbn [bind].
    eexists _, _. split; [reflexivity |]. split; [reflexivity |].
    rewrite second_axis_block_matrix by assumption. fold lo hi c'.
    do 2 f_equal. rewrite !map_map. apply map_ext_Forall.
    revert Hwf. apply Forall_impl. intros row Hrow.
    apply py_slice_zip_with. congruence.
  - rewrite !asymmetry_qdq_weight_dequant_shard, py_lshift_1.
    destruct (Z.ltb_spec quant_bit 0) as [Hneg | _]; [lia |].
    cbn [bind].
    rewrite (amap2_same_shape _ (Arr1 maxs) (Arr1 mins))
      by (cbn [shape well_formed]; auto; congruence).
    cbn [bind azip_with]. unfold channel_shard_by.
    assert (Hsc : length (zip_with (sub (if use_pd then pd else np)) maxs mins)
                  = c) by (rewrite zip_with_length; congruence).
    rewrite !rank0_or_same_last_matrix_vector, Hsc, Nat.eqb_refl, Hc'.
    cbn [bind]. rewrite !first_axis_block_vector by assumption.
    rewrite Hsc, Hmi. fold lo hi. cbn [bind].
    rewrite !asymmetry_apply_matrix_vector by auto. cbn [bind].
    eexists _, _, _. split; [reflexivity |]. split; [reflexivity |].
    rewrite second_axis_block_matrix by assumption. fold lo hi c'.
    do 2 f_equal. rewrite !map_map. apply map_ext_Forall.
    revert Hwf. apply Forall_impl. intros row Hrow.
    rewrite py_slice_zip_with by (rewrite zip_with_length; congruence).
    f_equal. apply py_slice_zip_with. congruence.
Qed.

(** The group-wise arithmetic on two (three) matrices of one shape. *)
Lemma group_symmetry_apply_matrices (use_pd : bool) (c : nat)
  (rows N : list (list E)) (bnt : Z) :
  Forall (fun r => length r = c) rows -> Forall (fun r => length r = c) N ->
  length rows = length N ->
  let lib := if use_pd then pd else np in
  group_symmetry_apply E np pd use_pd (Arr2 c rows) bnt (Arr2 c N)
  = Some (Arr2 c
            (zip_with
               (zip_with (fun q s =>
                            truediv_int lib (mul lib (astype_float32 lib q) s) bnt))
               rows N)).
Proof.
  intros Hwf HN HL lib. unfold group_symmetry_apply. fold lib. cbn [amap].
  rewrite amap2_matrices;
    [| apply Forall_map; revert Hwf; apply Forall_impl; intros r Hr;
       now rewrite length_map
     | assumption | now rewrite length_map].
  cbn [bind amap]. do 2 f_equal.
  rewrite <- (map_id N) at 1. rewrite zip_with_map, map_zip_with.
  apply zip_with_ext. intros r n.
  rewrite <- (map_id n) at 1. now rewrite zip_with_map, map_zip_with.
Qed.

Lemma group_asymmetry_apply_matrices (use_pd : bool) (c : nat)
  (rows NS NM : list (list E)) (qmax : Z) :
  Forall (fun r => length r = c) rows -> Forall (fun r => length r = c) NS ->
  Forall (fun r => length r = c) NM ->
  length rows = length NS -> length rows = length NM ->
  let lib := if use_pd then pd else np in
  group_asymmetry_apply E np pd use_pd (Arr2 c rows) qmax (Arr2 c NS) (Arr2 c NM)
  = Some (Arr2 c
            (zip_with (zip_with (add lib))
               (zip_with
                  (zip_with (fun q s =>
                               mul lib (truediv_int lib (astype_float32 lib q) qmax) s))
                  rows NS)
               NM)).
Proof.
  intros Hwf HS HM HLS HLM lib. unfold group_asymmetry_apply. fold lib.
  cbn [amap].
  rewrite amap2_matrices;
    [| apply Forall_map; revert Hwf; apply Forall_impl; intros r Hr;
       now rewrite length_map
     | assumption | now rewrite length_map].
  cbn [bind].
  assert (Hz : zip_with (zip_with (mul lib))
                 (map (map (fun v => truediv_int lib (astype_float32 lib v) qmax))
                    rows) NS
               = zip_with
                   (zip_with (fun q s =>
                                mul lib (truediv_int lib (astype_float32 lib q) qmax) s))
                   rows NS).
  { rewrite <- (map_id NS) at 1. rewrite zip_with_map.
    apply zip_with_ext. intros r n.
    rewrite <- (map_id n) at 1. now rewrite zip_with_map. }
  rewrite Hz.
  rewrite amap2_matrices;
    [reflexivity | now apply zip_with_rows_well_formed | assumption |].
  rewrite zip_with_length; congruence.
Qed.

(** X10. Group-wise dequantization of a block of rows.  [x] is a
    well-formed quantized matrix of [c] columns whose rows make groups of
    [group_size] rows, with one row of statistics per group, and [shard]
    is the block of the rows of [x] of a rank other than -1.  Then the
    dequantization of [shard] with this rank and the statistics of the
    whole of [x] is the same block of rows of the dequantization of [x]
    with [tp_rank = -1], for the symmetric and for the asymmetric
    codec. *)
Theorem group_wise_dequant_row_shard (use_pd : bool) (c : nat)
  (rows scales mins maxs : list (list E))
  (quant_bits group_size tp_rank tp_degree any_degree : Z) (shard : ndarray E) :
  well_formed (Arr2 c rows) -> well_formed (Arr2 c scales) ->
  well_formed (Arr2 c mins) -> well_formed (Arr2 c maxs) ->
  0 <= group_size ->
  length rows = (length scales * Z.to_nat group_size)%nat ->
  length mins = length scales -> length maxs = length scales ->
  1 <= quant_bits -> tp_rank <> -1 ->
  first_axis_block (Arr2 c rows) tp_rank tp_degree = Some shard ->
  (exists full out,
     group_wise_dequant_symmetry E np pd (Arr2 c rows) (Arr2 c scales)
       quant_bits group_size (-1) any_degree use_pd = Some full /\
     group_wise_dequant_symmetry E np pd shard (Arr2 c scales)
       quant_bits group_size tp_rank tp_degree use_pd = Some out /\
     first_axis_block full tp_rank tp_degree = Some out)
  /\
  (exists full out,
     group_wise_dequant_asymmetry E np pd (Arr2 c rows) (Arr2 c mins)
       (Arr2 c maxs) quant_bits group_size (-1) any_degree use_pd = Some full /\
     group_wise_dequant_asymmetry E np pd shard (Arr2 c mins) (Arr2 c maxs)
       quant_bits group_size tp_rank tp_degree use_pd = Some out /\
     first_axis_block full tp_rank tp_degree = Some out).
Proof.
  intros Hwf Hsc Hmi Hma Hg Hrows Hlmi Hlma Hq Hr Hshard.
  cbn [well_formed] in *.
  apply first_axis_block_matrix_inv in Hshard. destruct Hshard as [Hd ->].
  set (lo := tp_rank * Z.of_nat (length rows) / tp_degree).
  set (hi := (tp_rank + 1) * Z.of_nat (length rows) / tp_degree).
  assert (Hwf' : Forall (fun row => length row = c) (py_slice rows lo hi))
    by now apply Forall_py_slice.
  assert (Hr' : (tp_rank =? -1) = false) by now apply Z.eqb_neq.
  assert (HN : forall stats : list (list E),
             Forall (fun row => length row = c) stats ->
             length stats = length scales ->
             let N := flat_map (fun row => repeat row (Z.to_nat group_size)) stats in
             Forall (fun row => length row = c) N /\
             length rows = length N /\
             Forall (fun row => length row = c) (py_slice N lo hi) /\
             length (py_slice rows lo hi) = length (py_slice N lo hi) /\
             first_axis_block (Arr2 c N) tp_rank tp_degree
             = Some (Arr2 c (py_slice N lo hi))).
  { intros stats Hst Hlst N.
    assert (H1 : Forall (fun row => length row = c) N)
      by now apply Forall_flat_map_repeat.
    assert (H2 : length rows = length N)
      by (unfold N; rewrite flat_map_repeat_length; congruence).
    repeat split; auto.
    - now apply Forall_py_slice.
    - now apply py_slice_same_length.
    - rewrite first_axis_block_matrix by assumption. now rewrite <- H2. }
  split.
  - rewrite !group_wise_dequant_symmetry_shard, !py_lshift_1.
    destruct (Z.ltb_spec quant_bits 0) as [Hneg | _]; [lia |].
    destruct (Z.ltb_spec (quant_bits - 1) 0) as [Hneg | _]; [lia |].
    cbn [bind]. rewrite repeat_axis0_matrix by assumption. cbn [bind].
    destruct (HN scales Hsc eq_refl) as (N1 & N2 & N3 & N4 & N5).
    unfold group_shard_by. rewrite Hr'. change (-1 =? -1) with true. cbv iota.
    rewrite rank0_or_same_last_matrices, Nat.eqb_refl. cbn [bind].
    rewrite N5. cbn [bind].
    rewrite !group_symmetry_apply_matrices by assumption.
    eexists _, _. split; [reflexivity |]. split; [reflexivity |].
    rewrite first_axis_block_matrix by assumption.
    rewrite zip_with_length by assumption. fold lo hi.
    now rewrite py_slice_zip_with.
  - rewrite !group_wise_dequant_asymmetry_shard, !py_lshift_1.
    destruct (Z.ltb_spec quant_bits 0) as [Hneg | _]; [lia |].
    cbn [bind].
    rewrite amap2_matrices by (auto; congruence). cbn [bind].
    rewrite !repeat_axis0_matrix by assumption. cbn [bind].
    destruct (HN mins Hmi Hlmi) as (M1 & M2 & M3 & M4 & M5).
    destruct (HN (zip_with (zip_with (sub (if use_pd then pd else np))) maxs mins))
      as (N1 & N2 & N3 & N4 & N5).
    { now apply zip_with_rows_well_formed. }
    { rewrite zip_with_length; congruence. }
    unfold group_shard_by. rewrite Hr'. change (-1 =? -1) with true. cbv iota.
    rewrite rank0_or_same_last_matrices, Nat.eqb_refl. cbn [bind].
    rewrite N5, M5. cbn [bind].
    rewrite !group_asymmetry_apply_matrices by assumption.
    eexists _, _. split; [reflexivity |]. split; [reflexivity |].
    rewrite first_axis_block_matrix by assumption.
    rewrite !zip_with_length by (rewrite ?zip_with_length; congruence).
    fold lo hi.
    rewrite py_slice_zip_with by (rewrite zip_with_length; congruence).
    now rewrite py_slice_zip_with.
Qed.

(** X11. Group-wise dequantization of a block of columns.  [x] is a
    well-formed quantized matrix of [c] columns whose rows make groups of
    [group_size] rows, with one row of statistics per group, and [shard]
    is the block of the columns of [x] of a rank other than -1, narrower
    than [x].  Then the dequantization of [shard] with this rank and the
    statistics of the whole of [x] is the same block of columns of the
    dequantization of [x] with [tp_rank = -1], for the symmetric and for
    the asymmetric codec. *)
Theorem group_wise_dequant_column_shard (use_pd : bool) (c : nat)
  (rows scales mins maxs : list (list E))
  (quant_bits group_size tp_rank tp_degree any_degree : Z) (shard : ndarray E) :
  well_formed (Arr2 c rows) -> well_formed (Arr2 c scales) ->
  well_formed (Arr2 c mins) -> well_formed (Arr2 c maxs) ->
  0 <= group_size ->
  length rows = (length scales * Z.to_nat group_size)%nat ->
  length mins = length scales -> length maxs = length scales ->
  1 <= quant_bits -> tp_rank <> -1 ->
  second_axis_block (Arr2 c rows) tp_rank tp_degree = Some shard ->
  shape shard <> [length rows; c] ->
  (exists full out,
     group_wise_dequant_symmetry E np pd (Arr2 c rows) (Arr2 c scales)
       quant_bits group_size (-1) any_degree use_pd = Some full /\
     group_wise_dequant_symmetry E np pd shard (Arr2 c scales)
       quant_bits group_size tp_rank tp_degree use_pd = Some out /\
     second_axis_block full tp_rank tp_degree = Some out)
  /\
  (exists full out,
     group_wise_dequant_asymmetry E np pd (Arr2 c rows) (Arr2 c mins)
       (Arr2 c maxs) quant_bits group_size (-1) any_degree use_pd = Some full /\
     group_wise_dequant_asymmetry E np pd shard (Arr2 c mins) (Arr2 c maxs)
       quant_bits group_size tp_rank tp_degree use_pd = Some out /\
     second_axis_block full tp_rank tp_degree = Some out).
Proof.
  intros Hwf Hsc Hmi Hma Hg Hrows Hlmi Hlma Hq Hr Hshard Hnarrow.
  cbn [well_formed] in *.
  apply second_axis_block_matrix_inv in Hshard. destruct Hshard as [Hd ->].
  set (lo := tp_rank * Z.of_nat c / tp_degree) in *.
  set (hi := (tp_rank + 1) * Z.of_nat c / tp_degree) in *.
  set (c' := length (py_slice (repeat tt c) lo hi)) in *.
  set (sl := fun X : Type => fun row : list X => py_slice row lo hi).
  assert (Hc' : Nat.eqb c' c = false).
  { apply Nat.eqb_neq. intros Hc. apply Hnarrow. cbn [shape].
    now rewrite length_map, Hc. }
  assert (Hwf' : Forall (fun row => length row = c') (map (sl E) rows))
    by now apply slice_rows_well_formed.
  assert (Hr' : (tp_rank =? -1) = false) by now apply Z.eqb_neq.
  assert (HN : forall stats : list (list E),
             Forall (fun row => length row = c) stats ->
             length stats = length scales ->
             let N := flat_map (fun row => repeat row (Z.to_nat group_size)) stats in
             Forall (fun row => length row = c) N /\
             length rows = length N /\
             Forall (fun row => length row = c') (map (sl E) N) /\
             length (map (sl E) rows) = length (map (sl E) N) /\
             second_axis_block (Arr2 c N) tp_rank tp_degree
             = Some (Arr2 c' (map (sl E) N))).
  { intros stats Hst Hlst N.
    assert (H1 : Forall (fun row => length row = c) N)
      by now apply Forall_flat_map_repeat.
    assert (H2 : length rows = length N)
      by (unfold N; rewrite flat_map_repeat_length; congruence).
    repeat split; auto.
    - now apply slice_rows_well_formed.
    - now rewrite !length_map.
    - now rewrite second_axis_block_matrix by assumption. }
  split.
  - rewrite !group_wise_dequant_symmetry_shard, !py_lshift_1.
    destruct (Z.ltb_spec quant_bits 0) as [Hneg | _]; [lia |].
    destruct (Z.ltb_spec (quant_bits - 1) 0) as [Hneg | _]; [lia |].
    cbn [bind]. rewrite repeat_axis0_matrix by assumption. cbn [bind].
    destruct (HN scales Hsc eq_refl) as (N1 & N2 & N3 & N4 & N5).
    unfold group_shard_by. rewrite Hr'. change (-1 =? -1) with true. cbv iota.
    rewrite rank0_or_same_last_matrices, Hc'. cbn [bind].
    rewrite N5. cbn [bind].
    rewrite !group_symmetry_apply_matrices by assumption.
    eexists _, _. split; [reflexivity |]. split; [reflexivity |].
    rewrite second_axis_block_matrix by assumption. fold lo hi c'.
    do 2 f_equal. now apply slice_rows_zip_with with c.
  - rewrite !group_wise_dequant_asymmetry_shard, !py_lshift_1.
    destruct (Z.ltb_spec quant_bits 0) as [Hneg | _]; [lia |].
    cbn [bind].
    rewrite amap2_matrices by (auto; congruence). cbn [bind].
    rewrite !repeat_axis0_matrix by assumption. cbn [bind].
    destruct (HN mins Hmi Hlmi) as (M1 & M2 & M3 & M4 & M5).
    destruct (HN (zip_with (zip_with (sub (if use_pd then pd else np))) maxs mins))
      as (N1 & N2 & N3 & N4 & N5).
    { now apply zip_with_rows_well_formed. }
    { rewrite zip_with_length; congruence. }
    unfold group_shard_by. rewrite Hr'. change (-1 =? -1) with true. cbv iota.
    rewrite rank0_or_same_last_matrices, Hc'. cbn [bind].
    rewrite N5, M5. cbn [bind].
    rewrite !group_asymmetry_apply_matrices by assumption.
    eexists _, _. split; [reflexivity |]. split; [reflexivity |].
    rewrite second_axis_block_matrix by assumption. fold lo hi c'.
    do 2 f_equal.
    rewrite (slice_rows_zip_with _ c)
      by (try apply zip_with_rows_well_formed; assumption).
    f_equal. now apply slice_rows_zip_with with c.
Qed.

End ShardedDequantize.

Lemma channel_dequant_row_shard_witness :
  let lib := ieee_backend float32 in
  let f := of_int float32 in
  let x := Arr2 2 [[f 127; f (-64)]; [f 0; f 32]] in
  let shard := Arr2 2 [[f 0; f 32]] in
  (exists full out,
     qdq_weight_dequant spec_float lib lib x 8 (-1) (Arr1 [f 2; f 4]) (-1) 1 false
     = Some (full, Arr1 [f 2; f 4]) /\
     qdq_weight_dequant spec_float lib lib shard 8 (-1) (Arr1 [f 2; f 4]) 1 2 false
     = Some (out, Arr1 [f 2; f 4]) /\
     first_axis_block full 1 2 = Some out)
  /\
  (exists full out diff,
     asymmetry_qdq_weight_dequant spec_float lib lib x 8 (-1)
       (Arr1 [f (-1); f 0]) (Arr1 [f 2; f 4]) (-1) 1 false = Some (full, diff) /\
     asymmetry_qdq_weight_dequant spec_float lib lib shard 8 (-1)
       (Arr1 [f (-1); f 0]) (Arr1 [f 2; f 4]) 1 2 false = Some (out, diff) /\
     first_axis_block full 1 2 = Some out).
Proof.
  intros lib f x shard.
  apply (channel_dequant_row_shard spec_float lib lib);
    cbn [well_formed length]; try reflexivity; try lia; repeat constructor.
Defined.

Lemma channel_dequant_column_shard_witness :
  let lib := ieee_backend float32 in
  let f := of_int float32 in
  let x := Arr2 2 [[f 127; f (-64)]; [f 0; f 32]] in
  let shard := Arr2 1 [[f (-64)]; [f 32]] in
  (exists full out,
     qdq_weight_dequant spec_float lib lib x 8 (-1) (Arr1 [f 2; f 4]) (-1) 1 false
     = Some (full, Arr1 [f 2; f 4]) /\
     qdq_weight_dequant spec_float lib lib shard 8 (-1) (Arr1 [f 2; f 4]) 1 2 false
     = Some (out, Arr1 [f 2; f 4]) /\
     second_axis_block full 1 2 = Some out)
  /\
  (exists full out diff,
     asymmetry_qdq_weight_dequant spec_float lib lib x 8 (-1)
       (Arr1 [f (-1); f 0]) (Arr1 [f 2; f 4]) (-1) 1 false = Some (full, diff) /\
     asymmetry_qdq_weight_dequant spec_float lib lib shard 8 (-1)
       (Arr1 [f (-1); f 0]) (Arr1 [f 2; f 4]) 1 2 false = Some (out, diff) /\
     second_axis_block full 1 2 = Some out).
Proof.
  intros lib f x shard.
  apply (channel_dequant_column_shard spec_float lib lib);
    cbn [well_formed length shape]; try reflexivity; try lia;
    try discriminate; repeat constructor.
Defined.

Lemma group_wise_dequant_row_shard_witness :
  let lib := ieee_backend float32 in
  let f := of_int float32 in
  let x := Arr2 2 [[f 7; f (-4)]; [f 0; f 3]; [f 1; f 1]; [f (-8); f 2]] in
  let shard := Arr2 2 [[f 1; f 1]; [f (-8); f 2]] in
  let lo := Arr2 2 [[f 2; f 4]; [f 1; f 3]] in
  let hi := Arr2 2 [[f 5; f 6]; [f 7; f 8]] in
  (exists full out,
     group_wise_dequant_symmetry spec_float lib lib x lo 4 2 (-1) 1 false
     = Some full /\
     group_wise_dequant_symmetry spec_float lib lib shard lo 4 2 1 2 false
     = Some out /\
     first_axis_block full 1 2 = Some out)
  /\
  (exists full out,
     group_wise_dequant_asymmetry spec_float lib lib x lo hi 4 2 (-1) 1 false
     = Some full /\
     group_wise_dequant_asymmetry spec_float lib lib shard lo hi 4 2 1 2 false
     = Some out /\
     first_axis_block full 1 2 = Some out).
Proof.
  intros lib f x shard lo hi.
  apply (group_wise_dequant_row_shard spec_float lib lib);
    cbn [well_formed length]; try reflexivity; try lia;
    try discriminate; repeat constructor.
Defined.

Lemma group_wise_dequant_column_shard_witness :
  let lib := ieee_backend float32 in
  let f := of_int float32 in
  let x := Arr2 2 [[f 7; f (-4)]; [f 0; f 3]; [f 1; f 1]; [f (-8); f 2]] in
  let shard := Arr2 1 [[f 7]; [f 0]; [f 1]; [f (-8)]] in
  let lo := Arr2 2 [[f 2; f 4]; [f 1; f 3]] in
  let hi := Arr2 2 [[f 5; f 6]; [f 7; f 8]] in
  (exists full out,
     group_wise_dequant_symmetry spec_float lib lib x lo 4 2 (-1) 1 false
     = Some full /\
     group_wise_dequant_symmetry spec_float lib lib shard lo 4 2 0 2 false
     = Some out /\
     second_axis_block full 0 2 = Some out)
  /\
  (exists full out,
     group_wise_dequant_asymmetry spec_float lib lib x lo hi 4 2 (-1) 1 false
     = Some full /\
     group_wise_dequant_asymmetry spec_float lib lib shard lo hi 4 2 0 2 false
     = Some out /\
     second_axis_block full 0 2 = Some out).
Proof.
  intros lib f x shard lo hi.
  apply (group_wise_dequant_column_shard spec_float lib lib);
    cbn [well_formed length shape]; try reflexivity; try lia;
    try discriminate; repeat constructor.
Defined.

(* ================================================================== *)
(** * The entries of a dequantized matrix                              *)
(* ================================================================== *)

(** [np.repeat(stats, n, axis=0)[i]] is [stats[i // n]]. *)
Lemma nth_error_flat_map_repeat {A : Type} (n : nat) (l : list A) (i : nat) :
  n <> 0%nat ->
  nth_error (flat_map (fun a => repeat a n) l) i = nth_error l (i / n).
Proof.
  intro Hn. revert i. induction l as [| a l IH]; intro i; cbn [flat_map].
  - now rewrite !nth_error_nil.
  - destruct (Nat.lt_ge_cases i n) as [Hi | Hi].
    + rewrite nth_error_app1 by now rewrite repeat_length.
      rewrite Nat.div_small by assumption. cbn [nth_error].
      apply nth_error_repeat. assumption.
    + rewrite nth_error_app2 by now rewrite repeat_length.
      rewrite repeat_length, IH.
      replace i with ((i - n) + 1 * n)%nat at 2 by lia.
      rewrite Nat.div_add by assumption.
      now rewrite Nat.add_1_r.
Qed.

Section DequantizedEntries.

Variable E : Type.
Variable np pd : backend E.

(** X12. Channel-wise dequantization of a well-formed matrix with one
    statistic per column, for a [quant_bit] of at least one: [qdq_weight]
    and [asymmetry_qdq_weight] with [dequant] succeed for every [tp_rank]
    and [tp_degree], which they do not read here, and the paddle branch
    (with [unsqueeze] and [expand]) and the numpy branch (with
    broadcasting) give the same entries, each in the arithmetic of its
    library: [float32(x[i][j] / bnt * scales[j])] with
    [bnt = 2^(quant_bit - 1) - 1], and
    [float32(x[i][j] / qmax * (maxs[j] - mins[j]) + mins[j])] with
    [qmax = 2^quant_bit - 1].  The second result is the array of scales,
    [maxs - mins] in the asymmetric case. *)
Theorem channel_dequant_entries (use_pd : bool) (c : nat)
  (rows : list (list E)) (scales mins maxs : list E)
  (quant_bit quant_axis tp_rank tp_degree : Z) :
  well_formed (Arr2 c rows) ->
  length scales = c -> length mins = c -> length maxs = c ->
  1 <= quant_bit ->
  qdq_weight_dequant E np pd (Arr2 c rows) quant_bit quant_axis (Arr1 scales)
    tp_rank tp_degree use_pd
  = (let lib := if use_pd then pd else np in
     let bnt := 2 ^ (quant_bit - 1) - 1 in
     Some (Arr2 c
             (map (fun row =>
                     zip_with (fun q s =>
                                 astype_float32 lib
                                   (mul lib (truediv_int lib q bnt) s))
                       row scales) rows),
           Arr1 scales))
  /\
  asymmetry_qdq_weight_dequant E np pd (Arr2 c rows) quant_bit quant_axis
    (Arr1 mins) (Arr1 maxs) tp_rank tp_degree use_pd
  = (let lib := if use_pd then pd else np in
     let qmax := 2 ^ quant_bit - 1 in
     let diff := zip_with (sub lib) maxs mins in
     Some (Arr2 c
             (map (fun row =>
                     zip_with (fun t m => astype_float32 lib (add lib t m))
                       (zip_with (fun q s => mul lib (truediv_int lib q qmax) s)
                          row diff) mins) rows),
           Arr1 diff)).
Proof.
  intros Hwf Hs Hmi Hma Hq. cbn [well_formed] in Hwf. cbv zeta. split.
  - rewrite qdq_weight_dequant_shard, py_lshift_1.
    destruct (Z.ltb_spec (quant_bit - 1) 0) as [Hneg | _]; [lia |].
    cbn [bind]. unfold channel_shard_by.
    rewrite rank0_or_same_last_matrix_vector, Hs, Nat.eqb_refl. cbn [bind].
    now rewrite qdq_apply_matrix_vector by assumption.
  - rewrite asymmetry_qdq_weight_dequant_shard, py_lshift_1.
    destruct (Z.ltb_spec quant_bit 0) as [Hneg | _]; [lia |].
    cbn [bind].
    rewrite (amap2_same_shape _ (Arr1 maxs) (Arr1 mins))
      by (cbn [shape well_formed]; auto; congruence).
    cbn [bind azip_with]. unfold channel_shard_by.
    assert (Hsc : length (zip_with (sub (if use_pd then pd else np)) maxs mins)
                  = c) by (rewrite zip_with_length; congruence).
    rewrite rank0_or_same_last_matrix_vector, Hsc, Nat.eqb_refl. cbn [bind].
    now rewrite asymmetry_apply_matrix_vector by assumption.
Qed.

(** X13. Group-wise dequantization with [tp_rank = -1] of a well-formed
    matrix whose rows make groups of [group_size > 0] rows, with one row
    of statistics per group: the call succeeds, and row [i] of the result
    is computed from row [i] of the data and the statistics of the group
    [i // group_size], entry by entry in the arithmetic of the library:
    [float32(x) * scale / bnt] with [bnt = 2^(quant_bits - 1) - 1] for the
    symmetric codec, and [float32(x) / qmax * (max - min) + min] with
    [qmax = 2^quant_bits - 1] for the asymmetric one. *)
Theorem group_wise_dequant_entries (use_pd : bool) (c : nat)
  (rows scales mins maxs : list (list E))
  (quant_bits group_size any_degree : Z) :
  well_formed (Arr2 c rows) -> well_formed (Arr2 c scales) ->
  well_formed (Arr2 c mins) -> well_formed (Arr2 c maxs) ->
  0 < group_size ->
  length rows = (length scales * Z.to_nat group_size)%nat ->
  length mins = length scales -> length maxs = length scales ->
  1 <= quant_bits ->
  let lib := if use_pd then pd else np in
  (exists full,
     group_wise_dequant_symmetry E np pd (Arr2 c rows) (Arr2 c scales)
       quant_bits group_size (-1) any_degree use_pd = Some (Arr2 c full) /\
     length full = length rows /\
     forall i row, nth_error rows i = Some row ->
       exists srow,
         nth_error scales (i / Z.to_nat group_size) = Some srow /\
         nth_error full i
         = Some (zip_with (fun q s =>
                             truediv_int lib (mul lib (astype_float32 lib q) s)
                               (2 ^ (quant_bits - 1) - 1))
                   row srow))
  /\
  (exists full,
     group_wise_dequant_asymmetry E np pd (Arr2 c rows) (Arr2 c mins)
       (Arr2 c maxs) quant_bits group_size (-1) any_degree use_pd
     = Some (Arr2 c full) /\
     length full = length rows /\
     forall i row, nth_error rows i = Some row ->
       exists min_row max_row,
         nth_error mins (i / Z.to_nat group_size) = Some min_row /\
         nth_error maxs (i / Z.to_nat group_size) = Some max_row /\
         nth_error full i
         = Some (zip_with (add lib)
                   (zip_with (fun q s =>
                                mul lib
                                  (truediv_int lib (astype_float32 lib q)
                                     (2 ^ quant_bits - 1)) s)
                      row (zip_with (sub lib) max_row min_row))
                   min_row)).
Proof.
  intros Hwf Hsc Hmi Hma Hg Hrows Hlmi Hlma Hq lib.
  cbn [well_formed] in *.
  set (n := Z.to_nat group_size) in *.
  assert (Hn : n <> 0%nat) by (unfold n; lia).
  assert (HN : forall stats : list (list E),
             Forall (fun row => length row = c) stats ->
             length stats = length scales ->
             let N := flat_map (fun row => repeat row n) stats in
             Forall (fun row => length row = c) N /\ length rows = length N).
  { intros stats Hst Hlst N. split.
    - now apply Forall_flat_map_repeat.
    - unfold N. rewrite flat_map_repeat_length. congruence. }
  assert (Hstat : forall (stats : list (list E)) i row,
             length stats = length scales -> nth_error rows i = Some row ->
             exists srow, nth_error stats (i / n) = Some srow).
  { intros stats i row Hl Hi.
    destruct (nth_error stats (i / n)) as [srow |] eqn:Es; [eauto |].
    exfalso. apply nth_error_None in Es.
    assert (Hi' : (i < length rows)%nat)
      by (apply nth_error_Some; congruence).
    rewrite Hrows, <- Hl in Hi'.
    assert (i / n < length stats)%nat
      by (apply Nat.Div0.div_lt_upper_bound; lia).
    lia. }
  split.
  - rewrite group_wise_dequant_symmetry_shard, !py_lshift_1.
    destruct (Z.ltb_spec quant_bits 0) as [Hneg | _]; [lia |].
    destruct (Z.ltb_spec (quant_bits - 1) 0) as [Hneg | _]; [lia |].
    cbn [bind]. rewrite repeat_axis0_matrix by lia. cbn [bind]. fold n.
    destruct (HN scales Hsc eq_refl) as (N1 & N2).
    unfold group_shard_by. change (-1 =? -1) with true. cbv iota. cbn [bind].
    rewrite group_symmetry_apply_matrices by assumption. fold lib.
    eexists. split; [reflexivity |].
    split; [now apply zip_with_length |].
    intros i row Hi. destruct (Hstat scales i row eq_refl Hi) as [srow Hs].
    exists srow. split; [assumption |].
    apply zip_with_nth; [assumption |].
    now rewrite nth_error_flat_map_repeat.
  - rewrite group_wise_dequant_asymmetry_shard, !py_lshift_1.
    destruct (Z.ltb_spec quant_bits 0) as [Hneg | _]; [lia |].
    cbn [bind].
    rewrite amap2_matrices by (auto; congruence). cbn [bind].
    rewrite !repeat_axis0_matrix by lia. cbn [bind]. fold n lib.
    destruct (HN mins Hmi Hlmi) as (M1 & M2).
    destruct (HN (zip_with (zip_with (sub lib)) maxs mins)) as (N1 & N2).
    { now apply zip_with_rows_well_formed. }
    { rewrite zip_with_length; congruence. }
    unfold group_shard_by. change (-1 =? -1) with true. cbv iota. cbn [bind].
    rewrite group_asymmetry_apply_matrices by assumption. fold lib.
    eexists. split; [reflexivity |].
    split.
    { rewrite !zip_with_length; rewrite ?zip_with_length; congruence. }
    intros i row Hi.
    destruct (Hstat mins i row Hlmi Hi) as [min_row Hmin].
    destruct (Hstat maxs i row Hlma Hi) as [max_row Hmax].
    exists min_row, max_row. split; [assumption |]. split; [assumption |].
    apply zip_with_nth; [| now rewrite nth_error_flat_map_repeat].
    apply zip_with_nth; [assumption |].
    rewrite nth_error_flat_map_repeat by assumption.
    now apply zip_with_nth.
Qed.

End DequantizedEntries.

Lemma channel_dequant_entries_witness :
  let lib := ieee_backend float32 in
  let f := of_int float32 in
  let rows := [[f 127; f (-64)]; [f 0; f 32]] in
  qdq_weight_dequant spec_float lib lib (Arr2 2 rows) 8 (-1) (Arr1 [f 2; f 4])
    (-1) 1 true
  = Some (Arr2 2
            (map (fun row =>
                    zip_with (fun q s =>
                                astype_float32 lib
                                  (mul lib (truediv_int lib q (2 ^ (8 - 1) - 1)) s))
                      row [f 2; f 4]) rows),
          Arr1 [f 2; f 4])
  /\
  asymmetry_qdq_weight_dequant spec_float lib lib (Arr2 2 rows) 8 (-1)
    (Arr1 [f (-1); f 0]) (Arr1 [f 2; f 4]) (-1) 1 true
  = Some (Arr2 2
            (map (fun row =>
                    zip_with (fun t m => astype_float32 lib (add lib t m))
                      (zip_with (fun q s =>
                                   mul lib (truediv_int lib q (2 ^ 8 - 1)) s)
                         row (zip_with (sub lib) [f 2; f 4] [f (-1); f 0]))
                      [f (-1); f 0]) rows),
          Arr1 (zip_with (sub lib) [f 2; f 4] [f (-1); f 0])).
Proof.
  intros lib f rows.
  apply (channel_dequant_entries spec_float lib lib true 2 rows);
    cbn [well_formed length]; try reflexivity; try lia; repeat constructor.
Defined.

Lemma group_wise_dequant_entries_witness :
  let lib := ieee_backend float32 in
  let f := of_int float32 in
  let rows := [[f 7; f (-4)]; [f 0; f 3]; [f 1; f 1]; [f (-8); f 2]] in
  let lo := [[f 2; f 4]; [f 1; f 3]] in
  let hi := [[f 5; f 6]; [f 7; f 8]] in
  (exists full,
     group_wise_dequant_symmetry spec_float lib lib (Arr2 2 rows) (Arr2 2 lo)
       4 2 (-1) 1 false = Some (Arr2 2 full) /\
     length full = length rows /\
     forall i row, nth_error rows i = Some row ->
       exists srow,
         nth_error lo (i / Z.to_nat 2) = Some srow /\
         nth_error full i
         = Some (zip_with (fun q s =>
                             truediv_int lib (mul lib (astype_float32 lib q) s)
                               (2 ^ (4 - 1) - 1))
                   row srow))
  /\
  (exists full,
     group_wise_dequant_asymmetry spec_float lib lib (Arr2 2 rows) (Arr2 2 lo)
       (Arr2 2 hi) 4 2 (-1) 1 false = Some (Arr2 2 full) /\
     length full = length rows /\
     forall i row, nth_error rows i = Some row ->
       exists min_row max_row,
         nth_error lo (i / Z.to_nat 2) = Some min_row /\
         nth_error hi (i / Z.to_nat 2) = Some max_row /\
         nth_error full i
         = Some (zip_with (add lib)
                   (zip_with (fun q s =>
                                mul lib
                                  (truediv_int lib (astype_float32 lib q)
                                     (2 ^ 4 - 1)) s)
                      row (zip_with (sub lib) max_row min_row))
                   min_row)).
Proof.
  intros lib f rows lo hi.
  apply (group_wise_dequant_entries spec_float lib lib false 2 rows lo lo hi
           4 2 1);
    cbn [well_formed length]; try reflexivity; try lia; repeat constructor.
Defined.

(* ================================================================== *)
(** * The group-wise quantizations                                     *)
(* ================================================================== *)

(** [np.nan_to_num] after [np.clip] between two finite bounds changes
    nothing that the integer cast sees: the clip lets no infinity
    through, and the NaN it lets through is cast to 0 as the zero is. *)
Lemma fclip_not_infinity (v lo hi : spec_float) (zlo zhi : Z) (s : bool) :
  Fexact lo zlo = true -> Fexact hi zhi = true ->
  fclip v lo hi <> S754_infinity s.
Proof.
  intros Hlo Hhi.
  assert (Flo : forall s', lo <> S754_infinity s') by (intros s' ->; discriminate).
  assert (Fhi : forall s', hi <> S754_infinity s') by (intros s' ->; discriminate).
  assert (Ilo : forall s', Fltb lo (S754_infinity s') = negb s').
  { intros s'. destruct lo as [sl | sl | | sl ml el]; try discriminate;
      now destruct s'. }
  assert (Ihi : forall s', Fltb (S754_infinity s') hi = s').
  { intros s'. destruct hi as [sh | sh | | sh mh eh]; try discriminate;
      now destruct s'. }
  unfold fclip, Fgtb.
  destruct v as [sv | sv | | sv mv ev]; cbn [is_nan]; try discriminate.
  - destruct (Fltb lo (S754_zero sv)); cbn [is_nan].
    + destruct (Fltb (S754_zero sv) hi); [discriminate | apply Fhi].
    + destruct (is_nan lo); [apply Flo |].
      destruct (Fltb lo hi); [apply Flo | apply Fhi].
  - rewrite Ilo. destruct sv; cbn [negb is_nan].
    + destruct (is_nan lo); [apply Flo |].
      destruct (Fltb lo hi); [apply Flo | apply Fhi].
    + rewrite Ihi. apply Fhi.
  - destruct (Fltb lo (S754_finite sv mv ev)); cbn [is_nan].
    + destruct (Fltb (S754_finite sv mv ev) hi); [discriminate | apply Fhi].
    + destruct (is_nan lo); [apply Flo |].
      destruct (Fltb lo hi); [apply Flo | apply Fhi].
Qed.

Lemma Ftrunc_nan_to_num_fclip (dt : float_dtype) (v lo hi : spec_float)
  (zlo zhi : Z) :
  Fexact lo zlo = true -> Fexact hi zhi = true ->
  Ftrunc (nan_to_num dt (fclip v lo hi)) = Ftrunc (fclip v lo hi).
Proof.
  intros Hlo Hhi.
  pose proof (fun s => fclip_not_infinity v lo hi zlo zhi s Hlo Hhi) as H.
  destruct (fclip v lo hi) as [s | s | | s m e]; try reflexivity.
  now destruct (H s).
Qed.

(** The unsigned clip, [np.nan_to_num] and the cast to uint8, on any
    float. *)
Lemma clip_scrub_uint8_range (dt : float_dtype) (quant_bits : Z) (v : spec_float) :
  0 <= quant_bits ->
  0 <= astype_uint8
         (nan_to_num dt (fclip v (of_int dt 0) (of_int dt (2 ^ quant_bits - 1))))
  <= 2 ^ quant_bits - 1.
Proof.
  intros Hq.
  destruct (Z.le_gt_cases quant_bits 8) as [H8 | H9].
  - pose proof (clip_uint8_range dt quant_bits v Hq) as R. cbv zeta in R.
    unfold astype_uint8 in *.
    assert (C : quant_bits = 0 \/ quant_bits = 1 \/ quant_bits = 2 \/
                quant_bits = 3 \/ quant_bits = 4 \/ quant_bits = 5 \/
                quant_bits = 6 \/ quant_bits = 7 \/ quant_bits = 8) by lia.
    rewrite (Ftrunc_nan_to_num_fclip dt v _ _ 0 (2 ^ quant_bits - 1));
      [exact R | now destruct dt |].
    repeat (destruct C as [C | C]); subst quant_bits; now destruct dt.
  - pose proof (wrap_uint8_range
                  (Ftrunc (nan_to_num dt
                             (fclip v (of_int dt 0)
                                (of_int dt (2 ^ quant_bits - 1)))))) as R.
    unfold astype_uint8.
    assert (2 ^ 8 <= 2 ^ quant_bits) by (apply Z.pow_le_mono_r; lia).
    change (2 ^ 8) with 256 in *. lia.
Qed.

(** The range of the group-wise symmetric quantization. *)
Lemma group_wise_quant_symmetry_bounds (dt : float_dtype)
  (inputs : ndarray spec_float) (quant_bits group_size : Z) :
  match group_wise_quant_symmetry dt inputs quant_bits group_size with
  | Some (q, _) =>
      all_elems (fun z => - 2 ^ (quant_bits - 1) <= z <= 2 ^ (quant_bits - 1) - 1) q
  | None => True
  end.
Proof.
  unfold group_wise_quant_symmetry. rewrite !py_lshift_1.
  destruct (quant_bits <? 0); cbn [bind]; [exact I |].
  destruct (group_inputs inputs group_size) as [[c groups] |];
    cbn [bind fst snd]; [| exact I].
  destruct (Z.ltb_spec (quant_bits - 1) 0) as [Hneg | Hq]; cbn [bind];
    [exact I |].
  repeat (match goal with
          | |- context [bind ?o _] =>
              let x := fresh "x" in destruct o as [x |]; cbn [bind]
          end; [| exact I]).
  rewrite !amap_amap. apply all_elems_amap, all_elems_true. intro v.
  apply (clip_int8_range dt quant_bits). lia.
Qed.

(** The range of the group-wise asymmetric quantization. *)
Lemma group_wise_quant_asymmetry_bounds (dt : float_dtype)
  (inputs : ndarray spec_float) (quant_bits group_size : Z) :
  match group_wise_quant_asymmetry dt inputs quant_bits group_size with
  | Some (q, _, _) => all_elems (fun z => 0 <= z <= 2 ^ quant_bits - 1) q
  | None => True
  end.
Proof.
  unfold group_wise_quant_asymmetry. rewrite py_lshift_1.
  destruct (Z.ltb_spec quant_bits 0) as [Hneg | Hq]; cbn [bind]; [exact I |].
  destruct (group_inputs inputs group_size) as [[c groups] |]; cbn [bind];
    [| exact I].
  repeat (match goal with
          | |- context [bind ?o _] =>
              let x := fresh "x" in destruct o as [x |]; cbn [bind]
          end; [| exact I]).
  rewrite !amap_amap. apply all_elems_amap, all_elems_true. intro v.
  now apply clip_scrub_uint8_range.
Qed.


(** X15. Every element of the array that the group-wise asymmetric
    quantization returns lies in [0, 2^quant_bits - 1], whatever the
    input: the clip keeps the finite values within the bounds, and the
    NaN of a constant group is made zero by [np.nan_to_num]. *)
Theorem group_wise_quant_asymmetry_range (dt : float_dtype)
  (inputs : ndarray spec_float) (quant_bits group_size : Z) :
  match group_wise_quant_asymmetry dt inputs quant_bits group_size with
  | Some (q, _, _) => all_elems (fun z => 0 <= z <= 2 ^ quant_bits - 1) q
  | None => True
  end.
Proof. apply group_wise_quant_asymmetry_bounds. Qed.

Lemma chunk_map {A B : Type} (f : A -> B) (k n : nat) (l : list A) :
  chunk k n (map f l) = map (map f) (chunk k n l).
Proof.
  revert l. induction k as [| k IH]; intro l; cbn [chunk map]; [reflexivity |].
  now rewrite firstn_map, skipn_map, IH.
Qed.

(** The grouping of the rows of a matrix of [k * n] rows. *)
Lemma group_inputs_matrix (c k n : nat) (rows : list (list spec_float)) :
  n <> 0%nat -> length rows = (k * n)%nat ->
  group_inputs (Arr2 c rows) (Z.of_nat n) = Some (c, chunk k n rows).
Proof.
  intros Hn Hl. unfold group_inputs, py_floordiv.
  destruct (Z.eqb_spec (Z.of_nat n) 0) as [E | _]; [lia |]. cbn [bind].
  destruct (Z.leb_spec (Z.of_nat n) 0) as [E | _]; [lia |].
  rewrite Nat2Z.id, <- Nat2Z.inj_div, Nat2Z.id.
  replace (length rows / n)%nat with k by (rewrite Hl, Nat.div_mul; auto).
  unfold reshape_groups.
  replace (Nat.eqb (k * n) (length rows)) with true
    by (symmetry; apply Nat.eqb_eq; lia).
  reflexivity.
Qed.


(** The symmetric quantization of a matrix of [k] groups of [n] rows:
    the statistics of the groups and the quantized rows. *)
Lemma group_wise_quant_symmetry_matrix (dt : float_dtype) (c k n : nat)
  (rows : list (list spec_float)) (quant_bits : Z) :
  well_formed (Arr2 c rows) -> n <> 0%nat -> length rows = (k * n)%nat ->
  1 <= quant_bits ->
  exists stats qrows,
    group_wise_quant_symmetry dt (Arr2 c rows) quant_bits (Z.of_nat n)
    = Some (Arr2 c qrows, Arr2 c stats) /\
    length stats = k /\ Forall (fun r => length r = c) stats /\
    length qrows = length rows /\ Forall (fun r => length r = c) qrows /\
    reduce_groups fmaximum (chunk k n (map (map SFabs) rows)) = Some stats.
Proof.
  intros Hwf Hn Hl Hq. cbn [well_formed] in Hwf.
  unfold group_wise_quant_symmetry. rewrite !py_lshift_1.
  destruct (Z.ltb_spec quant_bits 0) as [Hneg | _]; [lia |].
  destruct (Z.ltb_spec (quant_bits - 1) 0) as [Hneg | _]; [lia |].
  cbn [bind]. rewrite (group_inputs_matrix c k n) by assumption. cbn [bind].
  rewrite <- chunk_map.
  assert (Hwf' : Forall (fun r => length r = c) (map (map SFabs) rows)).
  { apply Forall_map. revert Hwf. apply Forall_impl. intros r Hr.
    now rewrite length_map. }
  destruct (reduce_groups_total fmaximum k n (map (map SFabs) rows) Hn)
    as [stats Est]; [now rewrite length_map |].
  rewrite Est. cbn [bind].
  destruct (reduce_groups_chunk fmaximum c k n _ stats Hwf' Est) as (Ls & Ws & _).
  rewrite repeat_axis0_matrix by lia. rewrite Nat2Z.id. cbn [bind].
  rewrite amap2_matrices;
    [| assumption | now apply Forall_flat_map_repeat
     | rewrite flat_map_repeat_length; congruence].
  cbn [bind amap]. eexists _, _. split; [reflexivity |].
  split; [assumption |]. split; [assumption |].
  rewrite !length_map. split; [| split; [| reflexivity]].
  - apply zip_with_length. rewrite flat_map_repeat_length. congruence.
  - repeat apply Forall_map.
    eapply Forall_impl;
      [| apply (zip_with_rows_well_formed (fdiv dt) c rows
                  (flat_map (fun r => repeat r n) stats) Hwf);
         now apply Forall_flat_map_repeat].
    intros r Hr. now rewrite !length_map.
Qed.

(** The same for the asymmetric quantization. *)
Lemma group_wise_quant_asymmetry_matrix (dt : float_dtype) (c k n : nat)
  (rows : list (list spec_float)) (quant_bits : Z) :
  well_formed (Arr2 c rows) -> n <> 0%nat -> length rows = (k * n)%nat ->
  0 <= quant_bits ->
  exists mins maxs qrows,
    group_wise_quant_asymmetry dt (Arr2 c rows) quant_bits (Z.of_nat n)
    = Some (Arr2 c qrows, Arr2 c mins, Arr2 c maxs) /\
    length mins = k /\ Forall (fun r => length r = c) mins /\
    length maxs = k /\ Forall (fun r => length r = c) maxs /\
    length qrows = length rows /\ Forall (fun r => length r = c) qrows /\
    reduce_groups fminimum (chunk k n rows) = Some mins /\
    reduce_groups fmaximum (chunk k n rows) = Some maxs.
Proof.
  intros Hwf Hn Hl Hq. pose proof Hwf as Hwf0. cbn [well_formed] in Hwf.
  pose proof (group_wise_quant_asymmetry_scrub dt (Arr2 c rows) quant_bits
                (Z.of_nat n)) as Hs. cbv zeta in Hs. rewrite Hs. clear Hs.
  rewrite py_lshift_1.
  destruct (Z.ltb_spec quant_bits 0) as [Hneg | _]; [lia |].
  cbn [bind]. rewrite (group_inputs_matrix c k n) by assumption.
  cbn [bind fst snd].
  destruct (reduce_groups_total fmaximum k n rows Hn Hl) as [maxs Emax].
  destruct (reduce_groups_total fminimum k n rows Hn Hl) as [mins Emin].
  rewrite Emax, Emin. cbn [bind].
  destruct (reduce_groups_chunk fmaximum c k n rows maxs Hwf Emax)
    as (Lmax & Wmax & _).
  destruct (reduce_groups_chunk fminimum c k n rows mins Hwf Emin)
    as (Lmin & Wmin & _).
  rewrite amap2_matrices by (auto; congruence). cbn [bind].
  rewrite !repeat_axis0_matrix by lia. rewrite Nat2Z.id. cbn [bind].
  set (NS := flat_map (fun r => repeat r n)
               (zip_with (zip_with (fsub dt)) maxs mins)).
  set (NM := flat_map (fun r => repeat r n) mins).
  assert (WNS : Forall (fun r => length r = c) NS)
    by (apply Forall_flat_map_repeat; now apply zip_with_rows_well_formed).
  assert (WNM : Forall (fun r => length r = c) NM)
    by now apply Forall_flat_map_repeat.
  assert (LNS : length rows = length NS).
  { unfold NS. rewrite flat_map_repeat_length, zip_with_length; congruence. }
  assert (LNM : length rows = length NM)
    by (unfold NM; rewrite flat_map_repeat_length; congruence).
  rewrite amap2_matrices by assumption. cbn [bind].
  rewrite amap2_matrices;
    [| now apply zip_with_rows_well_formed | assumption
     | rewrite zip_with_length; congruence].
  cbn [bind amap]. eexists _, _, _. split; [reflexivity |].
  repeat split; try assumption.
  - rewrite length_map, !zip_with_length; rewrite ?zip_with_length; congruence.
  - apply Forall_map.
    eapply Forall_impl;
      [| apply (zip_with_rows_well_formed
                  (quantize_elem dt (2 ^ quant_bits - 1) 0 (2 ^ quant_bits - 1))
                  c (zip_with (zip_with (fsub dt)) rows NM) NS);
         [now apply zip_with_rows_well_formed | assumption]].
    intros r Hr. now rewrite length_map.
Qed.



(** X17. Four-bit quantization and the packing codec.  [m] and [v] are
    well-formed matrices of one shape whose rows make groups.  The
    symmetric quantization of [m] and the asymmetric quantization of [v]
    with [quant_bits = 4] return arrays that [merge_int4] packs, the
    first as the high nibble, into an array that [split_int8] splits back
    into the two quantized arrays exactly. *)
Theorem quantized_int4_pack_round_trip (dt : float_dtype) (c : nat)
  (m v : list (list spec_float)) (group_size_m group_size_v : Z) :
  well_formed (Arr2 c m) -> well_formed (Arr2 c v) -> length m = length v ->
  0 < group_size_m -> Z.of_nat (length m) mod group_size_m = 0 ->
  0 < group_size_v -> Z.of_nat (length v) mod group_size_v = 0 ->
  exists qm scales qv mins maxs final,
    group_wise_quant_symmetry dt (Arr2 c m) 4 group_size_m = Some (qm, scales) /\
    group_wise_quant_asymmetry dt (Arr2 c v) 4 group_size_v
    = Some (qv, mins, maxs) /\
    merge_int4 qm qv = Some final /\
    split_int8 final = (qm, qv).
Proof.
  intros Hwm Hwv Hlen Hgm Hmm Hgv Hmv.
  assert (Hk : forall (rows : list (list spec_float)) g,
             0 < g -> Z.of_nat (length rows) mod g = 0 ->
             Z.of_nat (Z.to_nat g) = g /\ Z.to_nat g <> 0%nat /\
             length rows
             = (Z.to_nat (Z.of_nat (length rows) / g) * Z.to_nat g)%nat).
  { intros rows g Hg Hm. repeat split; try lia.
    apply Nat2Z.inj. rewrite Nat2Z.inj_mul.
    rewrite !Z2Nat.id by (try apply Z.div_pos; lia).
    pose proof (Z.div_mod (Z.of_nat (length rows)) g ltac:(lia)). lia. }
  destruct (Hk m group_size_m Hgm Hmm) as (Em & Hnm & Hlm).
  destruct (Hk v group_size_v Hgv Hmv) as (Ev & Hnv & Hlv).
  destruct (group_wise_quant_symmetry_matrix dt c _ _ m 4 Hwm Hnm Hlm ltac:(lia))
    as (stats & qm & Eqm & _ & _ & Lqm & Wqm & _).
  destruct (group_wise_quant_asymmetry_matrix dt c _ _ v 4 Hwv Hnv Hlv ltac:(lia))
    as (mins & maxs & qv & Eqv & _ & _ & _ & _ & Lqv & Wqv & _).
  rewrite Em in Eqm. rewrite Ev in Eqv.
  pose proof (group_wise_quant_symmetry_bounds dt (Arr2 c m) 4 group_size_m) as Rm.
  pose proof (group_wise_quant_asymmetry_bounds dt (Arr2 c v) 4 group_size_v) as Rv.
  rewrite Eqm in Rm. rewrite Eqv in Rv.
  change (2 ^ (4 - 1)) with 8 in Rm. change (2 ^ 4 - 1) with 15 in Rv.
  destruct (split_merge_int4 (Arr2 c qm) (Arr2 c qv)) as (final & Hmerge & Hsplit);
    [cbn [shape]; congruence | assumption | assumption | |].
  { revert Rm. apply all_elems_impl. lia. }
  exists (Arr2 c qm), (Arr2 c stats), (Arr2 c qv), (Arr2 c mins), (Arr2 c maxs),
    final.
  repeat split; try assumption.
  rewrite Hsplit. f_equal.
  rewrite <- (amap_id (Arr2 c qv)) at 2. apply amap_ext_all.
  revert Rv. apply all_elems_impl. intros b Hb. apply Z.mod_small. lia.
Qed.

Lemma quantized_int4_pack_round_trip_witness :
  let f := of_int float32 in
  let m := [[f 5; f (-2)]; [f 5; f 2]; [f 1; f 1]; [f 3; f 1]] in
  let v := [[f 1; f 2]; [f 3; f 4]; [f 5; f 6]; [f 7; f 8]] in
  exists qm scales qv mins maxs final,
    group_wise_quant_symmetry float32 (Arr2 2 m) 4 2 = Some (qm, scales) /\
    group_wise_quant_asymmetry float32 (Arr2 2 v) 4 4 = Some (qv, mins, maxs) /\
    merge_int4 qm qv = Some final /\
    split_int8 final = (qm, qv).
Proof.
  intros f m v.
  apply (quantized_int4_pack_round_trip float32 2 m v 2 4);
    cbn [well_formed length]; try reflexivity; try lia; repeat constructor.
Defined.

(* ================================================================== *)
(** * The channel statistics                                           *)
(* ================================================================== *)

(** A property that a reduction operator keeps is kept by the
    reduction. *)
Lemma reduce1_closed {A : Type} (P : A -> Prop) (f : A -> A -> A) (l : list A)
  (r : A) :
  (forall a b, P a -> P b -> P (f a b)) ->
  Forall P l -> reduce1 f l = Some r -> P r.
Proof.
  intros Hf Hl. unfold reduce1. destruct l as [| a l]; [discriminate |].
  intros [= <-]. apply Forall_cons_iff in Hl as [Ha Hl].
  revert a Ha. induction Hl as [| b l Hb _ IH]; intros a Ha; cbn [fold_left];
    auto.
Qed.

Lemma reduce_rows_closed {A : Type} (P : A -> Prop) (f : A -> A -> A)
  (rows : list (list A)) (r : list A) :
  (forall a b, P a -> P b -> P (f a b)) ->
  Forall (Forall P) rows -> reduce_rows f rows = Some r -> Forall P r.
Proof.
  intros Hf. unfold reduce_rows. apply reduce1_closed.
  intros u v. now apply Forall_zip_with.
Qed.

Lemma reduce_except_closed {A : Type} (P : A -> Prop) (f : A -> A -> A)
  (quant_axis : Z) (t r : ndarray A) :
  (forall a b, P a -> P b -> P (f a b)) ->
  all_elems P t -> reduce_except f quant_axis t = Some r -> all_elems P r.
Proof.
  intros Hf Ht. destruct t as [a | v | c rows]; cbn [reduce_except all_elems] in *.
  - now intros [= <-].
  - destruct (quant_axis =? 0); [now intros [= <-] |].
    destruct (reduce1 f v) as [a |] eqn:E; cbn [bind]; [| discriminate].
    intros [= <-]. cbn [all_elems]. now apply (reduce1_closed P f v).
  - destruct (quant_axis =? 0).
    + destruct (Nat.eqb c 0); [discriminate |].
      destruct (sequence (map (reduce1 f) rows)) as [rs |] eqn:E; cbn [bind];
        [| discriminate].
      intros [= <-]. cbn [all_elems].
      apply (sequence_Forall P _ _ E). apply Forall_map.
      revert Ht. apply Forall_impl. intros row Hrow a Ha.
      now apply (reduce1_closed P f row).
    + destruct (quant_axis =? 1).
      * destruct (reduce_rows f rows) as [rs |] eqn:E; cbn [bind];
          [| discriminate].
        intros [= <-]. cbn [all_elems]. now apply (reduce_rows_closed P f rows).
      * destruct (Nat.eqb c 0); [discriminate |].
        destruct (reduce1 f (concat rows)) as [a |] eqn:E; cbn [bind];
          [| discriminate].
        intros [= <-]. cbn [all_elems].
        apply (reduce1_closed P f (concat rows)); auto.
        now apply Forall_concat.
Qed.

(** Zero against [n * 2^e]. *)
Lemma Zcompare_scaled_zero_l (n e : Z) : Zcompare_scaled 0 0 n e = (0 ?= n).
Proof.
  rewrite (Zcompare_scaled_shift 0 0 n e (Z.abs e)) by lia.
  rewrite Z.mul_0_l.
  assert (Hp : 0 < 2 ^ (e + Z.abs e)) by (apply pow2_pos; lia).
  destruct (Z.compare_spec 0 n) as [<- | H | H].
  - now rewrite Z.mul_0_l.
  - apply Z.compare_lt_iff. nia.
  - apply Z.compare_gt_iff. nia.
Qed.

Lemma Zcompare_scaled_zero_r (n e : Z) : Zcompare_scaled n e 0 0 = (n ?= 0).
Proof.
  rewrite (Zcompare_scaled_shift n e 0 0 (Z.abs e)) by lia.
  rewrite Z.mul_0_l.
  assert (Hp : 0 < 2 ^ (e + Z.abs e)) by (apply pow2_pos; lia).
  destruct (Z.compare_spec n 0) as [-> | H | H].
  - now rewrite Z.mul_0_l.
  - apply Z.compare_lt_iff. nia.
  - apply Z.compare_gt_iff. nia.
Qed.

Lemma of_int_zero (dt : float_dtype) : of_int dt 0 = S754_zero false.
Proof. now destruct dt. Qed.

(** An absolute value that is not NaN is at least zero. *)
Lemma SFabs_nonneg (x : spec_float) :
  is_nan x = false -> Fleb (S754_zero false) (SFabs x) = true.
Proof.
  destruct x as [s | s | | s m e]; try discriminate; intros _; try reflexivity.
  unfold Fleb. cbn [SFabs Fcompare Fnum cond_Zopp].
  now rewrite Zcompare_scaled_zero_l.
Qed.

Lemma fmaximum_either (P : spec_float -> Prop) (a b : spec_float) :
  P a -> P b -> P (fmaximum a b).
Proof. intros Ha Hb. unfold fmaximum. now destruct (Fgeb a b || is_nan a). Qed.

Lemma fminimum_either (P : spec_float -> Prop) (a b : spec_float) :
  P a -> P b -> P (fminimum a b).
Proof. intros Ha Hb. unfold fminimum. now destruct (Fleb a b || is_nan a). Qed.

(** The guard of a statistic that is at least zero is above zero, when
    the epsilon is. *)
Lemma guard_zero_positive (dt : float_dtype) (v : spec_float) :
  dt <> float16 -> Fleb (S754_zero false) v = true ->
  Fltb (S754_zero false) (guard_zero dt v) = true.
Proof.
  intros Hdt Hv. unfold guard_zero. rewrite of_int_zero.
  destruct (Feqb v (S754_zero false)) eqn:E.
  - destruct dt; [congruence | reflexivity | reflexivity].
  - destruct v as [s | s | | s m e]; try discriminate.
    + now destruct s.
    + unfold Fleb, Fltb, Feqb in *. cbn [Fcompare Fnum] in *.
      rewrite Zcompare_scaled_zero_l in *. rewrite Zcompare_scaled_zero_r in E.
      destruct s; cbn [cond_Zopp] in *; [discriminate | reflexivity].
Qed.

(** X18. The scales are positive.  For a float32 or float64 array with
    no NaN, every statistic that [cal_abs_max_channel] returns, along any
    axis, compares above zero: it is the largest absolute value of its
    channel, or the epsilon where that is zero.  The division by the
    scales in [qdq_weight] is then a division by a positive number. *)
Theorem cal_abs_max_channel_positive (dt : float_dtype)
  (inputs : ndarray spec_float) (quant_axis : Z) (r : ndarray spec_float) :
  dt <> float16 ->
  all_elems (fun x => is_nan x = false) inputs ->
  cal_abs_max_channel dt inputs quant_axis = Some r ->
  all_elems (fun s => Fltb (of_int dt 0) s = true) r.
Proof.
  intros Hdt Hin H. unfold cal_abs_max_channel in H.
  destruct (reduce_except fmaximum quant_axis (amap SFabs inputs)) as [m |] eqn:E;
    cbn [bind] in H; [| discriminate].
  injection H as <-. rewrite of_int_zero. apply all_elems_amap.
  assert (Hm : all_elems (fun v => Fleb (S754_zero false) v = true) m).
  { apply (reduce_except_closed _ fmaximum quant_axis (amap SFabs inputs));
      [apply fmaximum_either | | exact E].
    apply all_elems_amap. revert Hin. apply all_elems_impl.
    apply SFabs_nonneg. }
  revert Hm. apply all_elems_impl. intros v Hv.
  now apply guard_zero_positive.
Qed.

Lemma cal_abs_max_channel_positive_witness :
  let f := of_int float32 in
  let x := Arr2 2 [[f 0; f (-3)]; [S754_zero true; f 2]] in
  all_elems (fun s => Fltb (of_int float32 0) s = true)
    (Arr1 [eps_of float32; f 3]).
Proof.
  intros f x.
  apply (cal_abs_max_channel_positive float32 x 1);
    [discriminate | repeat constructor | reflexivity].
Defined.

(* ================================================================== *)
(** * The order of the floats                                          *)
(* ================================================================== *)

Lemma scaled_le_trans (n1 e1 n2 e2 n3 e3 : Z) :
  Zcompare_scaled n1 e1 n2 e2 <> Gt -> Zcompare_scaled n2 e2 n3 e3 <> Gt ->
  Zcompare_scaled n1 e1 n3 e3 <> Gt.
Proof.
  set (d := Z.abs e1 + Z.abs e2 + Z.abs e3).
  rewrite (Zcompare_scaled_shift n1 e1 n2 e2 d),
    (Zcompare_scaled_shift n2 e2 n3 e3 d),
    (Zcompare_scaled_shift n1 e1 n3 e3 d) by (unfold d; lia).
  fold (Z.le (n1 * 2 ^ (e1 + d)) (n2 * 2 ^ (e2 + d))).
  fold (Z.le (n2 * 2 ^ (e2 + d)) (n3 * 2 ^ (e3 + d))).
  fold (Z.le (n1 * 2 ^ (e1 + d)) (n3 * 2 ^ (e3 + d))).
  lia.
Qed.

Lemma scaled_antisym (n1 e1 n2 e2 : Z) :
  Zcompare_scaled n2 e2 n1 e1 = CompOpp (Zcompare_scaled n1 e1 n2 e2).
Proof.
  unfold Zcompare_scaled. rewrite (Z.min_comm e2 e1). apply Z.compare_antisym.
Qed.

(** [Fleb] on two floats with a value. *)
Lemma Fleb_num (a b : spec_float) (n1 e1 n2 e2 : Z) :
  Fnum a = Some (n1, e1) -> Fnum b = Some (n2, e2) ->
  (Fleb a b = true <-> Zcompare_scaled n1 e1 n2 e2 <> Gt).
Proof.
  intros Ha Hb. unfold Fleb.
  assert (C : Fcompare a b = Some (Zcompare_scaled n1 e1 n2 e2)).
  { destruct a, b; cbn [Fnum] in *; try discriminate; cbn [Fcompare Fnum];
      congruence. }
  rewrite C. destruct (Zcompare_scaled n1 e1 n2 e2); split; congruence.
Qed.

(** A float that is not NaN is an infinity or has a value. *)
Lemma float_cases (a : spec_float) :
  is_nan a = false ->
  (exists s, a = S754_infinity s) \/ (exists n e, Fnum a = Some (n, e)).
Proof.
  destruct a as [s | s | | s m e]; try discriminate; intros _; cbn [Fnum]; eauto.
Qed.

Lemma Fleb_not_nan (a b : spec_float) :
  Fleb a b = true -> is_nan a = false /\ is_nan b = false.
Proof. destruct a, b; try discriminate; auto. Qed.

Lemma Fleb_refl (a : spec_float) : is_nan a = false -> Fleb a a = true.
Proof.
  intro H. destruct (float_cases a H) as [[s ->] | (n & e & En)].
  - now destruct s.
  - apply (Fleb_num a a n e n e En En).
    unfold Zcompare_scaled. now rewrite Z.compare_refl.
Qed.

Lemma Fleb_trans (a b c : spec_float) :
  Fleb a b = true -> Fleb b c = true -> Fleb a c = true.
Proof.
  intros Hab Hbc.
  destruct (Fleb_not_nan a b Hab) as [Na Nb].
  destruct (Fleb_not_nan b c Hbc) as [_ Nc].
  destruct (float_cases a Na) as [[sa ->] | (n1 & e1 & E1)];
    destruct (float_cases b Nb) as [[sb ->] | (n2 & e2 & E2)];
    destruct (float_cases c Nc) as [[sc ->] | (n3 & e3 & E3)].
  - destruct sa, sb, sc; try discriminate; reflexivity.
  - destruct sa, sb; try discriminate; destruct c; try discriminate; reflexivity.
  - destruct sa; [| destruct b; discriminate].
    destruct sc; [destruct b; discriminate |]. reflexivity.
  - destruct sa; [| destruct b; discriminate].
    destruct c; try discriminate; reflexivity.
  - destruct sb; [destruct a; discriminate |].
    destruct sc; [discriminate |]. destruct a; try discriminate; reflexivity.
  - destruct sb; [destruct a; discriminate |]. destruct c; discriminate.
  - destruct sc; [destruct b; discriminate |].
    destruct a; try discriminate; reflexivity.
  - apply (Fleb_num a c n1 e1 n3 e3 E1 E3).
    apply (scaled_le_trans n1 e1 n2 e2 n3 e3).
    + now apply (Fleb_num a b n1 e1 n2 e2 E1 E2).
    + now apply (Fleb_num b c n2 e2 n3 e3 E2 E3).
Qed.

Lemma Fleb_total (a b : spec_float) :
  is_nan a = false -> is_nan b = false ->
  Fleb a b = true \/ Fleb b a = true.
Proof.
  intros Na Nb.
  destruct (float_cases a Na) as [[sa ->] | (n1 & e1 & E1)];
    destruct (float_cases b Nb) as [[sb ->] | (n2 & e2 & E2)].
  - destruct sa, sb; auto.
  - destruct sa; destruct b; try discriminate; auto.
  - destruct sb; destruct a; try discriminate; auto.
  - destruct (Zcompare_scaled n1 e1 n2 e2) eqn:C.
    + left. apply (Fleb_num a b n1 e1 n2 e2 E1 E2). congruence.
    + left. apply (Fleb_num a b n1 e1 n2 e2 E1 E2). congruence.
    + right. apply (Fleb_num b a n2 e2 n1 e1 E2 E1).
      rewrite scaled_antisym, C. discriminate.
Qed.

(** The larger of two floats is at least each of them. *)
Lemma fmaximum_upper (a b : spec_float) :
  is_nan a = false -> is_nan b = false ->
  Fleb a (fmaximum a b) = true /\ Fleb b (fmaximum a b) = true.
Proof.
  intros Na Nb. unfold fmaximum, Fgeb. rewrite Na, orb_false_r.
  destruct (Fleb b a) eqn:E.
  - split; [now apply Fleb_refl | assumption].
  - split; [| now apply Fleb_refl].
    destruct (Fleb_total a b Na Nb); congruence.
Qed.

Lemma fmaximum_not_nan (a b : spec_float) :
  is_nan a = false -> is_nan b = false -> is_nan (fmaximum a b) = false.
Proof. intros. now apply fmaximum_either. Qed.

(** The guard keeps an upper bound. *)
Lemma guard_zero_upper (dt : float_dtype) (x v : spec_float) :
  Fleb x v = true -> Fleb x (guard_zero dt v) = true.
Proof.
  intro H. unfold guard_zero. rewrite of_int_zero.
  destruct (Feqb v (S754_zero false)) eqn:E; [| assumption].
  apply (Fleb_trans x v); [assumption |].
  destruct v as [s | s | | s m e]; try discriminate.
  - now destruct dt, s.
  - now destruct s.
  - exfalso. unfold Feqb in E. cbn [Fcompare Fnum] in E.
    rewrite Zcompare_scaled_zero_r in E. now destruct s.
Qed.


(** The reduction of a stack of rows by an operator that is bounded, in
    an order [R], by each of its operands, is bounded by every entry of
    its column. *)
Lemma fold_reduce_bound (R : spec_float -> spec_float -> Prop)
  (f : spec_float -> spec_float -> spec_float) (c : nat)
  (rest : list (list spec_float)) (acc : list spec_float) :
  (forall a, is_nan a = false -> R a a) ->
  (forall a b d, R a b -> R b d -> R a d) ->
  (forall a b, is_nan a = false -> is_nan b = false ->
               R a (f a b) /\ R b (f a b) /\ is_nan (f a b) = false) ->
  length acc = c -> Forall (fun x => is_nan x = false) acc ->
  Forall (fun r => length r = c) rest ->
  Forall (Forall (fun x => is_nan x = false)) rest ->
  Forall (fun row => Forall2 R row (fold_left (zip_with f) rest acc))
    (acc :: rest).
Proof.
  intros Rrefl Rtrans Rf La Na Wr Nr. revert acc La Na.
  induction Wr as [| r1 rest L1 Wr IH]; intros acc La Na; cbn [fold_left].
  - constructor; [| constructor].
    clear La. induction Na as [| x acc Hx _ IHa]; constructor; auto.
  - apply Forall_cons_iff in Nr as [N1 Nr].
    set (acc' := zip_with f acc r1).
    assert (La' : length acc' = c)
      by (unfold acc'; rewrite zip_with_length; congruence).
    assert (Na' : Forall (fun x => is_nan x = false) acc').
    { unfold acc'.
      apply (Forall_zip_with (fun x => is_nan x = false)
               (fun x => is_nan x = false)); auto.
      intros a b Ha Hb. now apply Rf. }
    specialize (IH Nr acc' La' Na').
    apply Forall_cons_iff in IH as [Hacc' Hrest].
    assert (Hstep : Forall2 R acc acc' /\ Forall2 R r1 acc').
    { unfold acc'. clear - La L1 Na N1 Rf. rewrite <- La in L1. clear La.
      revert r1 L1 N1.
      induction Na as [| a acc Ha _ IHa]; intros [| b r1] L1 N1;
        cbn [length zip_with] in *; try discriminate; [split; constructor |].
      apply Forall_cons_iff in N1 as [Hb N1].
      destruct (IHa r1 ltac:(lia) N1) as [I1 I2].
      destruct (Rf a b Ha Hb) as (F1 & F2 & _).
      split; constructor; assumption. }
    assert (Htrans : forall row,
               Forall2 R row acc' ->
               Forall2 R row (fold_left (zip_with f) rest acc')).
    { intros row Hrow. clear - Hrow Hacc' Rtrans.
      revert Hacc'. generalize (fold_left (zip_with f) rest acc').
      induction Hrow as [| x s row acc' Hx _ IHr]; intros res Hres;
        inversion Hres; subst; constructor; eauto. }
    destruct Hstep as [S1 S2].
    constructor; [now apply Htrans |]. constructor; [now apply Htrans |].
    assumption.
Qed.

(** The column maxima of a stack of rows are at least every entry, and
    the column minima at most. *)
Lemma fold_maximum_upper (c : nat) (rest : list (list spec_float))
  (acc : list spec_float) :
  length acc = c -> Forall (fun x => is_nan x = false) acc ->
  Forall (fun r => length r = c) rest ->
  Forall (Forall (fun x => is_nan x = false)) rest ->
  let result := fold_left (zip_with fmaximum) rest acc in
  Forall (fun row => Forall2 (fun x s => Fleb x s = true) row result)
    (acc :: rest).
Proof.
  intros La Na Wr Nr.
  apply (fold_reduce_bound (fun x s => Fleb x s = true) fmaximum c); auto.
  - apply Fleb_refl.
  - intros a b d. apply Fleb_trans.
  - intros a b Ha Hb. destruct (fmaximum_upper a b Ha Hb).
    repeat split; auto. now apply fmaximum_not_nan.
Qed.


(** X19. The statistics bound the data.  For a well-formed matrix with
    at least one row and no NaN, [cal_abs_max_channel] at its default
    axis returns one statistic per column that is at least the absolute
    value of every entry of the column, and [cal_abs_min_max_channel]
    returns maxima that are at least every entry of their column. *)
Theorem channel_statistics_upper (dt : float_dtype) (c : nat)
  (rows : list (list spec_float)) :
  well_formed (Arr2 c rows) -> rows <> [] ->
  all_elems (fun x => is_nan x = false) (Arr2 c rows) ->
  (exists scales,
     cal_abs_max_channel dt (Arr2 c rows) 1 = Some (Arr1 scales) /\
     length scales = c /\
     Forall (fun row =>
               Forall2 (fun x s => Fleb (SFabs x) s = true) row scales) rows)
  /\
  (exists maxs mins,
     cal_abs_min_max_channel dt (Arr2 c rows) 1 = Some (Arr1 maxs, Arr1 mins) /\
     length maxs = c /\ length mins = c /\
     Forall (fun row => Forall2 (fun x s => Fleb x s = true) row maxs) rows).
Proof.
  intros Hwf Hne Hnan. cbn [well_formed all_elems] in *.
  destruct rows as [| r0 rest]; [congruence |]. clear Hne.
  assert (G : forall rows' : list (list spec_float),
             Forall (fun r => length r = c) rows' ->
             Forall (Forall (fun x => is_nan x = false)) rows' ->
             forall r0' rest', rows' = r0' :: rest' ->
             let result := fold_left (zip_with fmaximum) rest' r0' in
             length (map (guard_zero dt) result) = c /\
             Forall (fun row =>
                       Forall2 (fun x s => Fleb x s = true) row
                         (map (guard_zero dt) result)) rows').
  { intros rows' W N r0' rest' -> result.
    apply Forall_cons_iff in W as [W0 W]. apply Forall_cons_iff in N as [N0 N].
    pose proof (fold_maximum_upper c rest' r0' W0 N0 W N) as H. cbv zeta in H.
    fold result in H. split.
    - rewrite length_map.
      apply (reduce_rows_length fmaximum (r0' :: rest') result c);
        [constructor; assumption | reflexivity].
    - revert H. apply Forall_impl. intros row Hrow.
      induction Hrow as [| x s row res Hx _ IHr]; cbn [map]; constructor; auto.
      now apply guard_zero_upper. }
  split.
  - unfold cal_abs_max_channel. cbn [amap reduce_except].
    change (1 =? 0) with false. change (1 =? 1) with true. cbv iota.
    cbn [map reduce_rows reduce1 bind amap].
    destruct (G (map (map SFabs) (r0 :: rest))) with (r0' := map SFabs r0)
      (rest' := map (map SFabs) rest) as [GL GF]; [| | reflexivity |].
    { apply Forall_map. revert Hwf. apply Forall_impl. intros r Hr.
      now rewrite length_map. }
    { apply Forall_map. revert Hnan. apply Forall_impl. intros r Hr.
      apply Forall_map. revert Hr. apply Forall_impl.
      intros x Hx. now destruct x. }
    eexists. split; [reflexivity |]. split; [exact GL |].
    rewrite Forall_map in GF. revert GF. apply Forall_impl. intros row Hrow.
    clear - Hrow. remember (map SFabs row) as arow eqn:Ea. revert row Ea.
    induction Hrow as [| x s arow res Hx _ IHr]; intros [| y row] Ea;
      cbn [map] in Ea; try discriminate; constructor.
    + now injection Ea as -> _.
    + apply IHr. now injection Ea.
  - unfold cal_abs_min_max_channel. cbn [reduce_except].
    change (1 =? 0) with false. change (1 =? 1) with true. cbv iota.
    cbn [reduce_rows reduce1 bind amap].
    destruct (G (r0 :: rest) Hwf Hnan r0 rest eq_refl) as [GL GF].
    eexists _, _. split; [reflexivity |]. split; [exact GL |].
    split; [| exact GF].
    rewrite length_map.
    apply (reduce_rows_length fminimum (r0 :: rest) _ c);
      [assumption | reflexivity].
Qed.

Lemma channel_statistics_upper_witness :
  let f := of_int float32 in
  let rows := [[f 0; f (-3)]; [S754_zero true; f 2]] in
  (exists scales,
     cal_abs_max_channel float32 (Arr2 2 rows) 1 = Some (Arr1 scales) /\
     length scales = 2%nat /\
     Forall (fun row =>
               Forall2 (fun x s => Fleb (SFabs x) s = true) row scales) rows)
  /\
  (exists maxs mins,
     cal_abs_min_max_channel float32 (Arr2 2 rows) 1
     = Some (Arr1 maxs, Arr1 mins) /\
     length maxs = 2%nat /\ length mins = 2%nat /\
     Forall (fun row => Forall2 (fun x s => Fleb x s = true) row maxs) rows).
Proof.
  intros f rows.
  apply (channel_statistics_upper float32 2 rows);
    [repeat constructor | discriminate | repeat constructor].
Defined.

(* ================================================================== *)
(** * The channel-wise quantizations at the edges                      *)
(* ================================================================== *)

Lemma map_constant {A B : Type} (g : A -> B) (e : B) (l : list A) :
  Forall (fun x => g x = e) l -> map g l = repeat e (length l).
Proof.
  induction 1 as [| x l Hx _ IH]; cbn [map length repeat]; [reflexivity |].
  now rewrite Hx, IH.
Qed.

Lemma zip_with_repeat_both {A B C : Type} (f : A -> B -> C) (a : A) (b : B)
  (n : nat) :
  zip_with f (repeat a n) (repeat b n) = repeat (f a b) n.
Proof.
  induction n as [| n IH]; cbn [repeat zip_with]; [reflexivity |].
  now rewrite IH.
Qed.

(** The guarded statistics of a well-formed matrix of zeros are the
    epsilon, for the maxima, the minima and the maxima of the absolute
    values. *)
Lemma zero_rows_statistics (dt : float_dtype) (f : spec_float -> spec_float -> spec_float)
  (c : nat) (rows : list (list spec_float)) :
  (forall P a b, P a -> P b -> P (f a b) : Prop) ->
  rows <> [] -> Forall (fun r => length r = c) rows ->
  Forall (Forall (fun x => exists s, x = S754_zero s)) rows ->
  exists raw,
    reduce_rows f rows = Some raw /\
    map (guard_zero dt) raw = repeat (eps_of dt) c.
Proof.
  intros Hf Hne Hwf Hz.
  destruct (reduce_rows_total f c rows Hne Hwf) as (raw & E & L).
  exists raw. split; [assumption |]. rewrite <- L. apply map_constant.
  pose proof (reduce_rows_closed (fun x => exists s, x = S754_zero s) f rows raw
                (Hf _) Hz E) as H.
  revert H. apply Forall_impl. intros x [s ->].
  unfold guard_zero. rewrite of_int_zero. now destruct s.
Qed.

(** One zero, quantized with the epsilon as statistics. *)
Lemma quantize_zero_elem (dt : float_dtype) (quant_bit : Z) (s : bool) :
  dt <> float16 -> 1 <= quant_bit <= 8 ->
  astype_int8
    (fclip
       (frint dt
          (fmul dt (fdiv dt (S754_zero s) (eps_of dt))
             (of_int dt (2 ^ (quant_bit - 1) - 1))))
       (of_int dt (- (2 ^ (quant_bit - 1) - 1) - 1))
       (of_int dt (2 ^ (quant_bit - 1) - 1))) = 0
  /\
  astype_uint8
    (fclip
       (frint dt
          (fmul dt
             (fdiv dt (fsub dt (S754_zero s) (eps_of dt))
                (fsub dt (eps_of dt) (eps_of dt)))
             (of_int dt (2 ^ quant_bit - 1))))
       (of_int dt 0) (of_int dt (2 ^ quant_bit - 1))) = 0.
Proof.
  intros Hdt Hq.
  assert (C : quant_bit = 1 \/ quant_bit = 2 \/ quant_bit = 3 \/ quant_bit = 4 \/
              quant_bit = 5 \/ quant_bit = 6 \/ quant_bit = 7 \/ quant_bit = 8)
    by lia.
  destruct dt; [congruence | |];
    repeat (destruct C as [C | C]); subst quant_bit; destruct s;
    split; vm_compute; reflexivity.
Qed.

(** X20. A matrix of zeros.  For a well-formed float32 or float64 matrix
    with at least one row whose entries are all zero, of either sign, and
    a [quant_bit] from 1 to 8, [qdq_weight] and [asymmetry_qdq_weight]
    without statistics return a quantized matrix of zeros, and the
    statistics they return are the epsilon 1e-8 in every column: the
    scales of the first, the minima and the maxima of the second. *)
Theorem zero_matrix_quantized (dt : float_dtype) (c : nat)
  (rows : list (list spec_float)) (quant_bit quant_axis : Z) :
  dt <> float16 -> well_formed (Arr2 c rows) -> rows <> [] ->
  all_elems (fun x => exists s, x = S754_zero s) (Arr2 c rows) ->
  1 <= quant_bit <= 8 ->
  qdq_weight_quant dt (Arr2 c rows) quant_bit quant_axis None
  = Some (amap (fun _ => 0) (Arr2 c rows), Arr1 (repeat (eps_of dt) c))
  /\
  asymmetry_qdq_weight_quant dt (Arr2 c rows) quant_bit quant_axis None None
  = Some (amap (fun _ => 0) (Arr2 c rows),
          Arr1 (repeat (eps_of dt) c), Arr1 (repeat (eps_of dt) c)).
Proof.
  intros Hdt Hwf Hne Hz Hq. cbn [well_formed all_elems] in *.
  assert (Hzip : forall (g : spec_float -> spec_float -> spec_float) (e : spec_float),
             map (fun r => zip_with g r (repeat e c)) rows
             = map (map (fun x => g x e)) rows).
  { intros g e. apply map_ext_Forall. revert Hwf. apply Forall_impl.
    intros row <-. apply zip_with_repeat_r. }
  assert (Hwf' : forall g : spec_float -> spec_float,
             Forall (fun r => length r = c) (map (map g) rows)).
  { intro g. apply Forall_map. revert Hwf. apply Forall_impl.
    intros r Hr. now rewrite length_map. }
  split.
  - unfold qdq_weight_quant, cal_abs_max_channel. cbn [amap reduce_except].
    change (1 =? 0) with false. change (1 =? 1) with true. cbv iota.
    destruct (zero_rows_statistics dt fmaximum c (map (map SFabs) rows))
      as (raw & -> & Eg).
    { intros P a b. apply fmaximum_either. }
    { destruct rows; [congruence | discriminate]. }
    { apply Hwf'. }
    { apply Forall_map. revert Hz. apply Forall_impl. intros row Hrow.
      apply Forall_map. revert Hrow. apply Forall_impl.
      intros x [s ->]. now exists false. }
    cbn [bind amap]. rewrite Eg, py_lshift_1.
    destruct (Z.ltb_spec (quant_bit - 1) 0) as [Hneg | _]; [lia |].
    cbn [bind].
    rewrite amap2_matrix_vector by (auto using repeat_length).
    cbn [bind amap]. rewrite Hzip, !map_map.
    do 3 f_equal. apply map_ext_Forall.
    revert Hz. apply Forall_impl. intros row Hrow.
    rewrite !map_map. apply map_ext_Forall. revert Hrow. apply Forall_impl.
    intros x [s ->]. now apply quantize_zero_elem.
  - unfold asymmetry_qdq_weight_quant, cal_abs_min_max_channel.
    cbn [reduce_except].
    change (1 =? 0) with false. change (1 =? 1) with true. cbv iota.
    destruct (zero_rows_statistics dt fmaximum c rows) as (rmax & -> & Emax);
      auto.
    { intros P a b. apply fmaximum_either. }
    destruct (zero_rows_statistics dt fminimum c rows) as (rmin & -> & Emin);
      auto.
    { intros P a b. apply fminimum_either. }
    cbn [bind amap]. rewrite Emax, Emin, py_lshift_1.
    destruct (Z.ltb_spec quant_bit 0) as [Hneg | _]; [lia |].
    cbn [bind].
    rewrite (amap2_same_shape (fsub dt) (Arr1 _) (Arr1 _))
      by (cbn [shape well_formed]; auto).
    cbn [bind azip_with].
    rewrite zip_with_repeat_both.
    rewrite amap2_matrix_vector by (auto using repeat_length).
    cbn [bind]. rewrite Hzip.
    rewrite amap2_matrix_vector by (auto using repeat_length).
    cbn [bind amap]. rewrite !map_map.
    do 4 f_equal. apply map_ext_Forall.
    pose proof (Forall_conj _ _ rows Hwf Hz) as Hboth.
    revert Hboth. apply Forall_impl. intros row [Hlen Hrow].
    rewrite <- Hlen.
    rewrite <- (length_map (fun x => fsub dt x (eps_of dt)) row).
    rewrite zip_with_repeat_r, !map_map.
    apply map_ext_Forall. revert Hrow. apply Forall_impl.
    intros x [s ->]. now apply quantize_zero_elem.
Qed.

Lemma zero_matrix_quantized_witness :
  let z := S754_zero false in
  let x := Arr2 2 [[z; S754_zero true]; [z; z]] in
  qdq_weight_quant float32 x 8 (-1) None
  = Some (amap (fun _ => 0) x, Arr1 (repeat (eps_of float32) 2))
  /\
  asymmetry_qdq_weight_quant float32 x 8 (-1) None None
  = Some (amap (fun _ => 0) x,
          Arr1 (repeat (eps_of float32) 2), Arr1 (repeat (eps_of float32) 2)).
Proof.
  intros z x.
  apply (zero_matrix_quantized float32 2 [[z; S754_zero true]; [z; z]] 8 (-1));
    [discriminate | repeat constructor | discriminate | | lia].
  cbn [all_elems]. repeat constructor; eexists; reflexivity.
Defined.



(* ================================================================== *)
(** * The statistics of a group bracket its rows                       *)
(* ================================================================== *)






(* ================================================================== *)
(** * The update ratio at the edges                                    *)
(* ================================================================== *)

(** X23. [cal_ratio] with its default epsilon, entry by entry, on the
    variances off the positive finite range: a NaN and a negative
    variance give NaN, an infinite variance gives zero, and a zero
    variance gives [1 / eps], which is 100000000 exactly in float32 and in
    float64 and is infinite in float16, where the epsilon is zero.  The
    moment [m] is not read. *)
Theorem cal_ratio_edges (dt : float_dtype) (m m' v : ndarray spec_float) :
  cal_ratio dt m v py_1e_8 = cal_ratio dt m' v py_1e_8
  /\
  (all_elems (fun x => x = S754_nan \/ x = S754_infinity true \/
                       exists mx ex, x = S754_finite true mx ex) v ->
   all_elems (fun r => r = S754_nan) (cal_ratio dt m v py_1e_8))
  /\
  (all_elems (fun x => x = S754_infinity false) v ->
   all_elems (fun r => r = S754_zero false) (cal_ratio dt m v py_1e_8))
  /\
  (all_elems (fun x => exists s, x = S754_zero s) v ->
   all_elems (fun r => r = if match dt with float16 => true | _ => false end
                           then S754_infinity false
                           else of_int dt 100000000)
     (cal_ratio dt m v py_1e_8)).
Proof.
  split; [reflexivity |]. unfold cal_ratio.
  split; [| split]; intro H; apply all_elems_amap; revert H;
    apply all_elems_impl.
  - intros x [-> | [-> | (mx & ex & ->)]]; now destruct dt.
  - intros x ->. now destruct dt.
  - intros x [s ->]. destruct dt, s; vm_compute; reflexivity.
Qed.

(* ================================================================== *)
(** * The model on small inputs                                        *)
(* ================================================================== *)

Example py_slice_middle : py_slice [1; 2; 3; 4] 2 4 = [3; 4].
Proof. reflexivity. Qed.

Example py_slice_from_end : py_slice [1; 2; 3; 4] (-3) (-1) = [2; 3].
Proof. reflexivity. Qed.

Example py_slice_empty : py_slice [1; 2; 3; 4] (-2) 0 = [].
Proof. reflexivity. Qed.

Example merge_int4_bytes :
  merge_int4 (Arr1 [-8; 7; -1; 3]) (Arr1 [0; 7; 3; 15])
  = Some (Arr1 [-128; 119; -13; 63]).
Proof. reflexivity. Qed.

Example split_int8_bytes :
  split_int8 (Arr1 [-128; 119; -13; 63])
  = (Arr1 [-8; 7; -1; 3], Arr1 [0; 7; 3; 15]).
Proof. reflexivity. Qed.

(** The matrix [[1, -2], [0.5, 2]] in float32: the scales of its columns
    are 1 and 2, and 0.5 / 1 * 127 = 63.5 rounds to the even 64. *)
Example qdq_weight_quant_8_bits :
  let f := of_int float32 in
  let half := fdiv float32 (f 1) (f 2) in
  qdq_weight_quant float32 (Arr2 2 [[f 1; f (-2)]; [half; f 2]]) 8 (-1) None
  = Some (Arr2 2 [[127; -127]; [64; 127]], Arr1 [f 1; f 2]).
Proof. vm_compute. reflexivity. Qed.

Example asymmetry_qdq_weight_quant_8_bits :
  let f := of_int float32 in
  let half := fdiv float32 (f 1) (f 2) in
  asymmetry_qdq_weight_quant float32 (Arr2 2 [[f 1; f (-2)]; [half; f 2]])
    8 (-1) None None
  = Some (Arr2 2 [[255; 0]; [0; 255]], Arr1 [half; f (-2)], Arr1 [f 1; f 2]).
Proof. vm_compute. reflexivity. Qed.

(** Two groups of two rows; the first column of the first group and the
    second column of the second group are constant. *)
Example group_wise_quant_asymmetry_4_bits :
  let f := of_int float32 in
  group_wise_quant_asymmetry float32
    (Arr2 2 [[f 5; f (-2)]; [f 5; f 2]; [f 1; f 1]; [f 3; f 1]]) 4 2
  = Some (Arr2 2 [[0; 0]; [0; 15]; [0; 0]; [15; 0]],
          Arr2 2 [[f 5; f (-2)]; [f 1; f 1]],
          Arr2 2 [[f 5; f 2]; [f 3; f 1]]).
Proof. vm_compute. reflexivity. Qed.

Example group_wise_quant_symmetry_4_bits :
  let f := of_int float32 in
  group_wise_quant_symmetry float32
    (Arr2 2 [[f 5; f (-2)]; [f 5; f 2]; [f 1; f 1]; [f 3; f 1]]) 4 2
  = Some (Arr2 2 [[7; -7]; [7; 7]; [2; 7]; [7; 7]],
          Arr2 2 [[f 5; f 2]; [f 3; f 1]]).
Proof. vm_compute. reflexivity. Qed.

(** The epsilon of the statistics in each dtype. *)
Example eps_of_float64 : eps_of float64 = S754_finite false 6044629098073146 (-79).
Proof. vm_compute. reflexivity. Qed.

Example eps_of_float32 : eps_of float32 = S754_finite false 11258999 (-50).
Proof. vm_compute. reflexivity. Qed.

Example eps_of_float16 : eps_of float16 = S754_zero false.
Proof. vm_compute. reflexivity. Qed.

(** Rank 1 of 2 on the scales of four columns, for a shard of two
    columns: the channel-wise dequantization takes the scales 3 and 4. *)
Example qdq_weight_dequant_column_shard :
  let lib := ieee_backend float32 in
  let f := of_int float32 in
  channel_shard_by (Arr1 [f 1; f 2; f 3; f 4]) (Arr2 2 [[f 1; f 2]])
    (Arr1 [f 1; f 2; f 3; f 4]) 1 2
  = Some (Arr1 [f 3; f 4]).
Proof. vm_compute. reflexivity. Qed.

(** [np.round] goes to the even integer at a tie and keeps the sign of a
    zero result. *)
Example frint_ties :
  let f := of_int float32 in
  let over_2 z := fdiv float32 (f z) (f 2) in
  frint float32 (over_2 5) = f 2 /\
  frint float32 (over_2 7) = f 4 /\
  frint float32 (over_2 (-5)) = f (-2) /\
  frint float32 (fdiv float32 (f (-1)) (f 3)) = S754_zero true.
Proof. vm_compute. repeat split. Qed.

(** [np.clip] keeps a NaN, and the cast to an integer type makes it 0. *)
Example fclip_nan :
  let f := of_int float32 in
  fclip S754_nan (f (-8)) (f 7) = S754_nan /\
  fclip (f 100) (f (-8)) (f 7) = f 7 /\
  fclip (S754_infinity true) (f (-8)) (f 7) = f (-8) /\
  astype_int8 S754_nan = 0.
Proof. vm_compute. repeat split. Qed.
